(** * barry-platform worker: job processor and Salesforce credential manager

    A shallow embedding of [src/worker/worker.ts] (the BullMQ job processor
    with its audit-log bracket) and of [src/worker/salesforce.ts] (the token
    cache with single-flight refresh and [sfFetch]'s retry-once logic),
    followed by the properties proved about them.

    Layout:
    - [JS]         the few JavaScript notions both files rely on
                   (JSON values, truthiness, [||], [?.], [String(..)]);
    - [Worker]     the processor of [worker.ts] in a trace/completion monad;
    - [Salesforce] the async functions of [salesforce.ts] as programs over
                   an effect signature, a machine that interleaves them at
                   their [await] points, and a sequential driver;
    - [Binary64]   JavaScript's numbers, for the one arithmetic expression
                   of [salesforce.ts]. *)

From Stdlib Require Import ZArith String Ascii List Bool Lia DecimalString SpecFloat.
From stdpp Require Import base option list strings gmap.

Set Warnings "-register-all".
Local Open Scope Z_scope.

(* ================================================================== *)
(** ** JavaScript values *)
(* ================================================================== *)

Module JS.

(** JSON documents as they reach the worker ([job.data]) together with
    JavaScript's [undefined].  Numbers are restricted to integers: a
    document with a fractional number, a NaN or an infinity is outside
    this type, and nothing below speaks about one. *)
Inductive json : Type :=
| JUndefined
| JNull
| JBool (b : bool)
| JNum (n : Z)
| JStr (s : string)
| JArr (items : list json)
| JObj (fields : list (string * json)).

(** A thrown value: an [Error] instance carrying its [message], or any
    other value ([throw] accepts everything). *)
Inductive thrown : Type :=
| ErrorObj (message : string)
| NonError (v : json).

Definition is_empty (s : string) : bool :=
  match s with EmptyString => true | String _ _ => false end.

(** ToBoolean: the values for which [!v] is [false]. *)
Definition truthy (v : json) : bool :=
  match v with
  | JUndefined | JNull => false
  | JBool b => b
  | JNum n => negb (n =? 0)
  | JStr s => negb (is_empty s)
  | JArr _ | JObj _ => true
  end.

(** [a || b] *)
Definition js_or (a b : json) : json := if truthy a then a else b.

(** [a ?? b] *)
Definition js_nullish (a b : json) : json :=
  match a with JUndefined | JNull => b | _ => a end.

Fixpoint lookup_field (k : string) (fs : list (string * json)) : json :=
  match fs with
  | [] => JUndefined
  | (k', v) :: rest => if String.eqb k k' then v else lookup_field k rest
  end.

(** [v?.k] for the property names the worker reads (none of them is a
    built-in property of strings or arrays): [undefined] on [null] and
    [undefined], the own field on objects, [undefined] elsewhere. *)
Definition opt_get (v : json) (k : string) : json :=
  match v with
  | JObj fs => lookup_field k fs
  | _ => JUndefined
  end.

(** [v.k] and destructuring [const { k } = v]: a [TypeError] on [null] and
    [undefined].  The message below is a stand-in: the text an engine puts
    in such an error names the property and the value and differs from
    one site and one engine to the next, so only the fact that an [Error]
    is thrown is meaningful, never this text. *)
Definition TypeError_nullish : thrown :=
  ErrorObj "TypeError: Cannot read properties of null or undefined".

Definition get (v : json) (k : string) : thrown + json :=
  match v with
  | JUndefined | JNull => inl TypeError_nullish
  | _ => inr (opt_get v k)
  end.

(** An integer in plain decimal digits.  This is what [String(n)] gives
    for an integer number of magnitude below 1e21; from there on
    JavaScript prints an exponent, which [decimal] does not. *)
Definition decimal (n : Z) : string := NilZero.string_of_int (Z.to_int n).

Definition join_comma (parts : list string) : string :=
  match parts with
  | [] => EmptyString
  | p :: ps => fold_left (fun acc q => acc +:+ "," +:+ q) ps p
  end.

(** [String(v)], also what a template literal applies to [${v}]; for a
    number, within the range of [decimal]. *)
Fixpoint js_String (v : json) : string :=
  match v with
  | JUndefined => "undefined"
  | JNull => "null"
  | JBool true => "true"
  | JBool false => "false"
  | JNum n => decimal n
  | JStr s => s
  | JArr items =>
      join_comma
        (List.map (fun x => match x with
                            | JUndefined | JNull => EmptyString
                            | _ => js_String x
                            end) items)
  | JObj _ => "[object Object]"
  end.

(** [v === "lit"] *)
Definition is_str (v : json) (lit : string) : bool :=
  match v with JStr s => String.eqb s lit | _ => false end.

(** worker.ts, [getErrorMessage]:
    [err instanceof Error ? err.message : String(err)] *)
Definition getErrorMessage (err : thrown) : string :=
  match err with
  | ErrorObj message => message
  | NonError v => js_String v
  end.

End JS.

(* ================================================================== *)
(** ** worker.ts: the job processor *)
(* ================================================================== *)

Module Worker.
Import JS.

(** The part of a BullMQ [Job] the processor reads. *)
Record Job : Type := mkJob {
  id : string;
  name : string;
  attemptsMade : Z;
  data : json
}.

(** Everything the processor awaits.  [pool.query] is the audit storage;
    the other calls are the collaborators the processor invokes from its
    handler branches (Slack replies, Salesforce validation, the
    create-case command flow).  Their bodies lie outside the processor:
    each is an awaited call whose outcome the environment decides. *)
Inductive call : Type :=
| PoolQuery (sql : string) (params : list json)
| SlackUpdateMessage (token : string) (channel ts : json) (text : string)
| HandleCreateCaseCommand (job : Job) (payload : json)
| ReplyToResponseUrl (responseUrl : json) (body : json)
| SfValidateUser (slackTeamId slackChannelId email slackUserId : json)
| HandleValidationResult (result : json) (ctx : json)
| SfCreateContact (request : json).

(** An awaited call together with how it settled. *)
Abbreviation event := (call * (thrown + json))%type.

(** What surrounds one execution of the processor: the process
    environment, the outcome of the n-th awaited call, the clock read
    after n awaited calls, and [Date.prototype.toISOString]. *)
Record Env : Type := mkEnv {
  SLACK_BOT_TOKEN : option string;
  reply : nat -> thrown + json;
  clock : nat -> Z;
  toISOString : Z -> string
}.

(** Completion of a statement list: it falls through with a value, hits a
    [return], or throws. *)
Inductive completion (A : Type) : Type :=
| Normal (a : A)
| Returned (v : json)
| Threw (e : thrown).
Arguments Normal {A} a.
Arguments Returned {A} v.
Arguments Threw {A} e.

(** Statements thread the trace of awaited calls. *)
Definition W (A : Type) : Type := list event -> completion A * list event.

Definition ret {A} (a : A) : W A := fun t => (Normal a, t).
Definition throw {A} (e : thrown) : W A := fun t => (Threw e, t).
Definition return_ {A} (v : json) : W A := fun t => (Returned v, t).

Definition bind {A B} (m : W A) (k : A -> W B) : W B :=
  fun t =>
    match m t with
    | (Normal a, t') => k a t'
    | (Returned v, t') => (Returned v, t')
    | (Threw e, t') => (Threw e, t')
    end.

Notation "'let*' x ':=' m 'in' k" := (bind m (fun x => k))
  (at level 10, x name, m at level 100, k at level 200).
Notation "m ';;;' k" := (bind m (fun _ => k))
  (at level 100, k at level 200, right associativity).

(** [try { body } catch (err) { handler }]: only a throw is caught. *)
Definition try_catch {A} (body : W A) (handler : thrown -> W A) : W A :=
  fun t =>
    match body t with
    | (Threw e, t') => handler e t'
    | other => other
    end.

(** The boundary of the async function: [return v] resolves with [v],
    falling off the end resolves with [undefined], a throw rejects. *)
Definition async_function (body : W unit) : list event -> (thrown + json) * list event :=
  fun t =>
    match body t with
    | (Normal _, t') => (inr JUndefined, t')
    | (Returned v, t') => (inr v, t')
    | (Threw e, t') => (inl e, t')
    end.

Definition when (c : bool) (m : W unit) : W unit := if c then m else ret tt.

Definition lift_get (r : thrown + json) : W json :=
  match r with inl e => throw e | inr v => ret v end.

Section Processor.
Variable env : Env.

(** [await c]: the call is made, the environment settles it. *)
Definition await (c : call) : W json :=
  fun t =>
    let r := reply env (length t) in
    (match r with inl e => Threw e | inr v => Normal v end, t ++ [(c, r)]).

(** [Date.now()] *)
Definition Date_now : W Z := fun t => (Normal (clock env (length t)), t).

(** [requireEnv(name)] for the one name the processor asks for. *)
Definition requireEnv_SLACK_BOT_TOKEN : W string :=
  match SLACK_BOT_TOKEN env with
  | Some v => if is_empty v
              then throw (ErrorObj "Missing SLACK_BOT_TOKEN in environment variables")
              else ret v
  | None => throw (ErrorObj "Missing SLACK_BOT_TOKEN in environment variables")
  end.

Definition INSERT_AUDIT : string :=
  "INSERT INTO audit_log (source, action, status, correlation_id, payload) VALUES ($1, $2, $3, $4, $5)".

Definition audit_insert (job : Job) (status : string) (correlationId payload : json) : call :=
  PoolQuery INSERT_AUDIT [JStr "queue"; JStr (name job); JStr status; correlationId; payload].

(** [job.data?.correlation_id || `job-${job.id}-${Date.now()}`] *)
Definition correlationId_of (job : Job) (now : Z) : json :=
  js_or (opt_get (data job) "correlation_id")
        (JStr ("job-" +:+ id job +:+ "-" +:+ decimal now)).

Definition ephemeral (text : string) : json :=
  JObj [("response_type", JStr "ephemeral"); ("text", JStr text)].

Definition nl : string := String (ascii_of_nat 10) EmptyString.

(** 1) [job.name === "slack-interaction"] *)
Definition slack_interaction (job : Job) : W unit :=
  let* token := requireEnv_SLACK_BOT_TOKEN in
  let interactionPayload := opt_get (data job) "payload" in
  let channel := opt_get (opt_get interactionPayload "channel") "id" in
  let ts := opt_get (opt_get interactionPayload "message") "ts" in
  if negb (truthy channel) || negb (truthy ts)
  then throw (ErrorObj "Missing channel.id or message.ts in interaction payload")
  else
    let* _ := await (SlackUpdateMessage token channel ts
                       "✅ *Barry received your click (via worker)*") in
    ret tt.

(** 2) [job.name === "slack-command"] *)
Definition slack_command (job : Job) : W unit :=
  let cmdPayload := opt_get (data job) "payload" in
  if negb (truthy cmdPayload)
  then throw (ErrorObj "Missing payload on slack-command job")
  else
    let cmd := js_or (opt_get cmdPayload "command") (JStr EmptyString) in
    when (is_str cmd "/create-case" || is_str cmd "/raise-case")
      (let* _ := await (HandleCreateCaseCommand job cmdPayload) in ret tt).

(** 3) [job.name === "verify-user"] *)
Definition verify_user (job : Job) : W unit :=
  let* team_id := lift_get (get (data job) "team_id") in
  let channel_id := opt_get (data job) "channel_id" in
  let user_id := opt_get (data job) "user_id" in
  let email := opt_get (data job) "email" in
  let response_url := opt_get (data job) "response_url" in
  if negb (truthy response_url)
  then return_ JUndefined
  else
    let* _ := await (ReplyToResponseUrl response_url
                       (ephemeral "🔍 Verifying your access…")) in
    let* result := await (SfValidateUser team_id channel_id email user_id) in
    let* _ := await (HandleValidationResult result
                       (JObj [("team_id", team_id); ("user_id", user_id);
                              ("email", email); ("channel_id", channel_id);
                              ("response_url", response_url)])) in
    ret tt.

(** 4) [job.name === "create-contact"] *)
Definition create_contact (job : Job) : W unit :=
  let* team_id := lift_get (get (data job) "team_id") in
  let user_id := opt_get (data job) "user_id" in
  let email := opt_get (data job) "email" in
  let account_id := opt_get (data job) "account_id" in
  let first_name := opt_get (data job) "first_name" in
  let last_name := opt_get (data job) "last_name" in
  let phone := opt_get (data job) "phone" in
  let job_title := opt_get (data job) "job_title" in
  let response_url := opt_get (data job) "response_url" in
  let* sfRes := await (SfCreateContact
                         (JObj [("accountId", account_id); ("email", email);
                                ("firstName", first_name); ("lastName", last_name);
                                ("phone", phone); ("jobTitle", job_title);
                                ("slackUserId", user_id); ("slackTeamId", team_id)])) in
  let* success := lift_get (get sfRes "success") in
  if negb (truthy success)
  then
    when (truthy response_url)
      (let* _ := await (ReplyToResponseUrl response_url
                          (ephemeral ("❌ We couldn't create your profile: "
                                      +:+ js_String (js_nullish (opt_get sfRes "error")
                                                                (JStr "unknown error"))
                                      +:+ ". Please contact your account admin."))) in
       ret tt) ;;;
    return_ JUndefined
  else
    when (truthy response_url)
      (let* _ := await (ReplyToResponseUrl response_url
                          (ephemeral ("✅ *Profile submitted for approval.*" +:+ nl
                                      +:+ "Barry will send you a direct message once your access is approved."))) in
       ret tt).

(** 5) [job.name === "create-case"] *)
Definition create_case (job : Job) : W unit :=
  let* subject := lift_get (get (data job) "subject") in
  let response_url := opt_get (data job) "response_url" in
  when (truthy response_url)
    (let* _ := await (ReplyToResponseUrl response_url
                        (ephemeral ("✅ *Case received* — Salesforce submission coming in Phase 2."
                                    +:+ nl +:+ "• Subject: *" +:+ js_String subject +:+ "*"))) in
     ret tt).

(** The five [if (job.name === ...)] blocks of the [try] body, in order. *)
Definition handlers (job : Job) : W unit :=
  when (String.eqb (name job) "slack-interaction") (slack_interaction job) ;;;
  when (String.eqb (name job) "slack-command") (slack_command job) ;;;
  when (String.eqb (name job) "verify-user") (verify_user job) ;;;
  when (String.eqb (name job) "create-contact") (create_contact job) ;;;
  when (String.eqb (name job) "create-case") (create_case job).

Definition failed_payload (job : Job) (err : thrown) : json :=
  JObj [("error", JStr (getErrorMessage err));
        ("originalPayload", js_or (data job) (JObj []))].

(** The processor passed to [new Worker("barry-jobs", ...)].  The
    [console.log] lines are left out: they touch nothing the processor or
    the broker reads. *)
Definition processor_body (job : Job) : W unit :=
  let* now := Date_now in
  let correlationId := correlationId_of job now in
  let* _ := await (audit_insert job "started" correlationId (js_or (data job) (JObj []))) in
  try_catch
    (handlers job ;;;
     let* _ := await (audit_insert job "completed" correlationId (js_or (data job) (JObj []))) in
     let* done := Date_now in
     return_ (JObj [("ok", JBool true); ("processedAt", JStr (toISOString env done))]))
    (fun err =>
       let* _ := await (audit_insert job "failed" correlationId (failed_payload job err)) in
       throw err).

Definition processor (job : Job) : (thrown + json) * list event :=
  async_function (processor_body job) [].

End Processor.

(** *** Vocabulary of the properties *)

(** The collaborator calls: everything but the audit storage. *)
Definition is_collab (c : call) : bool :=
  match c with PoolQuery _ _ => false | _ => true end.

(** A statement list that only ever appends to the trace, and only calls
    satisfying [P]. *)
Definition emits {A} (P : call -> bool) (m : W A) : Prop :=
  forall t, exists evs, snd (m t) = t ++ evs /\ Forall (fun ev => P (fst ev) = true) evs.

(** The audit rows the storage accepted, in order: the parameter lists of
    the [PoolQuery] calls that resolved. *)
Definition audit_rows (tr : list event) : list (list json) :=
  flat_map (fun ev => match ev with
                      | (PoolQuery _ params, inr _) => [params]
                      | _ => []
                      end) tr.

(** The closing writes of an execution with correlation id [cid]. *)
Definition is_closing_write (job : Job) (cid : json) (ev : event) : Prop :=
  exists payload,
    fst ev = audit_insert job "completed" cid payload \/
    fst ev = audit_insert job "failed" cid payload.

(** [k in v]: the object has an own field [k]. *)
Definition has_field (v : json) (k : string) : bool :=
  match v with
  | JObj fs => existsb (fun kv => String.eqb k (fst kv)) fs
  | _ => false
  end.

(** The correlation id an awaited call carries, when it is an audit write. *)
Definition carries_cid (cid : json) (ev : event) : Prop :=
  match fst ev with
  | PoolQuery _ params => params !! 3%nat = Some cid
  | _ => True
  end.

Definition registered_names : list string :=
  ["slack-interaction"; "slack-command"; "verify-user"; "create-contact"; "create-case"].

Definition registered (n : string) : bool :=
  existsb (String.eqb n) registered_names.

(** Sample environments and jobs used to exercise the statements. *)
Definition env_ok : Env :=
  mkEnv (Some "xoxb-1") (fun _ => inr JNull) (fun n => 1000 + Z.of_nat n) decimal.

Definition job_noop : Job := mkJob "7" "noop-unknown" 0 (JObj []).
Definition job_null_payload : Job := mkJob "7" "slack-interaction" 0 JNull.
Definition job_empty_cid : Job :=
  mkJob "7" "noop-unknown" 0 (JObj [("correlation_id", JStr EmptyString)]).
Definition job_with_cid : Job :=
  mkJob "7" "noop-unknown" 0 (JObj [("correlation_id", JStr "req-42")]).
Definition job_click : Job := mkJob "9" "slack-interaction" 1 (JObj [("payload", JObj [])]).

End Worker.

(* ================================================================== *)
(** ** salesforce.ts: the credential manager *)
(* ================================================================== *)

Module Salesforce.
Import JS.

(** [TokenCache]; [expiresAt] is in epoch milliseconds. *)
Record TokenCache : Type := mkTokenCache {
  accessToken : string;
  instanceUrl : string;
  expiresAt : Z
}.

(** [SalesforceTokenResponse], the two fields the code reads.  The type
    declares them as strings; at run time either may be absent ([None]). *)
Record SalesforceTokenResponse : Type := mkTokenResponse {
  access_token : option string;
  instance_url : option string
}.

(** The module constants read from [process.env].  [SKEW_SECONDS] is
    [Number(process.env.SF_TOKEN_SKEW_SECONDS || "60")], a double in the
    code; here it is a whole number of seconds, so a fractional skew, a
    NaN or an infinity is outside this type.  [Binary64] below has the
    expression that uses it on doubles. *)
Record Config : Type := mkConfig {
  SF_CLIENT_ID : string;
  SF_CLIENT_SECRET : string;
  SF_REFRESH_TOKEN : string;
  SF_LOGIN_URL : string;
  SF_API_VERSION : string;
  SKEW_SECONDS : Z
}.

(** A [fetch] response: its status and what reading its body with
    [text()] yields (the text, or a rejection). *)
Record Response : Type := mkResponse {
  status : Z;
  text : thrown + string
}.

(** [res.ok] *)
Definition ok (res : Response) : bool := (200 <=? status res) && (status res <=? 299).

(** The [RequestInit] members a caller of [sfFetch] can pass through. *)
Record RequestInit : Type := mkInit {
  method : option string;
  body : option string
}.

(** [SfRequestOptions]: the pass-through members, the extra headers and
    the wrapper-only [noRetry] flag (absent counts as [false]). *)
Record SfRequestOptions : Type := mkOptions {
  init : RequestInit;
  headers : option (gmap string string);
  noRetry : bool
}.

(** The two shapes of [fetch] call the module makes: the form-encoded
    POST to the token endpoint (line 58) and the API call of [sfFetch]
    (lines 129 and 148). *)
Inductive request : Type :=
| TokenPost (url : string) (form : list (string * string))
| ApiFetch (url : string) (init : RequestInit) (headers : gmap string string).

(** Promises are named by their position in the machine's promise table. *)
Abbreviation pid := nat.

(** *** Async functions as programs

    One constructor per thing the module's code does that is not pure
    computation: reads and writes of the two module variables, the clock,
    starting the async arrow function of [refreshAccessToken], and the
    four kinds of [await]. *)
Inductive Async (A : Type) : Type :=
| Return (a : A)
| Throw (e : thrown)
| GetTokenCache (k : option TokenCache -> Async A)
| SetTokenCache (c : TokenCache) (k : Async A)
| GetRefreshing (k : option pid -> Async A)
| SetRefreshing (p : option pid) (k : Async A)
| DateNow (k : Z -> Async A)
| AsyncArrow (body : Async TokenCache) (k : pid -> Async A)
| AwaitPromise (p : pid) (k : thrown + TokenCache -> Async A)
| AwaitFetch (req : request) (k : thrown + Response -> Async A)
| AwaitText (res : Response) (k : thrown + string -> Async A)
| AwaitCall (k : Async A).
Arguments Return {A} a.
Arguments Throw {A} e.
Arguments GetTokenCache {A} k.
Arguments SetTokenCache {A} c k.
Arguments GetRefreshing {A} k.
Arguments SetRefreshing {A} p k.
Arguments DateNow {A} k.
Arguments AsyncArrow {A} body k.
Arguments AwaitPromise {A} p k.
Arguments AwaitFetch {A} req k.
Arguments AwaitText {A} res k.
Arguments AwaitCall {A} k.

Fixpoint bind {A B : Type} (m : Async A) (f : A -> Async B) : Async B :=
  match m with
  | Return a => f a
  | Throw e => Throw e
  | GetTokenCache k => GetTokenCache (fun c => bind (k c) f)
  | SetTokenCache c k => SetTokenCache c (bind k f)
  | GetRefreshing k => GetRefreshing (fun r => bind (k r) f)
  | SetRefreshing p k => SetRefreshing p (bind k f)
  | DateNow k => DateNow (fun t => bind (k t) f)
  | AsyncArrow body k => AsyncArrow body (fun p => bind (k p) f)
  | AwaitPromise p k => AwaitPromise p (fun r => bind (k r) f)
  | AwaitFetch req k => AwaitFetch req (fun r => bind (k r) f)
  | AwaitText res k => AwaitText res (fun r => bind (k r) f)
  | AwaitCall k => AwaitCall (bind k f)
  end.

(** The settled outcome of a computation, as a value. *)
Fixpoint settle {A : Type} (m : Async A) : Async (thrown + A) :=
  match m with
  | Return a => Return (inr a)
  | Throw e => Return (inl e)
  | GetTokenCache k => GetTokenCache (fun c => settle (k c))
  | SetTokenCache c k => SetTokenCache c (settle k)
  | GetRefreshing k => GetRefreshing (fun r => settle (k r))
  | SetRefreshing p k => SetRefreshing p (settle k)
  | DateNow k => DateNow (fun t => settle (k t))
  | AsyncArrow body k => AsyncArrow body (fun p => settle (k p))
  | AwaitPromise p k => AwaitPromise p (fun r => settle (k r))
  | AwaitFetch req k => AwaitFetch req (fun r => settle (k r))
  | AwaitText res k => AwaitText res (fun r => settle (k r))
  | AwaitCall k => AwaitCall (settle k)
  end.

Definition unsettle {A : Type} (r : thrown + A) : Async A :=
  match r with inl e => Throw e | inr a => Return a end.

Notation "'let*' x ':=' m 'in' k" := (bind m (fun x => k))
  (at level 10, x name, m at level 100, k at level 200).

(** [try { body } finally { fin }] *)
Definition try_finally {A : Type} (body : Async A) (fin : Async unit) : Async A :=
  let* r := settle body in
  let* _ := fin in
  unsettle r.

(** [promise.catch(handler)] *)
Definition catch {A : Type} (body : Async A) (handler : thrown -> Async A) : Async A :=
  let* r := settle body in
  match r with inl e => handler e | inr a => Return a end.

(** [await p] for a promise of the table. *)
Definition await_promise (p : pid) : Async TokenCache := AwaitPromise p unsettle.

(** [await fetch(...)] and [await res.text()]. *)
Definition await_fetch (req : request) : Async Response := AwaitFetch req unsettle.
Definition await_text (res : Response) : Async string := AwaitText res unsettle.

(** [await f(...)] and [return f(...)] for an async function [f] of the
    module: the callee runs in place up to its own settlement, and the
    caller goes on one turn of the job queue later. *)
Definition await_call {A : Type} (callee : Async A) : Async A :=
  let* r := settle callee in
  AwaitCall (unsettle r).

(** *** The machine

    A suspended computation waits for a promise of the table, for the
    network, for a body to be read, or for its turn.  [Fresh] is a call
    that has not been made yet. *)
Inductive suspended (A : Type) : Type :=
| Fresh (prog : Async A)
| Settled (r : thrown + A)
| OnPromise (p : pid) (k : thrown + TokenCache -> Async A)
| OnFetch (req : request) (k : thrown + Response -> Async A)
| OnText (res : Response) (k : thrown + string -> Async A)
| OnCall (k : Async A).
Arguments Fresh {A} prog.
Arguments Settled {A} r.
Arguments OnPromise {A} p k.
Arguments OnFetch {A} req k.
Arguments OnText {A} res k.
Arguments OnCall {A} k.

(** The module state ([tokenCache], [refreshing]), the clock, the promise
    table (one entry per started async arrow function) and the requests
    put on the wire so far. *)
Record Heap : Type := mkHeap {
  tokenCache : option TokenCache;
  refreshing : option pid;
  now : Z;
  promises : list (suspended TokenCache);
  wire : list request
}.

Definition with_tokenCache (c : option TokenCache) (h : Heap) : Heap :=
  mkHeap c (refreshing h) (now h) (promises h) (wire h).
Definition with_refreshing (r : option pid) (h : Heap) : Heap :=
  mkHeap (tokenCache h) r (now h) (promises h) (wire h).
Definition with_now (t : Z) (h : Heap) : Heap :=
  mkHeap (tokenCache h) (refreshing h) t (promises h) (wire h).
Definition with_promises (ps : list (suspended TokenCache)) (h : Heap) : Heap :=
  mkHeap (tokenCache h) (refreshing h) (now h) ps (wire h).
Definition with_wire (w : list request) (h : Heap) : Heap :=
  mkHeap (tokenCache h) (refreshing h) (now h) (promises h) w.

(** Run a computation until it settles or reaches an [await].  An async
    arrow function runs up to its own first [await] inside the segment
    that calls it, and its promise enters the table. *)
Fixpoint sync {A : Type} (m : Async A) (h : Heap) : suspended A * Heap :=
  match m with
  | Return a => (Settled (inr a), h)
  | Throw e => (Settled (inl e), h)
  | GetTokenCache k => sync (k (tokenCache h)) h
  | SetTokenCache c k => sync k (with_tokenCache (Some c) h)
  | GetRefreshing k => sync (k (refreshing h)) h
  | SetRefreshing p k => sync k (with_refreshing p h)
  | DateNow k => sync (k (now h)) h
  | AsyncArrow body k =>
      let p := length (promises h) in
      let '(sb, h1) := sync body (with_promises (promises h ++ [Fresh body]) h) in
      sync (k p) (with_promises (<[p := sb]> (promises h1)) h1)
  | AwaitPromise p k => (OnPromise p k, h)
  | AwaitFetch req k => (OnFetch req k, with_wire (wire h ++ [req]) h)
  | AwaitText res k => (OnText res k, h)
  | AwaitCall k => (OnCall k, h)
  end.

Record Machine (A : Type) : Type := mkMachine {
  heap : Heap;
  callers : list (suspended A)
}.
Arguments mkMachine {A} heap callers.
Arguments heap {A} m.
Arguments callers {A} m.

Inductive actor : Type :=
| Caller (i : nat)
| Arrow (p : pid).

(** What can happen next: time passes, a suspended computation whose
    wait is over takes its turn, or the network answers a [fetch]. *)
Inductive label : Type :=
| Elapse (dt : N)
| Wake (a : actor)
| Deliver (a : actor) (r : thrown + Response).

(** The computation a suspended actor runs when woken, if its wait is over. *)
Definition wake_prog {A : Type} (h : Heap) (s : suspended A) : option (Async A) :=
  match s with
  | Fresh prog => Some prog
  | OnCall k => Some k
  | OnText res k => Some (k (text res))
  | OnPromise p k =>
      match promises h !! p with
      | Some (Settled r) => Some (k r)
      | _ => None
      end
  | Settled _ | OnFetch _ _ => None
  end.

Definition deliver_prog {A : Type} (s : suspended A) (r : thrown + Response) : option (Async A) :=
  match s with
  | OnFetch _ k => Some (k r)
  | _ => None
  end.

Definition run_caller {A : Type} (i : nat) (prog : Async A) (m : Machine A) : Machine A :=
  let '(s, h) := sync prog (heap m) in
  mkMachine h (<[i := s]> (callers m)).

Definition run_arrow {A : Type} (p : pid) (prog : Async TokenCache) (m : Machine A) : Machine A :=
  let '(s, h) := sync prog (heap m) in
  mkMachine (with_promises (<[p := s]> (promises h)) h) (callers m).

Definition elapse {A : Type} (dt : N) (m : Machine A) : Machine A :=
  mkMachine (with_now (now (heap m) + Z.of_N dt) (heap m)) (callers m).

Definition step {A : Type} (l : label) (m : Machine A) : option (Machine A) :=
  match l with
  | Elapse dt => Some (elapse dt m)
  | Wake (Caller i) =>
      s ← callers m !! i; prog ← wake_prog (heap m) s; Some (run_caller i prog m)
  | Wake (Arrow p) =>
      s ← promises (heap m) !! p; prog ← wake_prog (heap m) s; Some (run_arrow p prog m)
  | Deliver (Caller i) r =>
      s ← callers m !! i; prog ← deliver_prog s r; Some (run_caller i prog m)
  | Deliver (Arrow p) r =>
      s ← promises (heap m) !! p; prog ← deliver_prog s r; Some (run_arrow p prog m)
  end.

Fixpoint exec {A : Type} (ls : list label) (m : Machine A) : option (Machine A) :=
  match ls with
  | [] => Some m
  | l :: rest => m' ← step l m; exec rest m'
  end.

(** *** Running one call on its own

    The surroundings of a call that runs alone: the answer to the n-th
    POST to the token endpoint, the answer to the n-th API call, and the
    time that passes before the n-th turn. *)
Record World : Type := mkWorld {
  token_reply : nat -> thrown + Response;
  api_reply : nat -> thrown + Response;
  delay : nat -> N
}.

Definition is_token_post (req : request) : bool :=
  match req with TokenPost _ _ => true | ApiFetch _ _ _ => false end.

Definition token_posts (w : list request) : list request := List.filter is_token_post w.
Definition api_calls (w : list request) : list request :=
  List.filter (fun r => negb (is_token_post r)) w.

(** With one call running, the request being waited for is the last of
    its kind on the wire. *)
Definition reply_for (world : World) (h : Heap) (req : request) : thrown + Response :=
  match req with
  | TokenPost _ _ => token_reply world (length (token_posts (wire h)) - 1)
  | ApiFetch _ _ _ => api_reply world (length (api_calls (wire h)) - 1)
  end.

Definition next_prog {A : Type} (world : World) (h : Heap) (s : suspended A) : option (Async A) :=
  match s with
  | OnFetch req k => Some (k (reply_for world h req))
  | _ => wake_prog h s
  end.

Fixpoint first_ready {A : Type} (world : World) (h : Heap) (i : nat) (ss : list (suspended A))
  : option (nat * Async A) :=
  match ss with
  | [] => None
  | s :: rest =>
      match next_prog world h s with
      | Some prog => Some (i, prog)
      | None => first_ready world h (S i) rest
      end
  end.

(** Turn [n]: [delay world n] passes, then the one computation whose wait
    is over runs (an arrow function before a caller).  [None] when
    nothing is left to run. *)
Definition turn {A : Type} (world : World) (n : nat) (m : Machine A) : option (Machine A) :=
  let m1 := elapse (delay world n) m in
  match first_ready world (heap m1) 0 (promises (heap m1)) with
  | Some (p, prog) => Some (run_arrow p prog m1)
  | None =>
      match first_ready world (heap m1) 0 (callers m1) with
      | Some (i, prog) => Some (run_caller i prog m1)
      | None => None
      end
  end.

(** [drive world fuel n m]: up to [fuel] turns starting with turn [n]. *)
Fixpoint drive {A : Type} (world : World) (fuel n : nat) (m : Machine A) : Machine A :=
  match fuel with
  | O => m
  | S fuel' =>
      match turn world n m with
      | Some m' => drive world fuel' (S n) m'
      | None => m
      end
  end.

(** The time that passes during the first [n] turns. *)
Fixpoint elapsed (world : World) (n : nat) : Z :=
  match n with
  | O => 0
  | S n' => elapsed world n' + Z.of_N (delay world n')
  end.

(** One call, not yet made, on top of a given heap. *)
Definition alone {A : Type} (h : Heap) (prog : Async A) : Machine A := mkMachine h [Fresh prog].

(** The result of the call run alone, once it has settled. *)
Definition result {A : Type} (m : Machine A) : option (thrown + A) :=
  match callers m !! 0%nat with
  | Some (Settled r) => Some r
  | _ => None
  end.

(** No refresh in flight and nothing on the wire. *)
Definition idle (h : Heap) : Prop :=
  refreshing h = None /\ promises h = [] /\ wire h = [].

Definition is_settled {A : Type} (s : suspended A) : Prop := exists r, s = Settled r.

Definition is_fresh {A : Type} (s : suspended A) : bool :=
  match s with Fresh _ => true | _ => false end.

(** Whether a computation has settled, as a test. *)
Definition settledb {A : Type} (s : suspended A) : bool :=
  match s with Settled _ => true | _ => false end.

(** How far a suspended computation is from being settled. *)
Definition weight {A : Type} (s : suspended A) : nat :=
  match s with
  | Fresh _ => 6
  | OnPromise _ _ | OnFetch _ _ => 2
  | OnText _ _ | OnCall _ => 1
  | Settled _ => 0
  end.

(** The turns a list of computations can still take, counted generously. *)
Fixpoint total {A : Type} (ss : list (suspended A)) : nat :=
  match ss with
  | [] => 0
  | s :: ss => weight s + total ss
  end.

(** A bound on the turns left before every caller of a machine has settled. *)
Definition remaining (m : Machine TokenCache) : nat :=
  (total (callers m) + total (promises (heap m)))%nat.

(** A suspended computation with [F] wrapped around what it will run. *)
Definition extend {A B : Type} (F : Async A -> Async B) (s : suspended A) : suspended B :=
  match s with
  | Fresh p => Fresh (F p)
  | Settled r => OnCall (F (unsettle r))
  | OnPromise p k => OnPromise p (fun r => F (k r))
  | OnFetch req k => OnFetch req (fun r => F (k r))
  | OnText res k => OnText res (fun r => F (k r))
  | OnCall k => OnCall (F k)
  end.

(** The heap once the delay of turn [n] has passed. *)
Definition tick (world : World) (n : nat) (h : Heap) : Heap :=
  with_now (now h + Z.of_N (delay world n)) h.

(** The machine whose one caller has just run [P] on heap [h]. *)
Definition running {A : Type} (h : Heap) (P : Async A) : Machine A :=
  let '(s, h') := sync P h in mkMachine h' [s].

(** *** Concurrent callers

    The callers of a run are concurrent when every one of them makes its
    call before any of them is resumed: a caller that has already made its
    call takes a further turn only once no caller is left that has not. *)
Definition admissible {A : Type} (m : Machine A) (l : label) : bool :=
  match l with
  | Wake (Caller i) =>
      match callers m !! i with
      | Some (Fresh _) => true
      | _ => forallb (fun s => negb (is_fresh s)) (callers m)
      end
  | _ => true
  end.

Fixpoint concurrent {A : Type} (ls : list label) (m : Machine A) : bool :=
  match ls with
  | [] => true
  | l :: rest =>
      admissible m l &&
      match step l m with
      | Some m' => concurrent rest m'
      | None => true
      end
  end.

(** *** The functions of salesforce.ts *)

(** [String.prototype.includes] *)
Fixpoint includes (hay needle : string) : bool :=
  String.prefix needle hay ||
  match hay with
  | EmptyString => false
  | String _ rest => includes rest needle
  end.

(** [function isAuthFailure(status, bodyText?)] *)
Definition isAuthFailure (status : Z) (bodyText : option string) : bool :=
  if status =? 401 then true
  else if (status =? 403) &&
          match bodyText with
          | Some t => includes t "INVALID_SESSION_ID"
          | None => false
          end
       then true
       else false.

(** [!v] for a string that may be absent: [undefined] and the empty
    string are falsy. *)
Definition falsy (v : option string) : bool :=
  match v with None => true | Some s => is_empty s end.

Definition or_empty (v : option string) : string :=
  match v with Some s => s | None => EmptyString end.

Section Module.
Variable cfg : Config.
(** [JSON.parse(text) as SalesforceTokenResponse]: the parsed document,
    or the error thrown for a text that is not a JSON document with
    readable fields. *)
Variable JSON_parse : string -> thrown + SalesforceTokenResponse.

(** [function nowMs()] *)
Definition nowMs : Async Z := DateNow Return.

(** [function isValid(cache)]: [!!cache && cache.expiresAt > nowMs()] *)
Definition isValid (cache : option TokenCache) : Async bool :=
  match cache with
  | None => Return false
  | Some c => let* t := nowMs in Return (expiresAt c >? t)
  end.

(** [function computeExpiresAtConservative(ttlSeconds = 10 * 60)], on
    integers: the clock is a whole number of milliseconds and the skew a
    whole number of seconds.  The code computes on doubles, where the
    result is the same as long as the integers involved are safe
    ([Binary64.computeExpiresAtConservative64]). *)
Definition computeExpiresAtConservative (ttlSeconds : Z) : Async Z :=
  let* t := nowMs in Return (t + (ttlSeconds - SKEW_SECONDS cfg) * 1000).

Definition assumedTtlSeconds : Z := 10 * 60.

Definition token_url : string := SF_LOGIN_URL cfg +:+ "/services/oauth2/token".

Definition token_form : list (string * string) :=
  [("grant_type", "refresh_token");
   ("client_id", SF_CLIENT_ID cfg);
   ("client_secret", SF_CLIENT_SECRET cfg);
   ("refresh_token", SF_REFRESH_TOKEN cfg)].

(** Lines 65-82 of the arrow function: what it does with the response
    and its text. *)
Definition accept_token_response (res : Response) (text : string) : Async TokenCache :=
  if negb (ok res)
  then Throw (ErrorObj ("Salesforce token refresh failed (" +:+ decimal (status res)
                        +:+ "): " +:+ text))
  else
    let* data := unsettle (JSON_parse text) in
    if falsy (access_token data) || falsy (instance_url data)
    then Throw (ErrorObj ("Salesforce token response missing fields: " +:+ text))
    else
      let* expires := computeExpiresAtConservative assumedTtlSeconds in
      let next := mkTokenCache (or_empty (access_token data))
                               (or_empty (instance_url data)) expires in
      SetTokenCache next (Return next).

(** The async arrow function of [refreshAccessToken] (lines 48-83). *)
Definition refresh_arrow : Async TokenCache :=
  let* res := await_fetch (TokenPost token_url token_form) in
  let* text := await_text res in
  accept_token_response res text.

(** [async function refreshAccessToken()] *)
Definition refreshAccessToken : Async TokenCache :=
  GetRefreshing (fun r =>
    match r with
    | Some p => await_promise p
    | None =>
        AsyncArrow refresh_arrow (fun p =>
          SetRefreshing (Some p)
            (try_finally (await_promise p) (SetRefreshing None (Return tt))))
    end).

(** [async function getAccessToken()] *)
Definition getAccessToken : Async TokenCache :=
  GetTokenCache (fun cache =>
    let* valid := isValid cache in
    match valid, cache with
    | true, Some c => Return c
    | _, _ => await_call refreshAccessToken
    end).

(** [sfRestPath(relative)] *)
Definition sfRestPath (relative : string) : string :=
  "/services/data/v" +:+ SF_API_VERSION cfg
  +:+ (if String.prefix "/" relative then EmptyString else "/") +:+ relative.

(** The url both attempts of [sfFetch] build from a credential. *)
Definition url_for (cache : TokenCache) (path : string) : string :=
  if String.prefix "http" path then path
  else instanceUrl cache +:+ (if String.prefix "/" path then EmptyString else "/") +:+ path.

Definition first_headers (cache : TokenCache) (extraHeaders : option (gmap string string))
  : gmap string string :=
  default ∅ extraHeaders ∪
  <["Authorization" := "Bearer " +:+ accessToken cache]>
    (<["Content-Type" := "application/json"]> ∅).

(** [async function sfFetch(path, options = {})] *)
Definition sfFetch (path : string) (options : SfRequestOptions) : Async Response :=
  let* cache := await_call getAccessToken in
  let url := url_for cache path in
  let headers1 := first_headers cache (headers options) in
  let* res := await_fetch (ApiFetch url (init options) headers1) in
  if negb (noRetry options) && ((status res =? 401) || (status res =? 403))
  then
    let* bodyText := catch (await_text res) (fun _ => Return EmptyString) in
    if isAuthFailure (status res) (Some bodyText)
    then
      let* _ := await_call refreshAccessToken in
      let* cache2 := await_call getAccessToken in
      let url2 := url_for cache2 path in
      let headers2 := <["Authorization" := "Bearer " +:+ accessToken cache2]> headers1 in
      let* res2 := await_fetch (ApiFetch url2 (init options) headers2) in
      Return res2
    else Return res
  else Return res.

(** *** Vocabulary of the properties *)

(** The continuations the functions above leave behind at their [await]s:
    of the arrow function after [fetch] and after [text()], of
    [refreshAccessToken] after [await refreshing] (the [finally] block),
    and of [getAccessToken] for the caller that started the refresh and
    for a caller that joined it. *)
Definition k_fetch : thrown + Response -> Async TokenCache :=
  fun r => let* res := unsettle r in
           let* text := await_text res in
           accept_token_response res text.

Definition k_text (res : Response) : thrown + string -> Async TokenCache :=
  fun r => let* text := unsettle r in accept_token_response res text.

Definition k_finally : thrown + TokenCache -> Async TokenCache :=
  fun r => try_finally (unsettle r) (SetRefreshing None (Return tt)).

Definition k_init : thrown + TokenCache -> Async TokenCache :=
  fun r => await_call (k_finally r).

Definition k_join : thrown + TokenCache -> Async TokenCache :=
  fun r => await_call (unsettle r).

(** [isValid] as a function of the cache and the clock. *)
Definition valid_at (cache : option TokenCache) (t : Z) : bool :=
  match cache with
  | Some c => expiresAt c >? t
  | None => false
  end.

(** The token and instance url of an issuer answer that the arrow
    function accepts: status ok, readable body, a JSON document with both
    fields non-empty. *)
Definition granted (reply : thrown + Response) : option (string * string) :=
  match reply with
  | inl _ => None
  | inr res =>
      match text res with
      | inl _ => None
      | inr txt =>
          if ok res then
            match JSON_parse txt with
            | inl _ => None
            | inr data =>
                match access_token data, instance_url data with
                | Some tok, Some url =>
                    if is_empty tok || is_empty url then None else Some (tok, url)
                | _, _ => None
                end
            end
          else None
      end
  end.

(** A refresh fails when the issuer cannot be reached or its body cannot
    be read, when the status is not ok, when the body is malformed, or
    when [access_token] or [instance_url] is missing. *)
Definition refresh_failed (reply : thrown + Response) : bool :=
  match reply with
  | inl _ => true
  | inr res =>
      match text res with
      | inl _ => true
      | inr txt =>
          negb (ok res) ||
          match JSON_parse txt with
          | inl _ => true
          | inr data => falsy (access_token data) || falsy (instance_url data)
          end
      end
  end.

(** The outcome of [accept_token_response] at clock [t]. *)
Definition accept_outcome (res : Response) (txt : string) (t : Z) : thrown + TokenCache :=
  if negb (ok res)
  then inl (ErrorObj ("Salesforce token refresh failed (" +:+ decimal (status res)
                      +:+ "): " +:+ txt))
  else
    match JSON_parse txt with
    | inl e => inl e
    | inr data =>
        if falsy (access_token data) || falsy (instance_url data)
        then inl (ErrorObj ("Salesforce token response missing fields: " +:+ txt))
        else inr (mkTokenCache (or_empty (access_token data)) (or_empty (instance_url data))
                               (t + (assumedTtlSeconds - SKEW_SECONDS cfg) * 1000))
    end.

(** The outcome of the whole arrow function for an issuer answer, when
    the body has been read at clock [t]. *)
Definition refresh_result (reply : thrown + Response) (t : Z) : thrown + TokenCache :=
  match reply with
  | inl e => inl e
  | inr res =>
      match text res with
      | inl e => inl e
      | inr txt => accept_outcome res txt t
      end
  end.

(** The classification [sfFetch] applies to a response: [isAuthFailure]
    on its status and its body text (empty when the body cannot be read). *)
Definition auth_failure (res : Response) : bool :=
  isAuthFailure (status res)
    (Some (match text res with inr txt => txt | inl _ => EmptyString end)).

(** The credential a call of [sfFetch] running alone starts with: the
    cached one when it is valid at the first turn, else the outcome of the
    refresh it triggers; and what that puts on the wire. *)
Definition first_valid (world : World) (h : Heap) : bool :=
  valid_at (tokenCache h) (now h + Z.of_N (delay world 0)).

Definition first_credential (world : World) (h : Heap) : thrown + TokenCache :=
  match tokenCache h with
  | Some c =>
      if first_valid world h then inr c
      else refresh_result (token_reply world 0) (now h + elapsed world 3)
  | None => refresh_result (token_reply world 0) (now h + elapsed world 3)
  end.

Definition first_wire (world : World) (h : Heap) : list request :=
  if first_valid world h then [] else [TokenPost token_url token_form].

(** The number of turns the [await getAccessToken()] at the start of a
    call of [sfFetch] running alone takes: one when the cached credential
    is valid, five when it has to be refreshed first. *)
Definition first_turns (world : World) (h : Heap) : nat :=
  if first_valid world h then 1%nat else 5%nat.

(** The clocks of a call of [sfFetch] that refreshes after its first
    response.  The forced refresh computes the new credential five turns
    after those of the first [getAccessToken]: the start of the call, the
    API response, its body, the issuer's response and its body.
    [forced_credential] is what a granting issuer makes it store then.
    Two turns later (the [finally] of [refreshAccessToken] and its return
    to [sfFetch]) the second [await getAccessToken()] tests the cache with
    [isValid]: that is [read_back_clock]. *)
Definition forced_clock (world : World) (h : Heap) : Z :=
  now h + elapsed world (first_turns world h + 5).

Definition forced_credential (world : World) (h : Heap) (tok url : string) : TokenCache :=
  mkTokenCache tok url
    (forced_clock world h + (assumedTtlSeconds - SKEW_SECONDS cfg) * 1000).

Definition read_back_clock (world : World) (h : Heap) : Z :=
  now h + elapsed world (first_turns world h + 7).

(** *** The states of a single-flight episode

    [c0] is the cache the episode starts with and [t0] the clock then. *)
Section Episode.
Variable c0 : option TokenCache.
Variable t0 : Z.

(** The arrow function of the one refresh, and the cache it has left. *)
Inductive arrow_ok : suspended TokenCache -> option TokenCache -> Prop :=
| arrow_fetching : arrow_ok (OnFetch (TokenPost token_url token_form) k_fetch) c0
| arrow_reading res : arrow_ok (OnText res (k_text res)) c0
| arrow_failed e : arrow_ok (Settled (inl e)) c0
| arrow_granted c : arrow_ok (Settled (inr c)) (Some c).

(** A caller of [getAccessToken] while that refresh, whose promise is in
    state [s0], is the only one. *)
Inductive caller_ok (s0 : suspended TokenCache) : suspended TokenCache -> Prop :=
| caller_fresh : caller_ok s0 (Fresh getAccessToken)
| caller_init : caller_ok s0 (OnPromise 0 k_init)
| caller_join : caller_ok s0 (OnPromise 0 k_join)
| caller_back r : s0 = Settled r -> caller_ok s0 (OnCall (unsettle r))
| caller_done r : s0 = Settled r -> caller_ok s0 (Settled r).

Definition some_fresh (cs : list (suspended TokenCache)) : Prop :=
  exists j p, cs !! j = Some (Fresh p).

(** Either nobody has called yet, or one refresh exists and every caller
    is on its way through it; the in-flight marker stays set for as long
    as a caller has not made its call. *)
Inductive episode (N : nat) : Machine TokenCache -> Prop :=
| episode_idle t :
    t0 <= t ->
    episode N (mkMachine (mkHeap c0 None t [] []) (replicate N (Fresh getAccessToken)))
| episode_flight c r t s0 cs :
    length cs = N ->
    t0 <= t ->
    arrow_ok s0 c ->
    Forall (caller_ok s0) cs ->
    (some_fresh cs -> r = Some 0%nat) ->
    episode N (mkMachine (mkHeap c r t [s0] [TokenPost token_url token_form]) cs).

End Episode.

End Module.

(** Sample surroundings used to exercise the statements. *)
Definition cfg_default : Config :=
  mkConfig "client" "secret" "refresh" "https://login.salesforce.com" "60.0" 60.

Definition cfg_zero_skew : Config :=
  mkConfig "client" "secret" "refresh" "https://login.salesforce.com" "60.0" 0.

Definition parse_sample (txt : string) : thrown + SalesforceTokenResponse :=
  if String.eqb txt "grant-1" then inr (mkTokenResponse (Some "tok-1") (Some "https://one.example"))
  else if String.eqb txt "grant-2" then inr (mkTokenResponse (Some "tok-2") (Some "https://two.example"))
  else if String.eqb txt "partial" then inr (mkTokenResponse (Some "tok-3") None)
  else inl (ErrorObj "SyntaxError: Unexpected token").

Definition grant (n : nat) : thrown + Response :=
  inr (mkResponse 200 (inr (if Nat.eqb n 0 then "grant-1" else "grant-2")%string)).

Definition heap_empty : Heap := mkHeap None None 1000 [] [].

Definition heap_cached : Heap :=
  mkHeap (Some (mkTokenCache "tok-0" "https://zero.example" 900000)) None 1000 [] [].

Definition options_get : SfRequestOptions := mkOptions (mkInit (Some "GET"%string) None) None false.
Definition options_noRetry : SfRequestOptions := mkOptions (mkInit (Some "GET"%string) None) None true.

(** A caller that gives headers of its own, [Authorization] among them. *)
Definition options_own_headers : SfRequestOptions :=
  mkOptions (mkInit (Some "GET"%string) None)
    (Some (<["Authorization" := "Basic abc"%string]> (<["X-Trace" := "1"%string]> ∅)))
    false.

(** The issuer grants; the API answers 401 once, then 200. *)
Definition world_401_then_200 : World :=
  mkWorld grant
    (fun n => inr (mkResponse (if Nat.eqb n 0 then 401 else 200) (inr "body"%string)))
    (fun _ => 5%N).

(** The issuer grants; the API always answers 401. *)
Definition world_401 : World :=
  mkWorld grant (fun _ => inr (mkResponse 401 (inr "expired"%string))) (fun _ => 5%N).


(** The issuer grants; the API answers 500. *)
Definition world_500 : World :=
  mkWorld grant (fun _ => inr (mkResponse 500 (inr "oops"%string))) (fun _ => 5%N).

(** The issuer answers 400. *)
Definition world_issuer_down : World :=
  mkWorld (fun _ => inr (mkResponse 400 (inr "invalid_grant"%string)))
    (fun _ => inr (mkResponse 200 (inr "body"%string))) (fun _ => 5%N).

(** Three callers make their call, the issuer grants, and the callers
    are resumed in another order. *)
Definition run_three : list label :=
  [Wake (Caller 0); Wake (Caller 1); Elapse 5; Deliver (Arrow 0) (grant 0);
   Wake (Caller 2); Wake (Arrow 0); Elapse 7;
   Wake (Caller 1); Wake (Caller 0); Wake (Caller 2);
   Wake (Caller 0); Wake (Caller 2); Wake (Caller 1)].

(** The issuer grants at once: no time passes. *)
Definition world_instant : World :=
  mkWorld grant (fun _ => inr (mkResponse 200 (inr "body"%string))) (fun _ => 0%N).

(** The credentials of the samples. *)
Definition cache_zero : TokenCache := mkTokenCache "tok-0" "https://zero.example" 900000.
Definition cache_one (expires : Z) : TokenCache :=
  mkTokenCache "tok-1" "https://one.example" expires.

Definition response_401 : Response := mkResponse 401 (inr "body"%string).
Definition response_500 : Response := mkResponse 500 (inr "oops"%string).

(** Where [run_three] leaves three callers that started from [heap_empty]. *)
Definition three_settled : Machine TokenCache :=
  mkMachine
    (mkHeap (Some (cache_one 541005)) None 1012 [Settled (inr (cache_one 541005))]
            [TokenPost (token_url cfg_default) (token_form cfg_default)])
    (replicate 3 (Settled (inr (cache_one 541005)))).

End Salesforce.

(* ================================================================== *)
(** ** Numbers: binary64 *)
(* ================================================================== *)

(** JavaScript numbers are IEEE 754 binary64 values.  [Salesforce] keeps
    the clock, the expiry and the skew as integers; this module has the
    doubles themselves, as the standard library specifies them (a sign, a
    mantissa and an exponent, operations rounded to nearest even), so that
    the arithmetic of [computeExpiresAtConservative] can be evaluated the
    way the engine evaluates it and compared with the integer model. *)
Module Binary64.

Definition prec : Z := 53.
Definition emax : Z := 1024.

(** An integer as a number. *)
Definition of_Z (n : Z) : spec_float := binary_normalize prec emax n 0 false.

(** [+], [-], [*] and [<] on numbers. *)
Definition add : spec_float -> spec_float -> spec_float := SFadd prec emax.
Definition sub : spec_float -> spec_float -> spec_float := SFsub prec emax.
Definition mul : spec_float -> spec_float -> spec_float := SFmul prec emax.
Definition ltb : spec_float -> spec_float -> bool := SFltb.

(** The integers every one of which is a number of its own: magnitude
    below 2^53 ([Number.isSafeInteger]). *)
Definition safe_integer (n : Z) : Prop := Z.abs n < 2 ^ 53.

(** [n] shifted left by [k] binary places. *)
Definition shifted (n : positive) (k : Z) : positive :=
  match k with
  | Z.pos p => Pos.iter xO n p
  | _ => n
  end.

(** The double of sign [s] and magnitude [n], for [n] of at most 53
    binary digits: the mantissa is [n] shifted to 53 digits. *)
Definition normal (s : bool) (n : positive) : spec_float :=
  let d := Z.pos (digits2_pos n) in
  S754_finite s (shifted n (prec - d)) (d - prec).

Definition signed (s : bool) (n : positive) : Z := cond_Zopp s (Z.pos n).

(** [return nowMs() + (ttlSeconds - SKEW_SECONDS) * 1000;] of
    [computeExpiresAtConservative], on numbers: [clock] is what
    [Date.now()] returns, [ttlSeconds] the argument (by default [10 * 60])
    and [skew] the module constant
    [Number(process.env.SF_TOKEN_SKEW_SECONDS || "60")], any double. *)
Definition computeExpiresAtConservative64 (clock ttlSeconds skew : spec_float) : spec_float :=
  add clock (mul (sub ttlSeconds skew) (of_Z 1000)).

(** The largest time value of a [Date]: 8.64e15 milliseconds. *)
Definition max_time_value : Z := 8640000000000000.

(** *** Samples *)

(** [Number("1e-7")]: the double nearest to 1e-7,
    7555786372591432 * 2^-76. *)
Definition skew_tiny : spec_float := S754_finite false 7555786372591432 (-76).

(** Midnight UTC of 2 November 2026, in milliseconds. *)
Definition clock_2026 : Z := 1793577600000.

End Binary64.

(* ================================================================== *)
(** ** worker.ts: cases of the processor *)
(* ================================================================== *)

Module WorkerCases.
Import JS Worker.

(** [v == null]: the two values whose properties cannot be read. *)
Definition nullish (v : json) : bool :=
  match v with JUndefined | JNull => true | _ => false end.

(** The outcome [{ ok: true, processedAt }] of an execution that ends after
    [n] awaited calls. *)
Definition ok_result (env : Env) (n : nat) : thrown + json :=
  inr (JObj [("ok", JBool true); ("processedAt", JStr (toISOString env (clock env n)))]).

(** The audit write of an execution of [job] with the given status and
    payload, and how the storage settled it. *)
Definition audit_event (env : Env) (job : Job) (status : string) (payload : json)
    (r : thrown + json) : event :=
  (audit_insert job status (correlationId_of job (clock env 0)) payload, r).

(** The text shown for the acknowledged click. *)
Definition click_text : string := "✅ *Barry received your click (via worker)*".

(** [!process.env.SLACK_BOT_TOKEN] *)
Definition token_missing (env : Env) : bool :=
  match SLACK_BOT_TOKEN env with Some v => is_empty v | None => true end.

(** [cmd === "/create-case" || cmd === "/raise-case"] for the command of
    a slash-command payload. *)
Definition opens_case (cmdPayload : json) : bool :=
  let cmd := js_or (opt_get cmdPayload "command") (JStr EmptyString) in
  is_str cmd "/create-case" || is_str cmd "/raise-case".

(** Sample environments and jobs used to exercise the statements. *)
Definition env_no_token : Env :=
  mkEnv None (fun _ => inr JNull) (fun n => 1000 + Z.of_nat n) decimal.

Definition storage_error : thrown := ErrorObj "connection terminated".

(** Every awaited call resolves but the second one, which the storage
    rejects. *)
Definition env_second_rejected : Env :=
  mkEnv (Some "xoxb-1")
        (fun n => match n with 1%nat => inl storage_error | _ => inr JNull end)
        (fun n => 1000 + Z.of_nat n) decimal.

(** Salesforce answers [{ success: false, error: "DUPLICATE" }]. *)
Definition env_contact_refused : Env :=
  mkEnv (Some "xoxb-1")
        (fun n => match n with
                  | 1%nat => inr (JObj [("success", JBool false); ("error", JStr "DUPLICATE")])
                  | _ => inr JNull
                  end)
        (fun n => 1000 + Z.of_nat n) decimal.

Definition job_verify_silent : Job :=
  mkJob "11" "verify-user" 0 (JObj [("team_id", JStr "T1"); ("user_id", JStr "U1")]).

Definition job_contact : Job :=
  mkJob "12" "create-contact" 0
    (JObj [("team_id", JStr "T1"); ("user_id", JStr "U1"); ("email", JStr "a@b.c");
           ("response_url", JStr "https://hooks.example/r")]).

Definition job_ack : Job :=
  mkJob "13" "slack-interaction" 0
    (JObj [("payload", JObj [("channel", JObj [("id", JStr "C1")]);
                             ("message", JObj [("ts", JStr "171.5")])])]).

Definition job_command (cmd : string) : Job :=
  mkJob "14" "slack-command" 0
    (JObj [("payload", JObj [("command", JStr cmd); ("team_id", JStr "T1")])]).

Definition job_null (n : string) : Job := mkJob "15" n 0 JNull.

End WorkerCases.

(* ================================================================== *)
(** ** salesforce.ts: [sfJson] and failing refreshes *)
(* ================================================================== *)

Module SalesforceApi.
Import JS Salesforce.

(** [needle] occurs in [hay]. *)
Definition occurs_in (needle hay : string) : Prop :=
  exists pre post, hay = pre +:+ needle +:+ post.

(** Run a machine until its caller has settled: the number of the next
    turn, the heap at that point and the caller's outcome.  [None] when the
    fuel runs out, or nothing is left to run, before that. *)
Fixpoint await_result {A : Type} (world : World) (fuel n : nat) (m : Machine A)
  : option (nat * Heap * (thrown + A)) :=
  match result m with
  | Some r => Some (n, heap m, r)
  | None =>
      match fuel with
      | O => None
      | S fuel' =>
          match turn world n m with
          | Some m' => await_result world fuel' (S n) m'
          | None => None
          end
      end
  end.

(** A caller suspended in [await callee()], the callee being in state [s]
    and [K] being what the caller does with the callee's value. *)
Definition behind {A B : Type} (K : A -> Async B) (s : suspended A) : suspended B :=
  match s with
  | Settled r => OnCall (bind (unsettle r) K)
  | _ => extend (fun p => bind (await_call p) K) s
  end.

Section Api.
Variable cfg : Config.
Variable JSON_parse : string -> thrown + SalesforceTokenResponse.
(** [JSON.parse(text) as T] for the documents of the API. *)
Variable JSON_parse_doc : string -> thrown + json.

(** The error of a refresh that fails on the given issuer answer; [None]
    when the answer is accepted. *)
Definition refresh_error (reply : thrown + Response) : option thrown :=
  match refresh_result cfg JSON_parse reply 0 with
  | inl e => Some e
  | inr _ => None
  end.

(** What [sfJson] does with the response of [sfFetch] and its text
    (lines 160-165). *)
Definition read_json (path : string) (res : Response) (text : string) : Async json :=
  if negb (ok res)
  then Throw (ErrorObj ("Salesforce API error (" +:+ decimal (status res) +:+ ") on "
                        +:+ path +:+ ": " +:+ text))
  else if is_empty text then Return (JObj [])
  else unsettle (JSON_parse_doc text).

(** [async function sfJson<T>(path, options = {})] *)
Definition sfJson (path : string) (options : SfRequestOptions) : Async json :=
  let* res := await_call (sfFetch cfg JSON_parse path options) in
  let* text := await_text res in
  read_json path res text.

End Api.

(** Sample surroundings used to exercise the statements. *)
Definition parse_doc_sample (txt : string) : thrown + json :=
  if String.eqb txt "body" then inr (JObj [("id", JStr "1")])
  else inl (ErrorObj "SyntaxError: Unexpected token").

Definition refused : thrown :=
  ErrorObj "Salesforce token refresh failed (400): invalid_grant".

(** The issuer answers 400 and the API answers 401. *)
Definition world_locked_out : World :=
  mkWorld (fun _ => inr (mkResponse 400 (inr "invalid_grant"%string)))
          (fun _ => inr (mkResponse 401 (inr "expired"%string))) (fun _ => 5%N).

End SalesforceApi.

(* ================================================================== *)
(** ** salesforce.ts: how many requests a program can send *)
(* ================================================================== *)

Module SalesforceBounds.
Import JS Salesforce.

(** [api_bound n p]: whatever the surroundings answer, the program [p]
    sends at most [n] API requests, and the async arrow functions it starts
    send none. *)
Fixpoint api_bound {A : Type} (n : nat) (p : Async A) : Prop :=
  match p with
  | Return _ | Throw _ => True
  | GetTokenCache k => forall c, api_bound n (k c)
  | SetTokenCache _ k => api_bound n k
  | GetRefreshing k => forall r, api_bound n (k r)
  | SetRefreshing _ k => api_bound n k
  | DateNow k => forall t, api_bound n (k t)
  | AsyncArrow body k => api_bound 0 body /\ forall p, api_bound n (k p)
  | AwaitPromise _ k => forall r, api_bound n (k r)
  | AwaitFetch req k =>
      match req with
      | TokenPost _ _ => forall r, api_bound n (k r)
      | ApiFetch _ _ _ =>
          match n with
          | O => False
          | S n' => forall r, api_bound n' (k r)
          end
      end
  | AwaitText _ k => forall r, api_bound n (k r)
  | AwaitCall k => api_bound n k
  end.

(** The same for a suspended computation: what it can still send. *)
Definition susp_bound {A : Type} (n : nat) (s : suspended A) : Prop :=
  match s with
  | Fresh p => api_bound n p
  | Settled _ => True
  | OnPromise _ k => forall r, api_bound n (k r)
  | OnFetch _ k => forall r, api_bound n (k r)
  | OnText _ k => forall r, api_bound n (k r)
  | OnCall k => api_bound n k
  end.

(** The API requests [sfFetch] may send: one, and a second one unless
    [noRetry] is set. *)
Definition attempts (options : SfRequestOptions) : nat :=
  if noRetry options then 1%nat else 2%nat.

Definition sum_nat (ns : list nat) : nat := fold_right Nat.add 0%nat ns.

(** A machine whose callers can still send [bs] API requests, one bound
    per caller, and whose arrow functions send none, [B] bounding what is
    on the wire together with what can still come. *)
Definition within {A : Type} (B : nat) (m : Machine A) : Prop :=
  exists bs,
    Forall2 susp_bound bs (callers m) /\
    Forall (susp_bound 0) (promises (heap m)) /\
    (length (api_calls (wire (heap m))) + sum_nat bs <= B)%nat.

(** [calls] made concurrently: one caller of [sfFetch] per request. *)
Definition fetchers (cfg : Config) (parse : string -> thrown + SalesforceTokenResponse)
    (h : Heap) (calls : list (string * SfRequestOptions)) : Machine Response :=
  mkMachine h (List.map (fun c => Fresh (sfFetch cfg parse (fst c) (snd c))) calls).

(** Two calls made together on an empty cache, the second with
    [noRetry]: they share one refresh, both get a 401, the first refreshes
    again and retries, and gets a 401 again. *)
Definition two_calls : list (string * SfRequestOptions) :=
  [("/a"%string, options_get); ("/b"%string, options_noRetry)].

Definition run_two : list label :=
  [Wake (Caller 1); Wake (Caller 0); Elapse 3; Deliver (Arrow 0) (grant 0); Wake (Arrow 0);
   Wake (Caller 0); Wake (Caller 1); Wake (Caller 0); Wake (Caller 1); Wake (Caller 0);
   Wake (Caller 1); Deliver (Caller 1) (inr response_401); Deliver (Caller 0) (inr response_401);
   Wake (Caller 0); Deliver (Arrow 1) (grant 1); Wake (Arrow 1);
   Wake (Caller 0); Wake (Caller 0); Wake (Caller 0); Deliver (Caller 0) (inr response_401)].

Definition after_two : Machine Response :=
  let start := fetchers cfg_default parse_sample heap_empty two_calls in
  match exec run_two start with Some m => m | None => start end.

End SalesforceBounds.

(* ================================================================== *)
(** ** worker.ts: the Slack and Salesforce helpers *)
(* ================================================================== *)

Module Flows.
Import JS.

Abbreviation nullish := WorkerCases.nullish.

(** A [fetch] response as the helpers use it: the status, and what
    [text()] and [json()] yield. *)
Record HttpResponse : Type := mkHttp {
  http_status : Z;
  http_text : thrown + string;
  http_json : thrown + json
}.

(** [res.ok] *)
Definition http_ok (res : HttpResponse) : bool :=
  (200 <=? http_status res) && (http_status res <=? 299).

(** What the helpers do to the outside: [fetch], [pool.query] and
    [salesforce.sfJson]. *)
Inductive action : Type :=
| Fetch (url method : string) (headers : list (string * string)) (body : string)
| Query (sql : string) (params : list json)
| SfJson (path method body : string) (headers : list (string * string)).

(** The outcome of the action made after [n] earlier ones, by kind. *)
Record Outside : Type := mkOutside {
  http : nat -> thrown + HttpResponse;
  db : nat -> thrown + list json;
  sf : nat -> thrown + json
}.

(** Statements thread the list of actions made so far. *)
Definition F (A : Type) : Type := list action -> Worker.completion A * list action.

Definition ret {A} (a : A) : F A := fun t => (Worker.Normal a, t).
Definition throw {A} (e : thrown) : F A := fun t => (Worker.Threw e, t).
Definition return_ {A} (v : json) : F A := fun t => (Worker.Returned v, t).

Definition bind {A B} (m : F A) (k : A -> F B) : F B :=
  fun t =>
    match m t with
    | (Worker.Normal a, t') => k a t'
    | (Worker.Returned v, t') => (Worker.Returned v, t')
    | (Worker.Threw e, t') => (Worker.Threw e, t')
    end.

Notation "'let*' x ':=' m 'in' k" := (bind m (fun x => k))
  (at level 10, x name, m at level 100, k at level 200).
Notation "m ';;;' k" := (bind m (fun _ => k))
  (at level 100, k at level 200, right associativity).

Definition lift {A} (r : thrown + A) : F A :=
  match r with inl e => throw e | inr a => ret a end.

Definition json_headers : list (string * string) :=
  [("Content-Type", "application/json; charset=utf-8")].

(** A [section] block with markdown text. *)
Definition section_block (text : string) : json :=
  JObj [("type", JStr "section");
        ("text", JObj [("type", JStr "mrkdwn"); ("text", JStr text)])].

Section Helpers.
Variable out : Outside.
(** [JSON.stringify] *)
Variable JSON_stringify : json -> string.

Definition await_fetch (url method : string) (headers : list (string * string)) (body : string)
  : F HttpResponse :=
  fun t => (match http out (length t) with
            | inl e => Worker.Threw e
            | inr res => Worker.Normal res
            end, t ++ [Fetch url method headers body]).

Definition await_query (sql : string) (params : list json) : F (list json) :=
  fun t => (match db out (length t) with
            | inl e => Worker.Threw e
            | inr rows => Worker.Normal rows
            end, t ++ [Query sql params]).

Definition await_sfJson (path method body : string) (headers : list (string * string)) : F json :=
  fun t => (match sf out (length t) with
            | inl e => Worker.Threw e
            | inr v => Worker.Normal v
            end, t ++ [SfJson path method body headers]).

(** [async function replyToResponseUrl(responseUrl, body)] *)
Definition replyToResponseUrl (responseUrl : json) (body : json) : F unit :=
  let* res := await_fetch (js_String responseUrl) "POST" json_headers (JSON_stringify body) in
  if negb (http_ok res)
  then
    let* t := lift (http_text res) in
    throw (ErrorObj ("Failed to respond via response_url: " +:+ decimal (http_status res)
                     +:+ " " +:+ t))
  else ret tt.

(** [async function slackUpdateMessage(token, channel, ts, text)] *)
Definition slackUpdateMessage (token : string) (channel ts : json) (text : string) : F unit :=
  let* res :=
    await_fetch "https://slack.com/api/chat.update" "POST"
      [("Authorization", "Bearer " +:+ token);
       ("Content-Type", "application/json; charset=utf-8")]
      (JSON_stringify
         (JObj [("channel", channel); ("ts", ts); ("text", JStr text);
                ("blocks", JArr [section_block text])])) in
  let* data := lift (http_json res) in
  let* ok := lift (get data "ok") in
  if negb (truthy ok)
  then throw (ErrorObj ("Slack chat.update failed: " +:+ js_String (opt_get data "error")))
  else ret tt.

(** [async function sfValidateUser(slackTeamId, slackChannelId, email, slackUserId)] *)
Definition sfValidateUser (slackTeamId slackChannelId email slackUserId : json) : F json :=
  await_sfJson "/services/apexrest/barry/validate-user" "POST"
    (JSON_stringify (JObj [("slackTeamId", slackTeamId); ("slackChannelId", slackChannelId);
                           ("email", email); ("slackUserId", slackUserId)]))
    json_headers.

(** [async function sfCreateContact(data)] *)
Definition sfCreateContact (data : json) : F json :=
  await_sfJson "/services/apexrest/barry/create-contact" "POST" (JSON_stringify data)
    json_headers.

(** [UserContext] *)
Record UserContext : Type := mkContext {
  team_id : json;
  user_id : json;
  email : json;
  channel_id : json;
  response_url : json
}.

(** [async function handleValidationResult(result, ctx)] *)
Definition handleValidationResult (result : json) (ctx : UserContext) : F unit :=
  let* status := lift (get result "status") in
  if is_str status "channel_not_linked" then
    replyToResponseUrl (response_url ctx)
      (Worker.ephemeral "❌ This Slack channel isn't linked to a customer account yet. Please ask your Account Owner to set it up.")
  else if is_str status "no_entitlement" then
    replyToResponseUrl (response_url ctx)
      (Worker.ephemeral "❌ The account linked to this channel doesn't have an active support entitlement. Please contact your account manager.")
  else if is_str status "contact_not_found" then
    replyToResponseUrl (response_url ctx)
      (JObj [("response_type", JStr "ephemeral");
             ("text", JStr "We couldn't find a Salesforce contact for your email address on this account.");
             ("blocks",
              JArr [section_block
                      ("We couldn't find a Salesforce contact for *" +:+ js_String (email ctx)
                       +:+ "* on this account." +:+ Worker.nl
                       +:+ "Please create your profile to request access.");
                    JObj [("type", JStr "actions");
                          ("elements",
                           JArr [JObj [("type", JStr "button");
                                       ("action_id", JStr "barry_create_contact");
                                       ("text", JObj [("type", JStr "plain_text");
                                                      ("text", JStr "Create Profile")]);
                                       ("value",
                                        JStr (JSON_stringify
                                                (JObj [("team_id", team_id ctx);
                                                       ("user_id", user_id ctx);
                                                       ("email", email ctx);
                                                       ("channel_id", channel_id ctx);
                                                       ("account_id",
                                                        opt_get result "accountId")])))]])]])])
  else if is_str status "pending_approval" then
    replyToResponseUrl (response_url ctx)
      (Worker.ephemeral "⏳ Your access request is pending approval. Barry will send you a direct message once it's approved.")
  else if is_str status "approved" then
    replyToResponseUrl (response_url ctx)
      (JObj [("response_type", JStr "ephemeral");
             ("text", JStr "✅ All checks passed.");
             ("blocks",
              JArr [section_block "✅ *All checks passed.* Click below to open the case form.";
                    JObj [("type", JStr "actions");
                          ("elements",
                           JArr [JObj [("type", JStr "button");
                                       ("action_id", JStr "barry_open_case_form");
                                       ("text", JObj [("type", JStr "plain_text");
                                                      ("text", JStr "Open Case Form")]);
                                       ("style", JStr "primary");
                                       ("value",
                                        JStr (JSON_stringify
                                                (JObj [("team_id", team_id ctx);
                                                       ("user_id", user_id ctx);
                                                       ("email", email ctx);
                                                       ("channel_id", channel_id ctx);
                                                       ("account_id",
                                                        opt_get result "accountId");
                                                       ("contact_id",
                                                        opt_get result "contactId")])))]])]])])
  else ret tt.

Definition SELECT_EMAIL : string :=
  "SELECT email FROM slack_user_link WHERE slack_team_id = $1 AND slack_user_id = $2 LIMIT 1".

(** The boundary of an async helper that is awaited by another: its
    [return] ends the helper only. *)
Definition async_helper (body : F unit) : F unit :=
  fun t =>
    match body t with
    | (Worker.Returned _, t') => (Worker.Normal tt, t')
    | other => other
    end.

(** [async function handleCreateCaseCommand(job, payload)] *)
Definition handleCreateCaseCommand (job : Worker.Job) (payload : json) : F unit :=
  async_helper
    (let* response_url := lift (get payload "response_url") in
     let team_id := opt_get payload "team_id" in
     let channel_id := opt_get payload "channel_id" in
     let user_id := opt_get payload "user_id" in
     if negb (truthy response_url)
     then throw (ErrorObj "Missing response_url in slack command payload")
     else if negb (truthy team_id)
     then throw (ErrorObj "Missing team_id in slack command payload")
     else if negb (truthy channel_id)
     then throw (ErrorObj "Missing channel_id in slack command payload")
     else if negb (truthy user_id)
     then throw (ErrorObj "Missing user_id in slack command payload")
     else
       replyToResponseUrl response_url (Worker.ephemeral "🔍 Verifying your access…") ;;;
       let* rows := await_query SELECT_EMAIL [team_id; user_id] in
       match rows with
       | [] =>
           replyToResponseUrl response_url
             (Worker.ephemeral "⚠️ Your email isn't verified yet. Please run `/create-case` again to complete setup.") ;;;
           return_ JUndefined
       | row :: _ =>
           let* email := lift (get row "email") in
           let* result := sfValidateUser team_id channel_id email user_id in
           handleValidationResult result
             (mkContext team_id user_id email channel_id response_url)
       end).

End Helpers.

(** *** Vocabulary of the properties *)

Definition required_fields : list string := ["response_url"; "team_id"; "channel_id"; "user_id"].

(** The first of the required fields a slash-command payload lacks. *)
Definition first_missing (payload : json) : option string :=
  List.find (fun k => negb (truthy (opt_get payload k))) required_fields.

Definition known_statuses : list string :=
  ["channel_not_linked"; "no_entitlement"; "contact_not_found"; "pending_approval"; "approved"].

Definition known_status (status : json) : bool :=
  existsb (is_str status) known_statuses.

Definition is_fetch_to (url : string) (a : action) : bool :=
  match a with
  | Fetch u m _ _ => String.eqb u url && String.eqb m "POST"
  | _ => false
  end.

(** Sample surroundings used to exercise the statements. *)

(** A stand-in for [JSON.stringify] on the samples: the field names of an
    object. *)
Definition stringify_sample (v : json) : string :=
  match v with
  | JObj fs => "{" +:+ join_comma (List.map fst fs) +:+ "}"
  | _ => js_String v
  end.

(** Every request is answered 200; the user is not linked. *)
Definition out_unlinked : Outside :=
  mkOutside (fun _ => inr (mkHttp 200 (inr "ok"%string) (inr (JObj [("ok", JBool true)]))))
            (fun _ => inr [])
            (fun _ => inr (JObj [("status", JStr "approved")])).

(** Every request is answered 200; the user is linked and approved. *)
Definition out_linked : Outside :=
  mkOutside (fun _ => inr (mkHttp 200 (inr "ok"%string) (inr (JObj [("ok", JBool true)]))))
            (fun _ => inr [JObj [("email", JStr "a@b.c")]])
            (fun _ => inr (JObj [("status", JStr "approved"); ("accountId", JStr "001")])).

(** Slack answers 500 with a body that says [ok: true]. *)
Definition out_500_ok : Outside :=
  mkOutside (fun _ => inr (mkHttp 500 (inr "oops"%string) (inr (JObj [("ok", JBool true)]))))
            (fun _ => inr []) (fun _ => inr JNull).

Definition command_payload : json :=
  JObj [("response_url", JStr "https://hooks.example/r"); ("team_id", JStr "T1");
        ("channel_id", JStr "C1"); ("user_id", JStr "U1"); ("command", JStr "/create-case")].

Definition command_without_team : json :=
  JObj [("response_url", JStr "https://hooks.example/r"); ("user_id", JStr "U1")].

Definition context_sample : UserContext :=
  mkContext (JStr "T1") (JStr "U1") (JStr "a@b.c") (JStr "C1") (JStr "https://hooks.example/r").

End Flows.

(* ================================================================== *)
(** ** Properties of the job processor *)
(* ================================================================== *)

Module WorkerSpec.
Import JS Worker.

Section Emits.
Context {env : Env}.

Lemma emits_ret {A} P (a : A) : emits P (ret a).
Proof. intros t. exists []. simpl. rewrite app_nil_r. auto. Qed.

Lemma emits_throw {A} P e : emits P (@throw A e).
Proof. intros t. exists []. simpl. rewrite app_nil_r. auto. Qed.

Lemma emits_return {A} P v : emits P (@return_ A v).
Proof. intros t. exists []. simpl. rewrite app_nil_r. auto. Qed.

Lemma emits_bind {A B} P (m : W A) (k : A -> W B) :
  emits P m -> (forall a, emits P (k a)) -> emits P (bind m k).
Proof.
  intros Hm Hk t. unfold bind.
  destruct (Hm t) as (evs & Ht & Hall).
  destruct (m t) as [[a | v | e] t']; simpl in Ht; subst t'.
  - destruct (Hk a (t ++ evs)) as (evs' & Ht' & Hall').
    exists (evs ++ evs'). rewrite Ht', app_assoc. split; [reflexivity |].
    apply Forall_app; auto.
  - exists evs. auto.
  - exists evs. auto.
Qed.

Lemma emits_await P c : P c = true -> emits P (await env c).
Proof.
  intros Hc t. exists [(c, reply env (length t))]. split; [reflexivity |].
  constructor; auto.
Qed.

Lemma emits_when P c m : emits P m -> emits P (when c m).
Proof. destruct c; simpl; auto using emits_ret. Qed.

Lemma emits_lift_get P r : emits P (lift_get r).
Proof. destruct r; simpl; auto using emits_ret, emits_throw. Qed.

Lemma emits_requireEnv P : emits P (requireEnv_SLACK_BOT_TOKEN env).
Proof.
  unfold requireEnv_SLACK_BOT_TOKEN.
  destruct (SLACK_BOT_TOKEN env) as [v |]; [destruct (is_empty v) |];
    auto using emits_ret, emits_throw.
Qed.

End Emits.

Create HintDb emits.
#[local] Hint Resolve emits_ret emits_throw emits_return emits_when
  emits_lift_get emits_requireEnv : emits.

Ltac emits_step :=
  first
    [ apply emits_bind; [| intros ?]
    | apply emits_await; reflexivity
    | apply emits_when
    | match goal with |- emits _ (if ?c then _ else _) => destruct c end
    | solve [auto with emits] ].

(** The handler branches call collaborators only: no branch writes to the
    audit storage. *)
Lemma handlers_collab env job : emits is_collab (handlers env job).
Proof.
  unfold handlers, slack_interaction, slack_command, verify_user,
    create_contact, create_case.
  repeat emits_step.
Qed.

(** One execution of the processor, path by path.  [started] is the
    opening write; [evs] are the collaborator calls of the handler
    branches; the closing writes come last. *)
Lemma processor_run env job :
  let cid := correlationId_of job (clock env 0) in
  let pay := js_or (data job) (JObj []) in
  let started := (audit_insert job "started" cid pay, reply env 0) in
  (exists e, reply env 0 = inl e /\ processor env job = (inl e, [started]))
  \/
  (exists v evs c,
      reply env 0 = inr v /\
      handlers env job [started] = (c, started :: evs) /\
      Forall (fun ev => is_collab (fst ev) = true) evs /\
      match c with
      | Normal _ =>
          let r2 := reply env (S (length evs)) in
          let completed := (audit_insert job "completed" cid pay, r2) in
          match r2 with
          | inr _ =>
              processor env job =
                (inr (JObj [("ok", JBool true);
                            ("processedAt",
                             JStr (toISOString env (clock env (S (S (length evs))))))]),
                 started :: evs ++ [completed])
          | inl e2 =>
              let r3 := reply env (S (S (length evs))) in
              processor env job =
                (inl (match r3 with inl e3 => e3 | inr _ => e2 end),
                 started :: evs ++
                   [completed; (audit_insert job "failed" cid (failed_payload job e2), r3)])
          end
      | Returned rv => processor env job = (inr rv, started :: evs)
      | Threw e =>
          let r3 := reply env (S (length evs)) in
          processor env job =
            (inl (match r3 with inl e3 => e3 | inr _ => e end),
             started :: evs ++ [(audit_insert job "failed" cid (failed_payload job e), r3)])
      end).
Proof.
  intros cid pay started.
  remember (processor env job) as P eqn:HP.
  unfold processor, async_function, processor_body, bind, try_catch, Date_now, await in HP.
  cbn [length app] in HP. fold cid pay in HP.
  destruct (reply env 0) as [e | v] eqn:Hr0.
  { left. exists e. split; [reflexivity | exact HP]. }
  right. fold started in HP.
  destruct (handlers_collab env job [started]) as (evs & Hsnd & Hall).
  destruct (handlers env job [started]) as [c t'] eqn:Hh. simpl in Hsnd. subst t'.
  exists v, evs, c. split; [reflexivity |]. split; [reflexivity |]. split; [exact Hall |].
  cbn [length] in HP.
  assert (Hlen : forall ev : event, length ((started :: evs) ++ [ev]) = S (S (length evs))).
  { intros ev. rewrite length_app. cbn [length]. lia. }
  destruct c as [[] | rv | e]; cbn zeta.
  - destruct (reply env (S (length evs))) as [e2 | v2] eqn:Hr2.
    + cbn beta iota zeta in HP. rewrite Hlen in HP.
      destruct (reply env (S (S (length evs)))) as [e3 | v3];
        subst P; cbn [throw]; rewrite <- app_assoc; reflexivity.
    + cbn beta iota zeta in HP. unfold return_ in HP. rewrite Hlen in HP. exact HP.
  - exact HP.
  - cbn beta iota zeta in HP. cbn [length] in HP.
    destruct (reply env (S (length evs))) as [e3 | v3]; subst P; reflexivity.
Qed.

(** The trace of every execution: the opening write, then collaborator
    calls only, then closing writes only. *)
Lemma processor_trace_shape env job :
  let cid := correlationId_of job (clock env 0) in
  let started :=
    (audit_insert job "started" cid (js_or (data job) (JObj [])), reply env 0) in
  exists mid closing,
    snd (processor env job) = started :: mid ++ closing /\
    Forall (fun ev => is_collab (fst ev) = true) mid /\
    Forall (is_closing_write job cid) closing /\
    (forall e, reply env 0 = inl e ->
       fst (processor env job) = inl e /\ mid = [] /\ closing = []).
Proof.
  intros cid started.
  destruct (processor_run env job) as [(e & Hr & Hp) | (v & evs & c & Hr & Hh & Hall & Hp)];
    fold cid in Hp; fold started in Hp.
  - exists [], []. rewrite Hp. split; [reflexivity |].
    split; [constructor |]. split; [constructor |].
    intros e' He'. rewrite Hr in He'. injection He' as <-. auto.
  - assert (Hno : forall (Q : thrown -> Prop) e, reply env 0 = inl e -> Q e).
    { intros Q e He. rewrite Hr in He. discriminate. }
    destruct c as [[] | rv | e]; cbn zeta in Hp.
    + destruct (reply env (S (length evs))) as [e2 | v2].
      * exists evs. eexists. rewrite Hp. split; [reflexivity |]. split; [exact Hall |].
        split; [| apply (Hno (fun _ => _))].
        repeat constructor; eexists; [left | right]; reflexivity.
      * exists evs. eexists. rewrite Hp. split; [reflexivity |]. split; [exact Hall |].
        split; [| apply (Hno (fun _ => _))].
        repeat constructor; eexists; left; reflexivity.
    + exists evs, []. rewrite Hp, app_nil_r. split; [reflexivity |]. split; [exact Hall |].
      split; [constructor | apply (Hno (fun _ => _))].
    + exists evs. eexists. rewrite Hp. split; [reflexivity |]. split; [exact Hall |].
      split; [| apply (Hno (fun _ => _))].
      repeat constructor; eexists; right; reflexivity.
Qed.

Lemma handlers_unknown env job t :
  registered (name job) = false -> handlers env job t = (Normal tt, t).
Proof.
  unfold registered, registered_names. cbn [existsb]. intros H.
  repeat (apply orb_false_iff in H; destruct H as [? H]).
  unfold handlers.
  repeat match goal with Hn : String.eqb _ _ = false |- _ => rewrite Hn; clear Hn end.
  reflexivity.
Qed.

Lemma audit_rows_app t1 t2 : audit_rows (t1 ++ t2) = audit_rows t1 ++ audit_rows t2.
Proof. unfold audit_rows. apply flat_map_app. Qed.

Lemma audit_rows_collab evs :
  Forall (fun ev : event => is_collab (fst ev) = true) evs -> audit_rows evs = [].
Proof.
  induction 1 as [| [c r] evs Hc _ IH]; [reflexivity |].
  cbn [audit_rows flat_map]. fold (audit_rows evs). rewrite IH.
  destruct c; simpl in Hc; try discriminate; reflexivity.
Qed.


(** C4 as stated fails: for a job whose payload is [null] the handler
    raises, the [failed] entry is written, and its [originalPayload] is
    the empty object, not the job's payload. *)
Lemma failed_entry_null_payload :
  let out := processor env_ok job_null_payload in
  let err := "Missing channel.id or message.ts in interaction payload"%string in
  fst out = inl (ErrorObj err) /\
  audit_rows (snd out) =
    [ [JStr "queue"; JStr "slack-interaction"; JStr "started"; JStr "job-7-1000"; JObj []];
      [JStr "queue"; JStr "slack-interaction"; JStr "failed"; JStr "job-7-1000";
       JObj [("error", JStr err); ("originalPayload", JObj [])]] ] /\
  JObj [("error", JStr err); ("originalPayload", JObj [])] <>
  JObj [("error", JStr err); ("originalPayload", data job_null_payload)].
Proof. vm_compute. repeat split; congruence. Qed.

(** C4 (amended): when the handler branches raise [err] and the storage
    accepts the [failed] write, the processor makes exactly one closing
    write, the [failed] row whose payload is
    [{error: getErrorMessage(err), originalPayload: job.data || {}}], no
    [completed] row, and then rejects with [err] itself. *)
Theorem handler_failure_audit env job v0 evs err v1 :
  let cid := correlationId_of job (clock env 0) in
  let pay := if truthy (data job) then data job else JObj [] in
  let started := (audit_insert job "started" cid pay, reply env 0) in
  let failed_row :=
    [JStr "queue"; JStr (name job); JStr "failed"; cid;
     JObj [("error", JStr (getErrorMessage err)); ("originalPayload", pay)]] in
  reply env 0 = inr v0 ->
  handlers env job [started] = (Threw err, started :: evs) ->
  reply env (S (length evs)) = inr v1 ->
  processor env job =
    (inl err, started :: evs ++ [(PoolQuery INSERT_AUDIT failed_row, inr v1)]) /\
  audit_rows (snd (processor env job)) =
    [ [JStr "queue"; JStr (name job); JStr "started"; cid; pay]; failed_row ].
Proof.
  intros cid pay started failed_row Hr0 Hh Hr1.
  destruct (processor_run env job) as [(e & Hr & _) | (v & evs' & c & Hr & Hh' & Hall & Hp)].
  { rewrite Hr0 in Hr. discriminate. }
  fold cid in Hh', Hp. change (js_or (data job) (JObj [])) with pay in Hh', Hp.
  fold started in Hh', Hp. rewrite Hh in Hh'. inversion Hh'; subst c evs'. clear Hh'.
  cbn zeta in Hp. rewrite Hr1 in Hp.
  assert (Hp' : processor env job =
    (inl err, started :: evs ++ [(PoolQuery INSERT_AUDIT failed_row, inr v1)])) by exact Hp.
  split; [exact Hp' |]. rewrite Hp'. cbn [snd].
  change (started :: evs ++ [(PoolQuery INSERT_AUDIT failed_row, inr v1)])
    with ([started] ++ evs ++ [(PoolQuery INSERT_AUDIT failed_row, inr v1)]).
  rewrite !audit_rows_app, (audit_rows_collab evs Hall).
  subst started. rewrite Hr0. reflexivity.
Qed.

Lemma handler_failure_audit_witness :
  processor env_ok job_click =
    (inl (ErrorObj "Missing channel.id or message.ts in interaction payload"),
     [ (audit_insert job_click "started" (JStr "job-9-1000") (data job_click), inr JNull);
       (audit_insert job_click "failed" (JStr "job-9-1000")
          (JObj [("error", JStr "Missing channel.id or message.ts in interaction payload");
                 ("originalPayload", data job_click)]), inr JNull) ]).
Proof.
  exact (proj1 (handler_failure_audit env_ok job_click JNull []
                  (ErrorObj "Missing channel.id or message.ts in interaction payload")
                  JNull eq_refl eq_refl eq_refl)).
Defined.

(** C5: a job whose name matches no handler branch is a successful no-op:
    with the audit storage accepting both writes, the processor awaits
    exactly the [started] write and then the [completed] write, calls no
    collaborator, and resolves with [{ok: true, processedAt}]. *)
Theorem unknown_job_is_noop env job v0 v1 :
  let cid := correlationId_of job (clock env 0) in
  let pay := js_or (data job) (JObj []) in
  registered (name job) = false ->
  reply env 0 = inr v0 ->
  reply env 1 = inr v1 ->
  processor env job =
    (inr (JObj [("ok", JBool true); ("processedAt", JStr (toISOString env (clock env 2)))]),
     [ (audit_insert job "started" cid pay, inr v0);
       (audit_insert job "completed" cid pay, inr v1) ]) /\
  Forall (fun ev => is_collab (fst ev) = false) (snd (processor env job)).
Proof.
  intros cid pay Hname Hr0 Hr1.
  destruct (processor_run env job) as [(e & Hr & _) | (v & evs & c & Hr & Hh & Hall & Hp)].
  { rewrite Hr0 in Hr. discriminate. }
  fold cid in Hh, Hp. fold pay in Hh, Hp.
  rewrite (handlers_unknown env job _ Hname) in Hh. inversion Hh as [[Hc Hevs]].
  assert (evs = []) as ->.
  { destruct evs; [reflexivity |]. exfalso.
    apply (f_equal (@length _)) in Hevs. cbn in Hevs. lia. }
  subst c. cbn [length app] in Hp. cbn zeta in Hp. rewrite Hr1, Hr0 in Hp.
  rewrite Hp. split; [reflexivity |]. repeat constructor.
Qed.

Lemma unknown_job_is_noop_witness :
  processor env_ok job_noop =
    (inr (JObj [("ok", JBool true); ("processedAt", JStr "1002")]),
     [ (audit_insert job_noop "started" (JStr "job-7-1000") (JObj []), inr JNull);
       (audit_insert job_noop "completed" (JStr "job-7-1000") (JObj []), inr JNull) ]).
Proof.
  exact (proj1 (unknown_job_is_noop env_ok job_noop JNull JNull eq_refl eq_refl eq_refl)).
Defined.

(** C9 as stated fails: a payload whose [correlation_id] field is present
    but empty does not supply the correlation id; every audit row of the
    execution carries the synthesized one. *)
Lemma empty_correlation_id_not_used :
  has_field (data job_empty_cid) "correlation_id" = true /\
  opt_get (data job_empty_cid) "correlation_id" = JStr EmptyString /\
  Forall (carries_cid (JStr "job-7-1000")) (snd (processor env_ok job_empty_cid)) /\
  JStr "job-7-1000" <> opt_get (data job_empty_cid) "correlation_id".
Proof.
  split; [reflexivity |]. split; [reflexivity |]. split.
  - vm_compute. repeat constructor.
  - discriminate.
Qed.

(** C9 (amended): every audit write of an execution carries one
    correlation id: [payload.correlation_id] when that field is present and
    truthy (a non-empty string, for instance), and otherwise the string
    [job-<id>-<Date.now()>] built from the job's id and the clock read when
    the execution starts. *)
Theorem correlation_id_of_execution env job :
  let field := opt_get (data job) "correlation_id" in
  let cid :=
    if truthy field then field
    else JStr ("job-" +:+ id job +:+ "-" +:+ decimal (clock env 0)) in
  Forall (carries_cid cid) (snd (processor env job)).
Proof.
  intros field cid.
  destruct (processor_trace_shape env job) as (mid & closing & Htr & Hmid & Hclo & _).
  change (correlationId_of job (clock env 0)) with cid in Htr, Hclo.
  rewrite Htr. constructor; [reflexivity |].
  apply Forall_app. split.
  - eapply Forall_impl; [exact Hmid |]. intros [c r] Hc. unfold carries_cid.
    destruct c; simpl in Hc; try discriminate; exact I.
  - eapply Forall_impl; [exact Hclo |]. intros [c r] (payload & [Hc | Hc]);
      simpl in Hc; subst c; reflexivity.
Qed.

End WorkerSpec.

(* ================================================================== *)
(** ** Binary64: integer arithmetic is exact *)
(* ================================================================== *)

(** Sums, differences and products of safe integers whose results are
    safe are computed without rounding, and the order of numbers is the
    order of the integers. *)
Module Binary64Spec.
Import Binary64.

Lemma iter_xO_digits q p :
  Z.pos (digits2_pos (Pos.iter xO q p)) = Z.pos (digits2_pos q) + Z.pos p.
Proof.
  induction p as [| p IH] using Pos.peano_ind.
  - cbn [Pos.iter digits2_pos]. lia.
  - rewrite Pos.iter_succ. cbn [digits2_pos]. lia.
Qed.

Lemma iter_xO_value q p : Z.pos (Pos.iter xO q p) = Z.pos q * 2 ^ Z.pos p.
Proof.
  induction p as [| p IH] using Pos.peano_ind.
  - cbn [Pos.iter]. lia.
  - rewrite Pos.iter_succ, Pos2Z.inj_succ, Z.pow_succ_r by lia.
    rewrite Pos2Z.inj_xO, IH. lia.
Qed.

Lemma shr_iter_xO q p :
  SpecFloat.iter_pos shr_1 p (Build_shr_record (Z.pos (Pos.iter xO q p)) false false) =
  Build_shr_record (Z.pos q) false false.
Proof.
  revert q. induction p as [p IH | p IH |]; intros q; cbn [SpecFloat.iter_pos Pos.iter].
  - cbn [shr_1 orb]. rewrite IH, IH. reflexivity.
  - rewrite IH, IH. reflexivity.
  - reflexivity.
Qed.

Lemma digits_bounds n : 2 ^ (Z.pos (digits2_pos n) - 1) <= Z.pos n < 2 ^ Z.pos (digits2_pos n).
Proof.
  induction n as [n IH | n IH |]; cbn [digits2_pos].
  - rewrite Pos2Z.inj_succ. replace (Z.succ (Z.pos (digits2_pos n)) - 1) with (Z.succ (Z.pos (digits2_pos n) - 1)) by lia.
    rewrite !Z.pow_succ_r by lia. lia.
  - rewrite Pos2Z.inj_succ. replace (Z.succ (Z.pos (digits2_pos n)) - 1) with (Z.succ (Z.pos (digits2_pos n) - 1)) by lia.
    rewrite !Z.pow_succ_r by lia. lia.
  - cbn. lia.
Qed.

Lemma shr_fexp_canonical m e :
  fexp prec emax (Z.pos (digits2_pos m) + e) = e ->
  shr_fexp prec emax (Z.pos m) e loc_Exact = (Build_shr_record (Z.pos m) false false, e).
Proof.
  intros H. unfold shr_fexp. cbn [Zdigits2 shr_record_of_loc]. rewrite H, Z.sub_diag.
  reflexivity.
Qed.

Lemma shr_fexp_shift q p e :
  fexp prec emax (Z.pos (digits2_pos q) + Z.pos p + e) = e + Z.pos p ->
  shr_fexp prec emax (Z.pos (Pos.iter xO q p)) e loc_Exact =
  (Build_shr_record (Z.pos q) false false, e + Z.pos p).
Proof.
  intros H. unfold shr_fexp. cbn [Zdigits2 shr_record_of_loc].
  rewrite iter_xO_digits, H.
  replace (e + Z.pos p - e) with (Z.pos p) by lia.
  cbn [shr]. rewrite shr_iter_xO. reflexivity.
Qed.

Lemma round_aux_canonical s m e :
  fexp prec emax (Z.pos (digits2_pos m) + e) = e ->
  e <= emax - prec ->
  binary_round_aux prec emax s (Z.pos m) e loc_Exact = S754_finite s m e.
Proof.
  intros H He. unfold binary_round_aux.
  rewrite (shr_fexp_canonical m e H). cbn [shr_m loc_of_shr_record round_nearest_even].
  rewrite (shr_fexp_canonical m e H). cbn [shr_m].
  apply Z.leb_le in He. rewrite He. reflexivity.
Qed.

Lemma round_aux_shift s q p e :
  fexp prec emax (Z.pos (digits2_pos q) + Z.pos p + e) = e + Z.pos p ->
  e + Z.pos p <= emax - prec ->
  binary_round_aux prec emax s (Z.pos (Pos.iter xO q p)) e loc_Exact =
  S754_finite s q (e + Z.pos p).
Proof.
  intros H He. unfold binary_round_aux.
  rewrite (shr_fexp_shift q p e H). cbn [shr_m loc_of_shr_record round_nearest_even].
  rewrite shr_fexp_canonical by (rewrite <- H at 2; f_equal; lia). cbn [shr_m].
  apply Z.leb_le in He. rewrite He. reflexivity.
Qed.


Lemma shifted_value n k : 0 <= k -> Z.pos (shifted n k) = Z.pos n * 2 ^ k.
Proof.
  intros Hk. destruct k as [| p | p]; cbn [shifted]; [lia | | lia].
  apply iter_xO_value.
Qed.

Lemma shifted_digits n k :
  0 <= k -> Z.pos (digits2_pos (shifted n k)) = Z.pos (digits2_pos n) + k.
Proof.
  intros Hk. destruct k as [| p | p]; cbn [shifted]; [lia | | lia].
  apply iter_xO_digits.
Qed.

Lemma shifted_of_value n m k : 0 <= k -> Z.pos m = Z.pos n * 2 ^ k -> m = shifted n k.
Proof.
  intros Hk H. apply Pos2Z.inj. rewrite shifted_value by exact Hk. exact H.
Qed.

Lemma shifted_shifted n a b : 0 <= a -> 0 <= b -> shifted (shifted n a) b = shifted n (a + b).
Proof.
  intros Ha Hb. apply Pos2Z.inj. rewrite !shifted_value by lia.
  rewrite Z.pow_add_r by lia. lia.
Qed.

Lemma fexp_small d : 1 <= d <= 53 -> fexp prec emax d = d - 53.
Proof. intros H. unfold fexp, SpecFloat.emin, prec, emax. lia. Qed.

(** The mantissa [n * 2^k] at exponent [-k], with [k] at least the shift
    that normalises [n], rounds to the double of [n]: nothing is lost. *)
Lemma round_aux_exact s n m k :
  Z.pos (digits2_pos n) <= 53 ->
  53 - Z.pos (digits2_pos n) <= k ->
  Z.pos m = Z.pos n * 2 ^ k ->
  binary_round_aux prec emax s (Z.pos m) (- k) loc_Exact = normal s n.
Proof.
  intros Hd Hk Hm. set (d := Z.pos (digits2_pos n)) in *.
  assert (Hd1 : 1 <= d) by (subst d; lia).
  unfold normal. fold d. change prec with 53 at 2 3.
  set (q := shifted n (53 - d)).
  assert (Hq : Z.pos (digits2_pos q) = 53).
  { subst q. rewrite shifted_digits by lia. fold d. lia. }
  destruct (Z.eq_dec k (53 - d)) as [-> | Hne].
  - apply shifted_of_value in Hm; [| lia]. rewrite Hm. fold q.
    replace (- (53 - d)) with (d - 53) by lia.
    apply round_aux_canonical.
    + rewrite Hq. replace (53 + (d - 53)) with d by lia. apply fexp_small. lia.
    + unfold emax, prec. lia.
  - assert (Hm' : m = shifted q (k - (53 - d))).
    { subst q. rewrite shifted_shifted by lia.
      replace (53 - d + (k - (53 - d))) with k by lia.
      apply shifted_of_value; [lia | exact Hm]. }
    destruct (k - (53 - d)) as [| p | p] eqn:Hp; [lia | | lia].
    cbn [shifted] in Hm'. rewrite Hm'.
    replace (d - 53) with (- k + Z.pos p) by lia.
    apply round_aux_shift.
    + rewrite Hq. replace (53 + Z.pos p + - k) with d by lia.
      rewrite fexp_small by lia. lia.
    + unfold emax, prec. lia.
Qed.

Lemma round_exact s n m k :
  Z.pos (digits2_pos n) <= 53 ->
  0 <= k ->
  Z.pos m = Z.pos n * 2 ^ k ->
  binary_round prec emax s m (- k) = normal s n.
Proof.
  intros Hd Hk Hm. set (d := Z.pos (digits2_pos n)) in *.
  assert (Hd1 : 1 <= d) by (subst d; lia).
  unfold binary_round.
  assert (Hdm : Z.pos (digits2_pos m) = d + k).
  { rewrite (shifted_of_value n m k Hk Hm). apply shifted_digits. exact Hk. }
  rewrite Hdm. replace (d + k + - k) with d by lia.
  rewrite fexp_small by lia.
  unfold shl_align. destruct (d - 53 - - k) as [| p | p] eqn:Hp.
  - apply (round_aux_exact s n m k); [exact Hd | fold d; lia | exact Hm].
  - apply (round_aux_exact s n m k); [exact Hd | fold d; lia | exact Hm].
  - replace (d - 53) with (- (53 - d)) by lia.
    apply (round_aux_exact s n); [exact Hd | fold d; lia |].
    rewrite iter_xO_value, Hm.
    replace (53 - d) with (k + Z.pos p) by lia.
    rewrite Z.pow_add_r by lia. lia.
Qed.


Lemma digits_safe n : Z.pos n < 2 ^ 53 -> Z.pos (digits2_pos n) <= 53.
Proof.
  intros H. pose proof (digits_bounds n) as [Hlo _].
  destruct (Z_le_gt_dec (Z.pos (digits2_pos n)) 53) as [Hle | Hgt]; [exact Hle |].
  assert (2 ^ 53 <= 2 ^ (Z.pos (digits2_pos n) - 1)) by (apply Z.pow_le_mono_r; lia).
  lia.
Qed.

Lemma of_Z_signed s n : Z.pos n < 2 ^ 53 -> of_Z (signed s n) = normal s n.
Proof.
  intros H. unfold of_Z, signed.
  destruct s; cbn [cond_Zopp Z.opp binary_normalize];
    apply (round_exact _ n n 0); try lia; apply digits_safe; exact H.
Qed.

(** A mantissa that is a safe integer times a power of two, at the
    opposite exponent, normalises to the double of that integer. *)
Lemma normalize_exact z k :
  safe_integer z -> 0 <= k ->
  binary_normalize prec emax (z * 2 ^ k) (- k) false = of_Z z.
Proof.
  unfold safe_integer. intros Hz Hk.
  assert (Hpow : 0 < 2 ^ k) by (apply Z.pow_pos_nonneg; lia).
  destruct z as [| n | n].
  - reflexivity.
  - change (Z.pos n) with (signed false n) at 2. rewrite of_Z_signed by lia.
    destruct (Z.pos n * 2 ^ k) as [| m | m] eqn:Hm; [lia | | lia].
    cbn [binary_normalize]. apply round_exact; [apply digits_safe; lia | exact Hk | lia].
  - change (Z.neg n) with (signed true n) at 2. rewrite of_Z_signed by lia.
    destruct (Z.neg n * 2 ^ k) as [| m | m] eqn:Hm; [lia | lia |].
    cbn [binary_normalize]. apply round_exact; [apply digits_safe; lia | exact Hk | lia].
Qed.

Lemma shl_align_value m e e' :
  e' <= e -> Z.pos (fst (shl_align m e e')) = Z.pos m * 2 ^ (e - e').
Proof.
  intros H. unfold shl_align. destruct (e' - e) as [| p | p] eqn:Hp; cbn [fst].
  - replace (e - e') with 0 by lia. lia.
  - lia.
  - rewrite iter_xO_value. f_equal. f_equal. lia.
Qed.

Lemma cond_Zopp_mul s a b : cond_Zopp s a * b = cond_Zopp s (a * b).
Proof. destruct s; cbn [cond_Zopp]; lia. Qed.

(** The aligned mantissa [SFadd] and [SFsub] work with. *)
Lemma aligned_value s n ez :
  Z.pos (digits2_pos n) <= 53 ->
  ez <= Z.pos (digits2_pos n) - 53 ->
  cond_Zopp s (Z.pos (fst (shl_align (shifted n (53 - Z.pos (digits2_pos n)))
                                     (Z.pos (digits2_pos n) - 53) ez))) =
  signed s n * 2 ^ (- ez).
Proof.
  intros Hd He. rewrite shl_align_value by exact He.
  rewrite shifted_value by lia. unfold signed. rewrite cond_Zopp_mul. f_equal.
  rewrite <- Z.mul_assoc, <- Z.pow_add_r by lia. f_equal. f_equal. lia.
Qed.

Lemma add_finite sx x sy y :
  Z.pos x < 2 ^ 53 -> Z.pos y < 2 ^ 53 ->
  safe_integer (signed sx x + signed sy y) ->
  add (normal sx x) (normal sy y) = of_Z (signed sx x + signed sy y).
Proof.
  intros Hx Hy Hz. pose proof (digits_safe x Hx) as Hdx. pose proof (digits_safe y Hy) as Hdy.
  unfold add, normal, SFadd. change prec with 53.
  set (ez := Z.min _ _).
  rewrite !aligned_value by (try assumption; subst ez; lia).
  rewrite <- Z.mul_add_distr_r.
  assert (Hez : 0 <= - ez) by (subst ez; lia).
  pose proof (normalize_exact _ _ Hz Hez) as E.
  rewrite Z.opp_involutive in E. exact E.
Qed.

Lemma sub_finite sx x sy y :
  Z.pos x < 2 ^ 53 -> Z.pos y < 2 ^ 53 ->
  safe_integer (signed sx x - signed sy y) ->
  sub (normal sx x) (normal sy y) = of_Z (signed sx x - signed sy y).
Proof.
  intros Hx Hy Hz. pose proof (digits_safe x Hx) as Hdx. pose proof (digits_safe y Hy) as Hdy.
  unfold sub, normal, SFsub. change prec with 53.
  set (ez := Z.min _ _).
  rewrite !aligned_value by (try assumption; subst ez; lia).
  rewrite <- Z.mul_sub_distr_r.
  assert (Hez : 0 <= - ez) by (subst ez; lia).
  pose proof (normalize_exact _ _ Hz Hez) as E.
  rewrite Z.opp_involutive in E. exact E.
Qed.

(** Every non-zero integer is a signed positive. *)
Lemma signed_cases z : z = 0 \/ exists s n, z = signed s n /\ Z.pos n = Z.abs z.
Proof.
  destruct z as [| n | n]; [left; reflexivity | right | right].
  - exists false, n. split; reflexivity.
  - exists true, n. split; reflexivity.
Qed.

(** Addition and subtraction of safe integers whose result is safe are
    exact in binary64. *)
Lemma add_exact x y :
  safe_integer x -> safe_integer y -> safe_integer (x + y) ->
  add (of_Z x) (of_Z y) = of_Z (x + y).
Proof.
  unfold safe_integer. intros Hx Hy Hz.
  destruct (signed_cases x) as [-> | (sx & nx & -> & Hnx)];
    destruct (signed_cases y) as [-> | (sy & ny & -> & Hny)].
  - reflexivity.
  - rewrite Z.add_0_l, of_Z_signed by lia. reflexivity.
  - rewrite Z.add_0_r, of_Z_signed by lia. reflexivity.
  - rewrite !of_Z_signed by lia. apply add_finite; unfold safe_integer; lia.
Qed.

Lemma sub_exact x y :
  safe_integer x -> safe_integer y -> safe_integer (x - y) ->
  sub (of_Z x) (of_Z y) = of_Z (x - y).
Proof.
  unfold safe_integer. intros Hx Hy Hz.
  destruct (signed_cases x) as [-> | (sx & nx & -> & Hnx)];
    destruct (signed_cases y) as [-> | (sy & ny & -> & Hny)].
  - reflexivity.
  - rewrite of_Z_signed by lia.
    replace (0 - signed sy ny) with (signed (negb sy) ny) by (destruct sy; reflexivity).
    rewrite of_Z_signed by lia. reflexivity.
  - rewrite Z.sub_0_r, of_Z_signed by lia. reflexivity.
  - rewrite !of_Z_signed by lia. apply sub_finite; unfold safe_integer; lia.
Qed.


Lemma digits_mul x y :
  Z.pos (digits2_pos x) + Z.pos (digits2_pos y) - 1 <= Z.pos (digits2_pos (x * y)).
Proof.
  pose proof (digits_bounds x) as [Hx _]. pose proof (digits_bounds y) as [Hy _].
  pose proof (digits_bounds (x * y)) as [_ Hxy].
  set (dx := Z.pos (digits2_pos x)) in *. set (dy := Z.pos (digits2_pos y)) in *.
  set (d := Z.pos (digits2_pos (x * y))) in *.
  assert (Hd : 0 <= d) by (subst d; lia).
  assert (Hlow : 2 ^ (dx - 1 + (dy - 1)) <= Z.pos (x * y)).
  { rewrite Z.pow_add_r by (subst dx dy; lia). rewrite Pos2Z.inj_mul.
    apply Z.mul_le_mono_nonneg; try assumption; apply Z.pow_nonneg; lia. }
  assert (Hlt : 2 ^ (dx - 1 + (dy - 1)) < 2 ^ d) by lia.
  apply Z.pow_lt_mono_r_iff in Hlt; lia.
Qed.

Lemma mul_finite sx x sy y :
  Z.pos x * Z.pos y < 2 ^ 53 ->
  mul (normal sx x) (normal sy y) = normal (xorb sx sy) (x * y).
Proof.
  intros Hxy.
  assert (Hx : Z.pos x < 2 ^ 53) by nia.
  assert (Hy : Z.pos y < 2 ^ 53) by nia.
  pose proof (digits_safe x Hx) as Hdx. pose proof (digits_safe y Hy) as Hdy.
  pose proof (digits_mul x y) as Hd.
  set (r := normal (xorb sx sy) (x * y)).
  unfold mul, SFmul, normal. change prec with 53.
  set (dx := Z.pos (digits2_pos x)) in *. set (dy := Z.pos (digits2_pos y)) in *.
  replace (dx - 53 + (dy - 53)) with (- (53 - dx + (53 - dy))) by lia.
  subst r. apply round_aux_exact.
  - apply digits_safe. rewrite Pos2Z.inj_mul. exact Hxy.
  - lia.
  - rewrite !Pos2Z.inj_mul, !shifted_value by lia.
    rewrite Z.pow_add_r by lia. lia.
Qed.

(** Multiplying a safe integer by a positive one is exact in binary64
    when the product is safe. *)
Lemma mul_exact x y :
  0 < y -> safe_integer y -> safe_integer (x * y) ->
  mul (of_Z x) (of_Z y) = of_Z (x * y).
Proof.
  unfold safe_integer. intros Hy Hsy Hz.
  destruct y as [| ny | ny]; [lia | | lia].
  change (Z.pos ny) with (signed false ny).
  destruct (signed_cases x) as [-> | (sx & nx & -> & Hnx)].
  - rewrite of_Z_signed by (cbn [signed cond_Zopp] in Hsy; lia). reflexivity.
  - assert (Hp : Z.pos nx * Z.pos ny < 2 ^ 53).
    { destruct sx; cbn [signed cond_Zopp] in Hz; lia. }
    replace (signed sx nx * signed false ny) with (signed sx (nx * ny))
      by (destruct sx; reflexivity).
    rewrite !of_Z_signed by nia.
    rewrite mul_finite by exact Hp. destruct sx; reflexivity.
Qed.

(** Comparing the doubles of two positive integers compares the integers. *)
Lemma compare_exact x y :
  Z.pos x < 2 ^ 53 -> Z.pos y < 2 ^ 53 ->
  match Z.pos (digits2_pos x) - 53 ?= Z.pos (digits2_pos y) - 53 with
  | Lt => Lt
  | Gt => Gt
  | Eq => Pos.compare_cont Eq (shifted x (53 - Z.pos (digits2_pos x)))
                              (shifted y (53 - Z.pos (digits2_pos y)))
  end = (Z.pos x ?= Z.pos y).
Proof.
  intros Hx Hy.
  pose proof (digits_safe x Hx) as Hdx. pose proof (digits_safe y Hy) as Hdy.
  pose proof (digits_bounds x) as [Hxl Hxu]. pose proof (digits_bounds y) as [Hyl Hyu].
  set (dx := Z.pos (digits2_pos x)) in *. set (dy := Z.pos (digits2_pos y)) in *.
  assert (Hdx1 : 1 <= dx) by (subst dx; lia).
  assert (Hdy1 : 1 <= dy) by (subst dy; lia).
  destruct (Z.compare_spec (dx - 53) (dy - 53)) as [He | Hl | Hg].
  - replace dy with dx by lia.
    change (Pos.compare_cont Eq ?a ?b) with (Pos.compare a b).
    rewrite Pos2Z.inj_compare, !shifted_value by lia.
    assert (Hpow : 0 < 2 ^ (53 - dx)) by (apply Z.pow_pos_nonneg; lia).
    destruct (Z.compare_spec (Z.pos x) (Z.pos y)) as [E | L | G].
    + rewrite E. apply Z.compare_refl.
    + apply Z.compare_lt_iff. nia.
    + apply Z.compare_gt_iff. nia.
  - symmetry. apply Z.compare_lt_iff.
    assert (2 ^ dx <= 2 ^ (dy - 1)) by (apply Z.pow_le_mono_r; lia). lia.
  - symmetry. apply Z.compare_gt_iff.
    assert (2 ^ dy <= 2 ^ (dx - 1)) by (apply Z.pow_le_mono_r; lia). lia.
Qed.

(** Comparing the doubles of two safe integers compares the integers. *)
Lemma ltb_exact x y :
  safe_integer x -> safe_integer y -> ltb (of_Z x) (of_Z y) = (x <? y).
Proof.
  unfold safe_integer. intros Hx Hy.
  destruct (signed_cases x) as [-> | (sx & nx & -> & Hnx)];
    destruct (signed_cases y) as [-> | (sy & ny & -> & Hny)].
  - reflexivity.
  - rewrite of_Z_signed by lia. destruct sy; reflexivity.
  - rewrite of_Z_signed by lia. destruct sx; reflexivity.
  - rewrite !of_Z_signed by lia.
    unfold ltb, SFltb, normal, SFcompare. change prec with 53.
    destruct sx, sy; cbn [signed cond_Zopp Z.opp]; try reflexivity.
    + pose proof (compare_exact nx ny ltac:(lia) ltac:(lia)) as E.
      unfold Z.ltb.
      change (- Z.pos nx ?= - Z.pos ny) with (CompOpp (Z.pos nx ?= Z.pos ny)). revert E.
      destruct (Z.pos (digits2_pos nx) - 53 ?= Z.pos (digits2_pos ny) - 53);
        intros <-; reflexivity.
    + rewrite compare_exact by lia.
      unfold Z.ltb. destruct (Z.pos nx ?= Z.pos ny); reflexivity.
Qed.

End Binary64Spec.

(* ================================================================== *)
(** ** Properties of the credential manager *)
(* ================================================================== *)

Module SalesforceSpec.
Import JS Salesforce.

(** *** Laws of [sync] *)

Lemma sync_bind {A B : Type} (m : Async A) (K : A -> Async B) h :
  sync (bind m K) h =
  match sync m h with
  | (Settled (inr a), h') => sync (K a) h'
  | (Settled (inl e), h') => (Settled (inl e), h')
  | (s, h') => (extend (fun p => bind p K) s, h')
  end.
Proof.
  revert B K h. induction m; intros B K h; cbn [bind sync]; auto.
  destruct (sync m _) as [sb h1]. apply H.
Qed.

Lemma sync_settle {A : Type} (m : Async A) h :
  sync (settle m) h =
  match sync m h with
  | (Settled r, h') => (Settled (inr r), h')
  | (s, h') => (extend settle s, h')
  end.
Proof.
  revert h. induction m; intros h; cbn [settle sync]; auto.
  destruct (sync m _) as [sb h1]. apply H.
Qed.

Lemma sync_unsettle {A : Type} (r : thrown + A) h : sync (unsettle r) h = (Settled r, h).
Proof. destruct r; reflexivity. Qed.

Lemma sync_await_call {A : Type} (m : Async A) h :
  sync (await_call m) h =
  match sync m h with
  | (Settled r, h') => (OnCall (unsettle r), h')
  | (s, h') => (extend await_call s, h')
  end.
Proof.
  unfold await_call. rewrite sync_bind, sync_settle.
  destruct (sync m h) as [[p | r | p k | req k | res k | k] h']; reflexivity.
Qed.

Lemma sync_catch {A : Type} (m : Async A) handler h :
  sync (catch m handler) h =
  match sync m h with
  | (Settled (inr a), h') => (Settled (inr a), h')
  | (Settled (inl e), h') => sync (handler e) h'
  | (s, h') => (extend (fun p => catch p handler) s, h')
  end.
Proof.
  unfold catch. rewrite sync_bind, sync_settle.
  destruct (sync m h) as [[p | [e | a] | p k | req k | res k | k] h']; reflexivity.
Qed.

(** *** The promise table and the wire *)
Lemma first_ready_settled {A : Type} world h i (ss : list (suspended A)) :
  Forall is_settled ss -> first_ready world h i ss = None.
Proof.
  intros H. revert i. induction H as [| s ss [r ->] _ IH]; intros i; [reflexivity |].
  cbn. apply IH.
Qed.

Lemma first_ready_last {A : Type} world h (ss : list (suspended A)) s P :
  Forall is_settled ss -> next_prog world h s = Some P ->
  first_ready world h 0 (ss ++ [s]) = Some (length ss, P).
Proof.
  intros H HP.
  assert (G : forall i, first_ready world h i (ss ++ [s]) = Some ((i + length ss)%nat, P)).
  { induction H as [| s0 ss [r ->] _ IH]; intros i.
    - cbn. rewrite HP. f_equal. f_equal. lia.
    - cbn. rewrite IH. f_equal. f_equal. lia. }
  apply G.
Qed.

Lemma insert_last {A : Type} (l : list A) x y : <[length l := y]> (l ++ [x]) = l ++ [y].
Proof. induction l; cbn; [reflexivity |]. f_equal. exact IHl. Qed.

Lemma lookup_last {A : Type} (l : list A) x : (l ++ [x]) !! length l = Some x.
Proof. induction l; cbn; auto. Qed.

Lemma token_posts_snoc w url form :
  token_posts (w ++ [TokenPost url form]) = token_posts w ++ [TokenPost url form].
Proof. unfold token_posts. rewrite List.filter_app. reflexivity. Qed.

Lemma api_calls_snoc w url i hd :
  api_calls (w ++ [ApiFetch url i hd]) = api_calls w ++ [ApiFetch url i hd].
Proof. unfold api_calls. rewrite List.filter_app. reflexivity. Qed.

Lemma length_snoc_pred {A : Type} (l : list A) x : (length (l ++ [x]) - 1)%nat = length l.
Proof. rewrite length_app. cbn. lia. Qed.

Lemma Forall_settled_snoc {A : Type} (ss : list (suspended A)) r :
  Forall is_settled ss -> Forall is_settled (ss ++ [Settled r]).
Proof. intros H. apply Forall_app. split; [exact H |]. repeat constructor. eexists; reflexivity. Qed.

(** *** Turns of a machine with one caller *)
Lemma drive_S {A : Type} w f n (m : Machine A) :
  drive w (S f) n m = match turn w n m with Some m' => drive w f (S n) m' | None => m end.
Proof. reflexivity. Qed.

Lemma drive_stop {A : Type} w f n (m : Machine A) : turn w n m = None -> drive w f n m = m.
Proof. intros H. destruct f; [reflexivity |]. rewrite drive_S, H. reflexivity. Qed.

Lemma turn_caller {A : Type} world n h (s : suspended A) P :
  Forall is_settled (promises h) ->
  next_prog world (tick world n h) s = Some P ->
  turn world n (mkMachine h [s]) = Some (running (tick world n h) P).
Proof.
  intros Hps HP. unfold turn. cbn [elapse heap callers].
  change (with_now _ h) with (tick world n h).
  rewrite first_ready_settled by exact Hps.
  cbn [first_ready]. rewrite HP. unfold run_caller, running. cbn [heap callers].
  destruct (sync P _) as [s' h']. reflexivity.
Qed.

Lemma turn_arrow {A : Type} world n h ps sp P (cs : list (suspended A)) :
  promises h = ps ++ [sp] ->
  Forall is_settled ps ->
  next_prog world (tick world n h) sp = Some P ->
  turn world n (mkMachine h cs) =
    Some (run_arrow (length ps) P (mkMachine (tick world n h) cs)).
Proof.
  intros Hps Hset HP. unfold turn. cbn [elapse heap callers].
  change (with_now _ h) with (tick world n h).
  change (promises (tick world n h)) with (promises h). rewrite Hps.
  rewrite (first_ready_last _ _ _ _ _ Hset HP). reflexivity.
Qed.

Lemma turn_quiet {A : Type} world n h (r : thrown + A) :
  Forall is_settled (promises h) -> turn world n (mkMachine h [Settled r]) = None.
Proof.
  intros Hps. unfold turn. cbn [elapse heap callers].
  rewrite first_ready_settled by exact Hps. reflexivity.
Qed.

(** Heap updates written out field by field. *)
Ltac heap_norm :=
  unfold run_arrow, tick, with_now, with_promises, with_refreshing, with_wire, with_tokenCache;
  cbn [tokenCache refreshing now promises wire heap callers].

(** Every promise of the table has settled. *)
Ltac settled :=
  repeat first
    [ apply Forall_settled_snoc
    | apply List.Forall_nil
    | apply List.Forall_cons; [eexists; reflexivity |] ].

(** *** Counting the turns left *)

Lemma total_insert {A : Type} (ss : list (suspended A)) i s s' :
  ss !! i = Some s -> (weight s' < weight s)%nat ->
  (total (<[i := s']> ss) < total ss)%nat.
Proof.
  revert i. induction ss as [| x ss IH]; intros i Hi Hw; [discriminate |].
  destruct i as [| i]; cbn [total insert list_insert lookup list_lookup] in *.
  - injection Hi as ->. lia.
  - apply Nat.add_lt_mono_l. exact (IH i Hi Hw).
Qed.

Lemma unsettled_caller {A : Type} (ss : list (suspended A)) :
  forallb settledb ss = false -> exists i s, ss !! i = Some s /\ settledb s = false.
Proof.
  induction ss as [| x ss IH]; cbn; [discriminate |].
  destruct (settledb x) eqn:Hx; cbn.
  - intros H. destruct (IH H) as (i & s & Hi & Hs). exists (S i), s. auto.
  - intros _. exists 0%nat, x. auto.
Qed.

Lemma fresh_caller {A : Type} (ss : list (suspended A)) :
  forallb (fun s => negb (is_fresh s)) ss = false ->
  exists i p, ss !! i = Some (Fresh p).
Proof.
  induction ss as [| x ss IH]; cbn; [discriminate |].
  destruct x as [p | | | | |]; cbn; try (intros H; destruct (IH H) as (i & q & Hi); exists (S i), q; exact Hi).
  intros _. exists 0%nat, p. reflexivity.
Qed.

Section Programs.
Variable cfg : Config.
Variable parse : string -> thrown + SalesforceTokenResponse.

Local Abbreviation req_token := (TokenPost (token_url cfg) (token_form cfg)).

Lemma sync_accept res txt h :
  sync (accept_token_response cfg parse res txt) h =
  match accept_outcome cfg parse res txt (now h) with
  | inl e => (Settled (inl e), h)
  | inr c => (Settled (inr c), with_tokenCache (Some c) h)
  end.
Proof.
  unfold accept_token_response, accept_outcome.
  destruct (negb (ok res)); [reflexivity |].
  destruct (parse txt) as [e | data]; [reflexivity |]. cbn [unsettle bind].
  destruct (falsy (access_token data) || falsy (instance_url data)); reflexivity.
Qed.

Lemma sync_refresh_start c t ps w :
  sync (refreshAccessToken cfg parse) (mkHeap c None t ps w) =
  (OnPromise (length ps) k_finally,
   mkHeap c (Some (length ps)) t (ps ++ [OnFetch req_token (k_fetch cfg parse)]) (w ++ [req_token])).
Proof.
  cbn. unfold with_refreshing, with_promises, with_wire. cbn.
  rewrite insert_last. reflexivity.
Qed.

Lemma sync_refresh_join c p t ps w :
  sync (refreshAccessToken cfg parse) (mkHeap c (Some p) t ps w) =
  (OnPromise p unsettle, mkHeap c (Some p) t ps w).
Proof. reflexivity. Qed.

Lemma sync_k_finally r h :
  sync (k_finally r) h = (Settled r, with_refreshing None h).
Proof. destruct r; reflexivity. Qed.

Lemma sync_getAccessToken_valid c r t ps w :
  (expiresAt c >? t) = true ->
  sync (getAccessToken cfg parse) (mkHeap (Some c) r t ps w) =
  (Settled (inr c), mkHeap (Some c) r t ps w).
Proof. intros H. cbn. rewrite H. reflexivity. Qed.

Lemma sync_getAccessToken_invalid c r t ps w :
  valid_at c t = false ->
  sync (getAccessToken cfg parse) (mkHeap c r t ps w) =
  sync (await_call (refreshAccessToken cfg parse)) (mkHeap c r t ps w).
Proof.
  intros H. destruct c as [c |]; cbn in H |- *; [rewrite H |]; reflexivity.
Qed.

(** One round of the arrow function, for the caller that awaits it. *)
Lemma arrow_round {A : Type} world f n c r t ps w (kc : thrown + TokenCache -> Async A) res :
  Forall is_settled ps ->
  token_reply world (length (token_posts w)) = inr res ->
  let t2 := t + Z.of_N (delay world n) + Z.of_N (delay world (S n)) in
  let out := refresh_result cfg parse (inr res) t2 in
  drive world (S (S (S f))) n
    (mkMachine (mkHeap c r t (ps ++ [OnFetch req_token (k_fetch cfg parse)]) (w ++ [req_token]))
               [OnPromise (length ps) kc]) =
  drive world f (S (S (S n)))
    (running (mkHeap (match out with inr c' => Some c' | inl _ => c end) r
                     (t2 + Z.of_N (delay world (S (S n))))
                     (ps ++ [Settled out]) (w ++ [req_token]))
             (kc out)).
Proof.
  intros Hps Hreply t2 out.
  (* the network answers *)
  rewrite drive_S.
  erewrite turn_arrow; [| reflexivity | exact Hps |]; cycle 1.
  { cbn [next_prog reply_for]. heap_norm.
    rewrite token_posts_snoc, length_snoc_pred, Hreply. reflexivity. }
  heap_norm. unfold k_fetch at 1. cbn [unsettle bind await_text sync].
  heap_norm. rewrite insert_last.
  (* the body is read *)
  rewrite drive_S.
  erewrite turn_arrow; [| reflexivity | exact Hps |]; cycle 1.
  { cbn [next_prog wake_prog]. reflexivity. }
  heap_norm. subst out. unfold refresh_result. fold t2.
  destruct (text res) as [e | txt].
  - cbn [unsettle bind sync]. heap_norm. rewrite insert_last.
    rewrite drive_S. erewrite turn_caller; cycle 1.
    { cbn [promises]. apply Forall_settled_snoc. exact Hps. }
    { cbn [next_prog wake_prog]. heap_norm. rewrite lookup_last. reflexivity. }
    heap_norm. reflexivity.
  - cbn [unsettle bind]. rewrite sync_accept. cbn [now]. fold t2.
    destruct (accept_outcome cfg parse res txt t2) as [e | c'];
      heap_norm; rewrite insert_last;
      (rewrite drive_S; erewrite turn_caller; cycle 1;
       [ cbn [promises]; apply Forall_settled_snoc; exact Hps
       | cbn [next_prog wake_prog]; heap_norm; rewrite lookup_last; reflexivity
       | heap_norm; reflexivity ]).
Qed.

(** What the lone caller's next turn does. *)
Lemma seg_alone {A : Type} world f n c r t ps w (P : Async A) :
  Forall is_settled ps ->
  drive world (S f) n (alone (mkHeap c r t ps w) P) =
  drive world f (S n) (running (mkHeap c r (t + Z.of_N (delay world n)) ps w) P).
Proof.
  intros Hps. rewrite drive_S. unfold alone.
  erewrite turn_caller; [reflexivity | exact Hps | reflexivity].
Qed.

Lemma seg_call {A : Type} world f n c r t ps w (P : Async A) :
  Forall is_settled ps ->
  drive world (S f) n (mkMachine (mkHeap c r t ps w) [OnCall P]) =
  drive world f (S n) (running (mkHeap c r (t + Z.of_N (delay world n)) ps w) P).
Proof.
  intros Hps. rewrite drive_S.
  erewrite turn_caller; [reflexivity | exact Hps | reflexivity].
Qed.

Lemma seg_done {A : Type} world f n c r t ps w (x : thrown + A) :
  Forall is_settled ps ->
  drive world f n (running (mkHeap c r t ps w) (unsettle x)) =
  mkMachine (mkHeap c r t ps w) [Settled x].
Proof.
  intros Hps. unfold running. rewrite sync_unsettle.
  apply drive_stop, turn_quiet. exact Hps.
Qed.

Lemma run_get_valid {A : Type} c r t ps w (K : TokenCache -> Async A) :
  (expiresAt c >? t) = true ->
  running (mkHeap (Some c) r t ps w) (let* x := await_call (getAccessToken cfg parse) in K x) =
  mkMachine (mkHeap (Some c) r t ps w) [OnCall (K c)].
Proof.
  intros H. unfold running.
  rewrite sync_bind, sync_await_call, sync_getAccessToken_valid by exact H. reflexivity.
Qed.

Lemma run_get_invalid {A : Type} c t ps w (K : TokenCache -> Async A) :
  valid_at c t = false ->
  running (mkHeap c None t ps w) (let* x := await_call (getAccessToken cfg parse) in K x) =
  mkMachine (mkHeap c (Some (length ps)) t (ps ++ [OnFetch req_token (k_fetch cfg parse)]) (w ++ [req_token]))
    [OnPromise (length ps)
       (fun r => let* x := await_call (await_call (k_finally r)) in K x)].
Proof.
  intros H. unfold running.
  rewrite sync_bind, sync_await_call, sync_getAccessToken_invalid by exact H.
  rewrite sync_await_call, sync_refresh_start. reflexivity.
Qed.

Lemma run_force {A : Type} c t ps w (K : TokenCache -> Async A) :
  running (mkHeap c None t ps w) (let* x := await_call (refreshAccessToken cfg parse) in K x) =
  mkMachine (mkHeap c (Some (length ps)) t (ps ++ [OnFetch req_token (k_fetch cfg parse)]) (w ++ [req_token]))
    [OnPromise (length ps) (fun r => let* x := await_call (k_finally r) in K x)].
Proof.
  unfold running. rewrite sync_bind, sync_await_call, sync_refresh_start. reflexivity.
Qed.

(** [await refreshAccessToken()] with no refresh in flight and an issuer
    that grants: four turns later the caller goes on with the new
    credential. *)
Lemma seg_force {A : Type} world f n c t ps w (K : TokenCache -> Async A) res c' :
  Forall is_settled ps ->
  token_reply world (length (token_posts w)) = inr res ->
  refresh_result cfg parse (inr res)
    (t + Z.of_N (delay world n) + Z.of_N (delay world (S n))) = inr c' ->
  drive world (S (S (S (S f)))) n
    (running (mkHeap c None t ps w)
             (let* x := await_call (refreshAccessToken cfg parse) in K x)) =
  drive world f (S (S (S (S n))))
    (running (mkHeap (Some c') None
                (t + Z.of_N (delay world n) + Z.of_N (delay world (S n))
                 + Z.of_N (delay world (S (S n))) + Z.of_N (delay world (S (S (S n)))))
                (ps ++ [Settled (inr c')]) (w ++ [req_token]))
             (K c')).
Proof.
  intros Hps Hreply Hout.
  rewrite run_force, (arrow_round world (S f) n _ _ _ _ _ _ res Hps Hreply).
  cbn zeta. rewrite Hout.
  unfold running at 1. rewrite sync_bind, sync_await_call, sync_k_finally.
  cbn [extend]. heap_norm.
  rewrite seg_call by (apply Forall_settled_snoc; exact Hps).
  reflexivity.
Qed.

(** [await getAccessToken()] with an invalid cache, no refresh in flight
    and an issuer that grants: five turns. *)
Lemma seg_get {A : Type} world f n c t ps w (K : TokenCache -> Async A) res c' :
  Forall is_settled ps ->
  valid_at c t = false ->
  token_reply world (length (token_posts w)) = inr res ->
  refresh_result cfg parse (inr res)
    (t + Z.of_N (delay world n) + Z.of_N (delay world (S n))) = inr c' ->
  drive world (S (S (S (S (S f))))) n
    (running (mkHeap c None t ps w)
             (let* x := await_call (getAccessToken cfg parse) in K x)) =
  drive world f (S (S (S (S (S n)))))
    (running (mkHeap (Some c') None
                (t + Z.of_N (delay world n) + Z.of_N (delay world (S n))
                 + Z.of_N (delay world (S (S n))) + Z.of_N (delay world (S (S (S n))))
                 + Z.of_N (delay world (S (S (S (S n))))))
                (ps ++ [Settled (inr c')]) (w ++ [req_token]))
             (K c')).
Proof.
  intros Hps Hinv Hreply Hout.
  rewrite run_get_invalid by exact Hinv.
  rewrite (arrow_round world (S (S f)) n _ _ _ _ _ _ res Hps Hreply).
  cbn zeta. rewrite Hout.
  unfold running at 1. rewrite sync_bind, !sync_await_call, sync_k_finally.
  cbn [extend]. heap_norm.
  rewrite seg_call by (apply Forall_settled_snoc; exact Hps).
  unfold running at 1. rewrite sync_bind, sync_await_call. cbn [unsettle sync extend].
  rewrite seg_call by (apply Forall_settled_snoc; exact Hps).
  reflexivity.
Qed.

Lemma seg_fetch_api {A : Type} world f n c r t ps w u i hd (K : Response -> Async A) :
  Forall is_settled ps ->
  drive world (S f) n
    (running (mkHeap c r t ps w) (let* x := await_fetch (ApiFetch u i hd) in K x)) =
  drive world f (S n)
    (running (mkHeap c r (t + Z.of_N (delay world n)) ps (w ++ [ApiFetch u i hd]))
             (let* x := unsettle (api_reply world (length (api_calls w))) in K x)).
Proof.
  intros Hps. unfold running at 1. rewrite sync_bind. cbn [await_fetch sync extend].
  heap_norm. rewrite drive_S. erewrite turn_caller; [reflexivity | exact Hps |].
  cbn [next_prog reply_for]. heap_norm. rewrite api_calls_snoc, length_snoc_pred. reflexivity.
Qed.

Lemma seg_text {A : Type} world f n c r t ps w res handler (K : string -> Async A) :
  Forall is_settled ps ->
  drive world (S f) n
    (running (mkHeap c r t ps w) (let* x := catch (await_text res) handler in K x)) =
  drive world f (S n)
    (running (mkHeap c r (t + Z.of_N (delay world n)) ps w)
             (let* x := catch (unsettle (text res)) handler in K x)).
Proof.
  intros Hps. unfold running at 1. rewrite sync_bind, sync_catch. cbn [await_text sync extend].
  rewrite drive_S. erewrite turn_caller; [reflexivity | exact Hps | reflexivity].
Qed.

Lemma seg_return {A : Type} world f n c r t ps w (x : A) :
  Forall is_settled ps ->
  drive world f n (running (mkHeap c r t ps w) (Return x)) =
  mkMachine (mkHeap c r t ps w) [Settled (inr x)].
Proof. apply (seg_done world f n c r t ps w (inr x)). Qed.

Lemma seg_throw {A : Type} world f n c r t ps w e :
  Forall is_settled ps ->
  drive world f n (running (mkHeap c r t ps w) (@Throw A e)) =
  mkMachine (mkHeap c r t ps w) [Settled (inl e)].
Proof. apply (seg_done world f n c r t ps w (inl e)). Qed.

Lemma elapsed_3 world t : t + elapsed world 3 =
  t + Z.of_N (delay world 0) + Z.of_N (delay world 1) + Z.of_N (delay world 2).
Proof. cbn [elapsed]. lia. Qed.

(** From the API request of [sfFetch] to its return, when the response is
    not an authentication failure. *)
Ltac plain_tail Hapi Hauth res :=
    cbv beta zeta;
    rewrite seg_fetch_api by settled;
    cbn [app api_calls List.filter length is_token_post negb];
    rewrite Hapi; cbn [unsettle bind];
    match goal with |- context [negb ?a && ?b] => destruct (negb a && b) end;
    [ rewrite seg_text by settled;
      unfold auth_failure in Hauth;
      destruct (text res) as [? | ?]; cbn [catch unsettle settle bind];
      rewrite Hauth; rewrite seg_return by settled; split; reflexivity
    | rewrite seg_return by settled; split; reflexivity ].

(** C8: a call of [sfFetch] whose response is not classified as an
    authentication failure (any status other than 401, and a 403 whose
    body does not mention INVALID_SESSION_ID) returns that very response,
    and the request is the last thing it puts on the wire: no refresh and
    no retry follow it.  The only token POST there can be is the one that
    obtained the first credential, before the request. *)
Theorem other_errors_returned_unmodified world h0 path options fuel cache res :
  idle h0 ->
  first_credential cfg parse world h0 = inr cache ->
  api_reply world 0 = inr res ->
  auth_failure res = false ->
  (8 <= fuel)%nat ->
  let m := drive world fuel 0 (alone h0 (sfFetch cfg parse path options)) in
  result m = Some (inr res) /\
  wire (heap m) =
    first_wire cfg world h0 ++
    [ApiFetch (url_for cache path) (init options) (first_headers cache (headers options))].
Proof.
  intros (Hrefr & Hps & Hw) Hcred Hapi Hauth Hfuel m.
  destruct h0 as [c0 r0 t0 ps0 w0]. cbn in Hrefr, Hps, Hw. subst r0 ps0 w0.
  subst m.
  do 8 (destruct fuel as [| fuel]; [lia |]). clear Hfuel.
  unfold first_credential, first_wire, first_valid in *. cbn [tokenCache now] in *.
  unfold sfFetch. rewrite seg_alone by settled.
  destruct c0 as [c |]; [destruct (valid_at (Some c) _) eqn:Hv |].
  - (* cached credential still valid *)
    injection Hcred as <-. cbn [valid_at] in Hv.
    rewrite run_get_valid by exact Hv. rewrite seg_call by settled.
    plain_tail Hapi Hauth res.
  - (* cached credential expired: refresh first *)
    rewrite elapsed_3 in Hcred.
    destruct (token_reply world 0) as [e0 | res0] eqn:Hr0; [discriminate |].
    erewrite seg_get; [| settled | exact Hv | exact Hr0 | exact Hcred].
    plain_tail Hapi Hauth res.
  - (* no cached credential *)
    rewrite elapsed_3 in Hcred.
    destruct (token_reply world 0) as [e0 | res0] eqn:Hr0; [discriminate |].
    erewrite seg_get; [| settled | reflexivity | exact Hr0 | exact Hcred].
    plain_tail Hapi Hauth res.
Qed.

Lemma granted_result reply t tok url :
  granted parse reply = Some (tok, url) ->
  refresh_result cfg parse reply t =
    inr (mkTokenCache tok url (t + (assumedTtlSeconds - SKEW_SECONDS cfg) * 1000)).
Proof.
  unfold granted, refresh_result, accept_outcome.
  destruct reply as [e | res]; [discriminate |].
  destruct (text res) as [e | txt]; [discriminate |].
  destruct (ok res); [| discriminate]. cbn [negb].
  destruct (parse txt) as [e | data]; [discriminate |].
  destruct (access_token data) as [tok' |]; [| discriminate].
  destruct (instance_url data) as [url' |]; [| discriminate].
  cbn [falsy or_empty].
  destruct (is_empty tok' || is_empty url'); [discriminate |].
  intros [= -> ->]. reflexivity.
Qed.

Lemma isAuthFailure_status s b :
  isAuthFailure s b = true -> (s =? 401) || (s =? 403) = true.
Proof.
  unfold isAuthFailure. destruct (s =? 401); [reflexivity |].
  destruct (s =? 403); [reflexivity |]. discriminate.
Qed.

(** From the API request of [sfFetch] through the refresh and the retry;
    [Hc2] gives the refreshed credential and [Hv2] its validity when it
    is read back. *)
Ltac retry_tail Hapi Hauth Hcond Hgr cache2 Hc2 Hv2 res :=
    cbv beta zeta;
    rewrite seg_fetch_api by settled;
    cbn [app api_calls List.filter length is_token_post negb];
    rewrite Hapi; cbn [unsettle bind];
    rewrite Hcond;
    rewrite seg_text by settled;
    unfold auth_failure in Hauth;
    destruct (text res) as [? | ?]; cbn [catch unsettle settle bind];
    rewrite Hauth;
    (erewrite seg_force;
       [| settled
        | cbn [app token_posts List.filter length is_token_post]; eassumption
        | rewrite (granted_result _ _ _ _ Hgr); apply (f_equal inr);
          transitivity cache2;
          [ rewrite Hc2; f_equal; cbn [elapsed Nat.add]; lia | reflexivity ] ];
     rewrite run_get_valid
       by (rewrite Hc2; cbn [expiresAt]; rewrite <- Hv2;
           f_equal; cbn [elapsed Nat.add]; lia);
     rewrite seg_call by settled;
     cbv beta zeta;
     rewrite seg_fetch_api by settled;
     cbn [app api_calls List.filter length is_token_post negb];
     destruct (api_reply _ 1); cbn [unsettle bind];
     first [rewrite seg_return by settled | rewrite seg_throw by settled];
     subst cache2; repeat split; reflexivity).



(** A call of [sfFetch] without [noRetry] whose first response is an
    authentication failure, when the issuer grants the forced refresh and
    the refreshed credential is still valid when [getAccessToken] reads it
    back: the whole wire, the cache and the outcome. *)
Lemma retried_run world h0 path options fuel cache res tok2 url2 :
  idle h0 ->
  noRetry options = false ->
  first_credential cfg parse world h0 = inr cache ->
  api_reply world 0 = inr res ->
  auth_failure res = true ->
  granted parse (token_reply world (length (first_wire cfg world h0))) = Some (tok2, url2) ->
  valid_at (Some (forced_credential cfg world h0 tok2 url2)) (read_back_clock world h0) = true ->
  (14 <= fuel)%nat ->
  let m := drive world fuel 0 (alone h0 (sfFetch cfg parse path options)) in
  let cache2 := forced_credential cfg world h0 tok2 url2 in
  let headers1 := first_headers cache (headers options) in
  result m = Some (api_reply world 1) /\
  tokenCache (heap m) = Some cache2 /\
  wire (heap m) =
    first_wire cfg world h0 ++
    [ApiFetch (url_for cache path) (init options) headers1;
     TokenPost (token_url cfg) (token_form cfg);
     ApiFetch (url_for cache2 path) (init options)
              (<["Authorization" := "Bearer " +:+ tok2]> headers1)].
Proof.
  intros (Hrefr & Hps & Hw) HnoRetry Hcred Hapi Hauth Hgr Hv2 Hfuel m cache2 headers1.
  destruct h0 as [c0 r0 t0 ps0 w0]. cbn in Hrefr, Hps, Hw. subst r0 ps0 w0.
  subst m headers1.
  do 14 (destruct fuel as [| fuel]; [lia |]). clear Hfuel.
  assert (Hcond : negb (noRetry options) && ((status res =? 401) || (status res =? 403)) = true).
  { rewrite HnoRetry. cbn [negb andb]. eapply isAuthFailure_status. exact Hauth. }
  assert (Hc2 : cache2 = forced_credential cfg world (mkHeap c0 None t0 [] []) tok2 url2)
    by reflexivity.
  clearbody cache2.
  unfold forced_credential, read_back_clock, forced_clock, first_turns in Hc2, Hv2.
  unfold first_credential, first_wire, first_valid in *. cbn [tokenCache now] in *.
  cbn [valid_at expiresAt] in Hv2.
  unfold sfFetch. rewrite seg_alone by settled.
  destruct c0 as [c |]; [destruct (valid_at (Some c) _) eqn:Hv |].
  - (* cached credential still valid *)
    injection Hcred as <-. cbn [valid_at] in Hv. cbn [length] in Hgr.
    rewrite run_get_valid by exact Hv. rewrite seg_call by settled.
    destruct (token_reply world 0) as [e2 | res2] eqn:Hr2; [discriminate |].
    retry_tail Hapi Hauth Hcond Hgr cache2 Hc2 Hv2 res.
  - (* cached credential expired: refresh first *)
    rewrite elapsed_3 in Hcred. cbn [length] in Hgr.
    destruct (token_reply world 0) as [e0 | res0] eqn:Hr0; [discriminate |].
    erewrite seg_get; [| settled | exact Hv | exact Hr0 | exact Hcred].
    destruct (token_reply world 1) as [e2 | res2] eqn:Hr2; [discriminate |].
    retry_tail Hapi Hauth Hcond Hgr cache2 Hc2 Hv2 res.
  - (* no cached credential *)
    rewrite elapsed_3 in Hcred. cbn [valid_at length] in Hgr, Hc2, Hv2 |- *.
    destruct (token_reply world 0) as [e0 | res0] eqn:Hr0; [discriminate |].
    erewrite seg_get; [| settled | reflexivity | exact Hr0 | exact Hcred].
    destruct (token_reply world 1) as [e2 | res2] eqn:Hr2; [discriminate |].
    retry_tail Hapi Hauth Hcond Hgr cache2 Hc2 Hv2 res.
Qed.


(** The issuer cannot be reached: two turns. *)
Lemma arrow_unreachable {A : Type} world f n c r t ps w (kc : thrown + TokenCache -> Async A) e :
  Forall is_settled ps ->
  token_reply world (length (token_posts w)) = inl e ->
  drive world (S (S f)) n
    (mkMachine (mkHeap c r t (ps ++ [OnFetch req_token (k_fetch cfg parse)]) (w ++ [req_token]))
               [OnPromise (length ps) kc]) =
  drive world f (S (S n))
    (running (mkHeap c r (t + Z.of_N (delay world n) + Z.of_N (delay world (S n)))
                     (ps ++ [Settled (inl e)]) (w ++ [req_token]))
             (kc (inl e))).
Proof.
  intros Hps Hreply.
  rewrite drive_S.
  erewrite turn_arrow; [| reflexivity | exact Hps |]; cycle 1.
  { cbn [next_prog reply_for]. heap_norm.
    rewrite token_posts_snoc, length_snoc_pred, Hreply. reflexivity. }
  heap_norm. unfold k_fetch at 1. cbn [unsettle bind sync].
  heap_norm. rewrite insert_last.
  rewrite drive_S. erewrite turn_caller; cycle 1.
  { cbn [promises]. apply Forall_settled_snoc. exact Hps. }
  { cbn [next_prog wake_prog]. heap_norm. rewrite lookup_last. reflexivity. }
  heap_norm. reflexivity.
Qed.

(** [refreshAccessToken()] called alone on an idle module. *)
Lemma refresh_alone world c0 t0 fuel :
  (4 <= fuel)%nat ->
  let tw := t0 + elapsed world 3 in
  let out := refresh_result cfg parse (token_reply world 0) tw in
  drive world fuel 0 (alone (mkHeap c0 None t0 [] []) (refreshAccessToken cfg parse)) =
  mkMachine
    (mkHeap (match out with inr c => Some c | inl _ => c0 end) None
            (match token_reply world 0 with
             | inl _ => tw
             | inr _ => t0 + elapsed world 4
             end)
            [Settled out] [req_token])
    [Settled out].
Proof.
  intros Hfuel tw out. subst tw out. cbn [elapsed].
  do 4 (destruct fuel as [| fuel]; [lia |]). clear Hfuel.
  rewrite seg_alone by settled.
  unfold running at 1. rewrite sync_refresh_start.
  destruct (token_reply world 0) as [e | res] eqn:Hr.
  - rewrite (arrow_unreachable world (S fuel) 1 _ _ _ [] [] _ e) by (settled || exact Hr).
    unfold running. rewrite sync_k_finally. heap_norm. cbn [app refresh_result].
    rewrite drive_stop by (apply turn_quiet; settled).
    do 2 f_equal. lia.
  - rewrite (arrow_round world fuel 1 _ _ _ [] [] _ res) by (settled || exact Hr).
    cbn zeta. unfold running. rewrite sync_k_finally. heap_norm. cbn [app].
    rewrite drive_stop by (apply turn_quiet; settled).
    replace (t0 + (0 + Z.of_N (delay world 0) + Z.of_N (delay world 1) + Z.of_N (delay world 2)))
      with (t0 + Z.of_N (delay world 0) + Z.of_N (delay world 1) + Z.of_N (delay world 2)) by lia.
    do 2 f_equal. lia.
Qed.

Lemma refresh_result_failed reply t :
  refresh_failed parse reply = true -> exists e, refresh_result cfg parse reply t = inl e.
Proof.
  unfold refresh_failed, refresh_result, accept_outcome.
  destruct reply as [e | res]; [eauto |].
  destruct (text res) as [e | txt]; [eauto |].
  destruct (negb (ok res)); [eauto |]. cbn [orb].
  destruct (parse txt) as [e | data]; [eauto |].
  intros ->. eauto.
Qed.

Lemma refresh_result_ok reply t :
  refresh_failed parse reply = false ->
  exists tok url,
    refresh_result cfg parse reply t =
      inr (mkTokenCache tok url (t + (assumedTtlSeconds - SKEW_SECONDS cfg) * 1000)).
Proof.
  unfold refresh_failed, refresh_result, accept_outcome.
  destruct reply as [e | res]; [discriminate |].
  destruct (text res) as [e | txt]; [discriminate |].
  destruct (negb (ok res)); [discriminate |]. cbn [orb].
  destruct (parse txt) as [e | data]; [discriminate |].
  intros ->. eauto.
Qed.

(** C6: a call of [refreshAccessToken] whose refresh fails (issuer
    unreachable, body unreadable, status not ok, body malformed, or
    [access_token] or [instance_url] missing) raises an error and leaves
    [tokenCache] as it was; any other refresh returns the new credential
    and stores it. *)
Theorem failed_refresh_keeps_cache world h0 fuel :
  idle h0 ->
  (4 <= fuel)%nat ->
  let m := drive world fuel 0 (alone h0 (refreshAccessToken cfg parse)) in
  (refresh_failed parse (token_reply world 0) = true ->
     exists e, result m = Some (inl e) /\ tokenCache (heap m) = tokenCache h0) /\
  (refresh_failed parse (token_reply world 0) = false ->
     exists c, result m = Some (inr c) /\ tokenCache (heap m) = Some c).
Proof.
  intros (Hrefr & Hps & Hw) Hfuel m.
  destruct h0 as [c0 r0 t0 ps0 w0]. cbn in Hrefr, Hps, Hw. subst r0 ps0 w0.
  subst m. rewrite refresh_alone by exact Hfuel. cbn zeta. split; intros Hf.
  - destruct (refresh_result_failed _ (t0 + elapsed world 3) Hf) as (e & ->).
    exists e. split; reflexivity.
  - destruct (refresh_result_ok _ (t0 + elapsed world 3) Hf) as (tok & url & ->).
    eexists. split; reflexivity.
Qed.

Lemma elapsed_nonneg world n : 0 <= elapsed world n.
Proof. induction n; cbn [elapsed]; lia. Qed.

(** C7 (amended): the credential a successful refresh stores expires at
    the clock of its computation plus the assumed lifetime of ten minutes
    less the configured skew; with a skew that is a positive whole number
    of seconds (the default is 60) that is strictly before that clock plus
    the assumed lifetime, and so strictly before any later clock plus it.
    For such a skew the integers say what the code computes: on a clock in
    the range of [Date.now()] and a skew whose milliseconds are a safe
    integer, the expression of [computeExpiresAtConservative] evaluated on
    numbers is the number of the stored integer, without rounding, and it
    compares below the number the code would get for clock plus lifetime. *)
Theorem expiry_below_assumed_ttl world h0 fuel c :
  idle h0 ->
  (4 <= fuel)%nat ->
  0 < SKEW_SECONDS cfg ->
  let m := drive world fuel 0 (alone h0 (refreshAccessToken cfg parse)) in
  let computed := now h0 + elapsed world 3 in
  result m = Some (inr c) ->
  tokenCache (heap m) = Some c /\
  expiresAt c = computed + (assumedTtlSeconds - SKEW_SECONDS cfg) * 1000 /\
  expiresAt c < computed + assumedTtlSeconds * 1000 /\
  computed <= now (heap m) /\
  (0 <= computed <= Binary64.max_time_value ->
   Binary64.safe_integer (SKEW_SECONDS cfg * 1000) ->
   let stored :=
     Binary64.computeExpiresAtConservative64
       (Binary64.of_Z computed) (Binary64.of_Z assumedTtlSeconds)
       (Binary64.of_Z (SKEW_SECONDS cfg)) in
   let whole :=
     Binary64.add (Binary64.of_Z computed)
       (Binary64.mul (Binary64.of_Z assumedTtlSeconds) (Binary64.of_Z 1000)) in
   stored = Binary64.of_Z (expiresAt c) /\
   Binary64.ltb stored whole = true).
Proof.
  intros (Hrefr & Hps & Hw) Hfuel Hskew m computed.
  destruct h0 as [c0 r0 t0 ps0 w0]. cbn in Hrefr, Hps, Hw. subst r0 ps0 w0.
  subst m computed. rewrite refresh_alone by exact Hfuel. cbn zeta.
  cbn [result callers lookup list_lookup heap tokenCache now].
  destruct (refresh_failed parse (token_reply world 0)) eqn:Hf.
  - destruct (refresh_result_failed _ (t0 + elapsed world 3) Hf) as (e & ->). discriminate.
  - destruct (refresh_result_ok _ (t0 + elapsed world 3) Hf) as (tok & url & ->).
    intros [= <-]. cbn [expiresAt]. split; [reflexivity |]. split; [reflexivity |].
    split; [cbn [elapsed]; lia |].
    split.
    + destruct (token_reply world 0); [discriminate |].
      cbn [elapsed]. lia.
    + intros Hclock Hsafe. cbn [elapsed] in Hclock |- *.
      unfold Binary64.computeExpiresAtConservative64.
      unfold Binary64.max_time_value in Hclock.
      unfold Binary64.safe_integer in Hsafe.
      change assumedTtlSeconds with 600 in *.
      change (2 ^ 53) with 9007199254740992 in Hsafe.
      assert (Hs : forall z, Z.abs z < 9007199254740992 -> Binary64.safe_integer z)
        by (intros z Hz; exact Hz).
      set (computed := t0 + _) in *. clearbody computed.
      rewrite Binary64Spec.sub_exact by (apply Hs; lia).
      rewrite !Binary64Spec.mul_exact by (try apply Hs; lia).
      rewrite !Binary64Spec.add_exact by (apply Hs; lia).
      split; [reflexivity |].
      rewrite Binary64Spec.ltb_exact by (apply Hs; lia).
      apply Z.ltb_lt. lia.
Qed.

Lemma valid_at_later c t t' : valid_at c t = false -> t <= t' -> valid_at c t' = false.
Proof.
  destruct c as [c |]; cbn; [| reflexivity].
  intros H Hle.
  destruct (Z.gtb_spec (expiresAt c) t); [discriminate |].
  destruct (Z.gtb_spec (expiresAt c) t'); [lia | reflexivity].
Qed.

(** C10: once a call of [refreshAccessToken] has settled, with a
    credential or with an error, [refreshing] is null again, so that a
    later call of [getAccessToken] that finds the cache invalid does not
    reuse the settled promise: it starts a new refresh (a second promise)
    and sends a new POST to the token endpoint. *)
Theorem refreshing_reset_after_settle world h0 fuel :
  idle h0 ->
  (4 <= fuel)%nat ->
  let m := drive world fuel 0 (alone h0 (refreshAccessToken cfg parse)) in
  (exists r, result m = Some r) /\
  refreshing (heap m) = None /\
  forall dt,
    valid_at (tokenCache (heap m)) (now (heap m) + Z.of_N dt) = false ->
    let later := sync (getAccessToken cfg parse)
                      (with_now (now (heap m) + Z.of_N dt) (heap m)) in
    wire (snd later) = wire (heap m) ++ [req_token] /\
    refreshing (snd later) = Some 1%nat /\
    exists k, fst later = OnPromise 1 k.
Proof.
  intros (Hrefr & Hps & Hw) Hfuel m.
  destruct h0 as [c0 r0 t0 ps0 w0]. cbn in Hrefr, Hps, Hw. subst r0 ps0 w0.
  subst m. rewrite refresh_alone by exact Hfuel. cbn zeta.
  split; [eexists; reflexivity |]. split; [reflexivity |].
  intros dt Hinv. cbn [heap tokenCache now] in Hinv. heap_norm.
  rewrite sync_getAccessToken_invalid by exact Hinv.
  rewrite sync_await_call, sync_refresh_start. cbn [fst snd extend wire refreshing length].
  split; [reflexivity |]. split; [reflexivity |]. eexists. reflexivity.
Qed.

(** *** Single flight *)

Lemma sync_get_start c t :
  valid_at c t = false ->
  sync (getAccessToken cfg parse) (mkHeap c None t [] []) =
  (OnPromise 0 k_init,
   mkHeap c (Some 0%nat) t [OnFetch req_token (k_fetch cfg parse)] [req_token]).
Proof.
  intros H. rewrite sync_getAccessToken_invalid by exact H.
  rewrite sync_await_call, sync_refresh_start. reflexivity.
Qed.

Lemma sync_get_join c p t ps w :
  valid_at c t = false ->
  sync (getAccessToken cfg parse) (mkHeap c (Some p) t ps w) = (OnPromise p k_join, mkHeap c (Some p) t ps w).
Proof.
  intros H. rewrite sync_getAccessToken_invalid by exact H.
  rewrite sync_await_call, sync_refresh_join. reflexivity.
Qed.

Lemma sync_k_init r h : sync (k_init r) h = (OnCall (unsettle r), with_refreshing None h).
Proof. unfold k_init. rewrite sync_await_call, sync_k_finally. reflexivity. Qed.

Lemma sync_k_join r h : sync (k_join r) h = (OnCall (unsettle r), h).
Proof. unfold k_join. rewrite sync_await_call, sync_unsettle. reflexivity. Qed.

Section Episode.
Variable c0 : option TokenCache.
Variable t0 : Z.
Hypothesis c0_invalid : valid_at c0 t0 = false.

Local Abbreviation arrow_ok := (arrow_ok cfg parse c0).
Local Abbreviation caller_ok := (caller_ok cfg parse).
Local Abbreviation episode := (episode cfg parse c0 t0).

Lemma caller_ok_unsettled s0 s0' s :
  (forall r, s0 <> Settled r) -> caller_ok s0 s -> caller_ok s0' s.
Proof.
  intros Hns [| | | r Hr | r Hr]; try constructor; exfalso; exact (Hns r Hr).
Qed.

Lemma no_fresh_insert (cs : list (suspended TokenCache)) i s :
  is_fresh s = false ->
  some_fresh (<[i := s]> cs) -> some_fresh cs.
Proof.
  intros Hs (j & p & Hj). destruct (decide (i = j)) as [-> | Hne].
  - destruct (decide (j < length cs)%nat) as [Hlt | Hge].
    + rewrite list_lookup_insert_eq in Hj by exact Hlt. injection Hj as ->. discriminate.
    + rewrite list_insert_ge in Hj by lia. exists j, p. exact Hj.
  - rewrite list_lookup_insert_ne in Hj by exact Hne. exists j, p. exact Hj.
Qed.

Lemma all_entered_no_fresh (cs : list (suspended TokenCache)) :
  forallb (fun s => negb (is_fresh s)) cs = true -> ~ some_fresh cs.
Proof.
  intros H (j & p & Hj). rewrite forallb_forall in H.
  specialize (H (Fresh p)). cbn in H. assert (In (Fresh p) cs) as Hin.
  { apply list_elem_of_In. eapply list_elem_of_lookup_2. exact Hj. }
  specialize (H Hin). discriminate.
Qed.

(** The episode is preserved by every admissible step. *)
Lemma episode_step N m l m' :
  episode N m -> admissible m l = true -> step l m = Some m' -> episode N m'.
Proof.
  intros Hinv Hadm Hstep.
  destruct l as [dt | [i | p] | [i | p] reply]; cbn [step] in Hstep.
  - (* time passes *)
    injection Hstep as <-. destruct Hinv; unfold elapse; cbn [heap callers]; heap_norm.
    + apply episode_idle. lia.
    + apply episode_flight; rewrite ?length_insert; auto. lia.
  - (* a caller takes its turn *)
    destruct (callers m !! i) as [s |] eqn:Hs; [| discriminate]. cbn [mbind option_bind] in Hstep.
    destruct (wake_prog (heap m) s) as [prog |] eqn:Hw; [| discriminate].
    cbn [mbind option_bind] in Hstep. injection Hstep as <-.
    destruct Hinv as [t Ht | c r t s0 cs Hlen Ht Harr Hcs Hfresh]; cbn [heap callers] in *.
    + (* the first call *)
      apply lookup_replicate in Hs as [-> Hi]. cbn [wake_prog] in Hw. injection Hw as <-.
      unfold run_caller. cbn [heap callers].
      rewrite sync_get_start by (eapply valid_at_later; [exact c0_invalid | exact Ht]).
      apply episode_flight; [| exact Ht | constructor | | reflexivity].
      { rewrite length_insert, length_replicate. reflexivity. }
      apply Forall_insert; [| constructor].
      apply Forall_replicate. constructor.
    + pose proof (Forall_lookup_1 _ _ _ _ Hcs Hs) as Hok.
      unfold admissible in Hadm. cbn [callers] in Hadm. rewrite Hs in Hadm.
      destruct Hok as [| | | r' Hr' | r' Hr'].
      * (* a later call joins *)
        cbn [wake_prog] in Hw. injection Hw as <-.
        rewrite Hfresh in * by (exists i; eexists; exact Hs).
        unfold run_caller. cbn [heap callers].
        destruct (valid_at c t) eqn:Hv.
        -- inversion Harr; subst;
             try (rewrite (valid_at_later _ _ _ c0_invalid Ht) in Hv; discriminate).
           cbn [valid_at] in Hv. rewrite sync_getAccessToken_valid by exact Hv.
           apply episode_flight; rewrite ?length_insert; auto.
           ++ apply Forall_insert; [exact Hcs | constructor; reflexivity].
        -- rewrite sync_get_join by exact Hv.
           apply episode_flight; rewrite ?length_insert; auto.
           apply Forall_insert; [exact Hcs | constructor].
      * (* the caller that started the refresh resumes *)
        cbn [wake_prog promises lookup list_lookup] in Hw.
        destruct s0 as [| r0 | | | |]; try discriminate. injection Hw as <-.
        unfold run_caller. cbn [heap callers]. rewrite sync_k_init. heap_norm.
        apply episode_flight; rewrite ?length_insert; auto.
        ++ apply Forall_insert; [exact Hcs | constructor; reflexivity].
        ++ intros Hf. exfalso. apply (all_entered_no_fresh cs Hadm).
           eapply no_fresh_insert; [| exact Hf]. reflexivity.
      * (* a caller that joined resumes *)
        cbn [wake_prog promises lookup list_lookup] in Hw.
        destruct s0 as [| r0 | | | |]; try discriminate. injection Hw as <-.
        unfold run_caller. cbn [heap callers]. rewrite sync_k_join.
        apply episode_flight; rewrite ?length_insert; auto.
        ++ apply Forall_insert; [exact Hcs | constructor; reflexivity].
        ++ intros Hf. exfalso. apply (all_entered_no_fresh cs Hadm).
           eapply no_fresh_insert; [| exact Hf]. reflexivity.
      * (* back from the call *)
        cbn [wake_prog] in Hw. injection Hw as <-.
        unfold run_caller. cbn [heap callers]. rewrite sync_unsettle.
        apply episode_flight; rewrite ?length_insert; auto.
        ++ apply Forall_insert; [exact Hcs | constructor; exact Hr'].
        ++ intros Hf. exfalso. apply (all_entered_no_fresh cs Hadm).
           eapply no_fresh_insert; [| exact Hf]. reflexivity.
      * discriminate.
  - (* the arrow function takes its turn *)
    destruct Hinv as [t Ht | c r t s0 cs Hlen Ht Harr Hcs Hfresh]; cbn [heap callers promises] in *.
    + destruct p; discriminate.
    + destruct p as [| p]; [| destruct p; discriminate].
      cbn [lookup list_lookup mbind option_bind] in Hstep.
      destruct Harr as [| res | e | c']; cbn [wake_prog] in Hstep; try discriminate.
      injection Hstep as <-. unfold run_arrow. cbn [heap callers].
      assert (Hcs' : forall s0', Forall (caller_ok s0') cs).
      { intros s0'. eapply Forall_impl; [exact Hcs |].
        intros s. apply caller_ok_unsettled. intros r0; discriminate. }
      unfold k_text. destruct (text res) as [e | txt]; cbn [unsettle bind].
      * cbn [sync]. heap_norm. cbn [insert list_insert]. apply episode_flight; rewrite ?length_insert; auto. constructor.
      * rewrite sync_accept.
        destruct (accept_outcome cfg parse res txt _) as [e | c'];
          heap_norm; cbn [insert list_insert]; apply episode_flight; rewrite ?length_insert; auto; constructor.
  - (* no caller waits for the network *)
    destruct (callers m !! i) as [s |] eqn:Hs; [| discriminate]. cbn [mbind option_bind] in Hstep.
    destruct Hinv as [t Ht | c r t s0 cs Hlen Ht Harr Hcs Hfresh]; cbn [heap callers] in *.
    + apply lookup_replicate in Hs as [-> Hi]. discriminate.
    + pose proof (Forall_lookup_1 _ _ _ _ Hcs Hs) as Hok.
      destruct Hok; discriminate.
  - (* the issuer answers *)
    destruct Hinv as [t Ht | c r t s0 cs Hlen Ht Harr Hcs Hfresh]; cbn [heap callers promises] in *.
    + destruct p; discriminate.
    + destruct p as [| p]; [| destruct p; discriminate].
      cbn [lookup list_lookup mbind option_bind] in Hstep.
      destruct Harr as [| res | e | c']; cbn [deliver_prog] in Hstep; try discriminate.
      injection Hstep as <-. unfold run_arrow. cbn [heap callers].
      assert (Hcs' : forall s0', Forall (caller_ok s0') cs).
      { intros s0'. eapply Forall_impl; [exact Hcs |].
        intros s. apply caller_ok_unsettled. intros r0; discriminate. }
      unfold k_fetch. destruct reply as [e | res]; cbn [unsettle bind await_text sync];
        heap_norm; cbn [insert list_insert]; apply episode_flight; rewrite ?length_insert; auto; constructor.
Qed.

Lemma episode_exec N ls : forall m m',
  episode N m -> concurrent ls m = true -> exec ls m = Some m' -> episode N m'.
Proof.
  induction ls as [| l ls IH]; intros m m' Hinv Hconc Hexec.
  - injection Hexec as <-. exact Hinv.
  - cbn [exec concurrent] in *. apply andb_true_iff in Hconc as [Hadm Hrest].
    destruct (step l m) as [m1 |] eqn:Hstep; [| discriminate].
    cbn [mbind option_bind] in Hexec.
    eapply IH; [| exact Hrest | exact Hexec].
    eapply episode_step; eauto.
Qed.

(** Once the refresh has settled, a caller that has not finished can take
    a turn, and the turns left decrease. *)
Lemma settled_progress N c r t r0 cs :
  length cs = N ->
  t0 <= t ->
  arrow_ok (Settled r0) c ->
  Forall (caller_ok (Settled r0)) cs ->
  (some_fresh cs -> r = Some 0%nat) ->
  forallb settledb cs = false ->
  let m := mkMachine (mkHeap c r t [Settled r0] [TokenPost (token_url cfg) (token_form cfg)]) cs in
  exists l m',
    admissible m l = true /\ step l m = Some m' /\ (remaining m' < remaining m)%nat.
Proof.
  intros Hlen Ht Harr Hcs Hfresh Hun m.
  destruct (forallb (fun s => negb (is_fresh s)) cs) eqn:Hnf.
  - (* every caller has made its call: one that has not finished resumes *)
    destruct (unsettled_caller cs Hun) as (i & s & Hs & Hset).
    pose proof (Forall_lookup_1 _ _ _ _ Hcs Hs) as Hok.
    exists (Wake (Caller i)).
    assert (Hadm : admissible m (Wake (Caller i)) = true).
    { unfold admissible. cbn [callers m]. rewrite Hs, Hnf. destruct s; reflexivity. }
    destruct Hok as [| | | r' Hr' | r' Hr'].
    + exfalso. apply (all_entered_no_fresh cs Hnf). exists i. eexists. exact Hs.
    + eexists. split; [exact Hadm |]. split.
      * cbn [step callers heap m]. rewrite Hs. reflexivity.
      * unfold run_caller, remaining. subst m. cbn [heap callers]. rewrite sync_k_init. heap_norm.
        cbn [callers heap promises fst snd].
        apply Nat.add_lt_mono_r. eapply total_insert; [exact Hs | cbn; lia].
    + eexists. split; [exact Hadm |]. split.
      * cbn [step callers heap m]. rewrite Hs. reflexivity.
      * unfold run_caller, remaining. subst m. cbn [heap callers]. rewrite sync_k_join.
        cbn [callers heap promises fst snd].
        apply Nat.add_lt_mono_r. eapply total_insert; [exact Hs | cbn; lia].
    + eexists. split; [exact Hadm |]. split.
      * cbn [step callers heap m]. rewrite Hs. reflexivity.
      * unfold run_caller, remaining. subst m. cbn [heap callers]. rewrite sync_unsettle.
        cbn [callers heap promises fst snd].
        apply Nat.add_lt_mono_r. eapply total_insert; [exact Hs | cbn; lia].
    + discriminate.
  - (* a caller that has not made its call makes it *)
    destruct (fresh_caller cs Hnf) as (i & p & Hs).
    pose proof (Forall_lookup_1 _ _ _ _ Hcs Hs) as Hok.
    inversion Hok; subst p.
    assert (Hr : r = Some 0%nat) by (apply Hfresh; exists i; eexists; exact Hs).
    subst r.
    exists (Wake (Caller i)). eexists. split; [| split].
    + unfold admissible. cbn [callers m]. rewrite Hs. reflexivity.
    + cbn [step callers heap m]. rewrite Hs. reflexivity.
    + unfold run_caller, remaining. subst m. cbn [heap callers].
      destruct (valid_at c t) eqn:Hv.
      * inversion Harr; subst;
          try (rewrite (valid_at_later _ _ _ c0_invalid Ht) in Hv; discriminate).
        cbn [valid_at] in Hv. rewrite sync_getAccessToken_valid by exact Hv.
        cbn [callers heap promises fst snd].
        apply Nat.add_lt_mono_r. eapply total_insert; [exact Hs | cbn; lia].
      * rewrite sync_get_join by exact Hv.
        cbn [callers heap promises fst snd].
        apply Nat.add_lt_mono_r. eapply total_insert; [exact Hs | cbn; lia].
Qed.

(** As long as a caller has not settled, some turn is possible. *)
Lemma episode_progress N m (reply : thrown + Response) :
  episode N m ->
  forallb settledb (callers m) = false ->
  exists l m',
    admissible m l = true /\ step l m = Some m' /\ (remaining m' < remaining m)%nat.
Proof.
  intros Hep Hun.
  destruct Hep as [t Ht | c r t s0 cs Hlen Ht Harr Hcs Hfresh]; cbn [callers] in Hun.
  - (* nobody has called yet: the first caller calls *)
    destruct N as [| N]; [discriminate |].
    exists (Wake (Caller 0)). eexists. split; [reflexivity |]. split.
    + cbn [step callers heap replicate lookup list_lookup mbind option_bind wake_prog].
      unfold run_caller. cbn [heap callers].
      rewrite sync_get_start by (eapply valid_at_later; [exact c0_invalid | exact Ht]).
      reflexivity.
    + unfold remaining. cbn [callers heap promises insert list_insert replicate total weight].
      lia.
  - destruct Harr as [| res | e | c'].
    + (* the issuer answers *)
      exists (Deliver (Arrow 0) reply). eexists. split; [reflexivity |]. split.
      * cbn [step heap promises lookup list_lookup mbind option_bind deliver_prog]. reflexivity.
      * unfold run_arrow, remaining. cbn [heap callers].
        unfold k_fetch. destruct reply as [e | res]; cbn [unsettle bind await_text sync];
          heap_norm; cbn [insert list_insert total weight]; lia.
    + (* the body is read *)
      exists (Wake (Arrow 0)). eexists. split; [reflexivity |]. split.
      * cbn [step heap promises lookup list_lookup mbind option_bind wake_prog]. reflexivity.
      * unfold run_arrow, remaining. cbn [heap callers].
        unfold k_text. destruct (text res) as [e | txt]; cbn [unsettle bind].
        -- cbn [sync]. heap_norm. cbn [insert list_insert total weight]. lia.
        -- rewrite sync_accept.
           destruct (accept_outcome cfg parse res txt _) as [e | c'];
             heap_norm; cbn [insert list_insert total weight]; lia.
    + eapply settled_progress; eauto. constructor.
    + eapply settled_progress; eauto. constructor.
Qed.

Lemma all_settled_same (s0 : suspended TokenCache) cs r :
  s0 = Settled r -> Forall (caller_ok s0) cs -> forallb settledb cs = true ->
  cs = replicate (length cs) (Settled r).
Proof.
  intros -> Hcs. induction Hcs as [| s cs Hs Hcs IH]; cbn; [reflexivity |].
  intros H. apply andb_true_iff in H as [Hset Hall].
  rewrite <- IH by exact Hall.
  destruct Hs as [| | | r' Hr' | r' Hr']; try discriminate.
  injection Hr' as <-. reflexivity.
Qed.

(** Every episode can be run until all its callers have settled. *)
Lemma episode_complete (reply : thrown + Response) k : forall N m,
  (remaining m <= k)%nat -> episode N m ->
  exists ls m',
    exec ls m = Some m' /\ concurrent ls m = true /\ forallb settledb (callers m') = true.
Proof.
  induction k as [| k IH]; intros N m Hk Hep.
  - destruct (forallb settledb (callers m)) eqn:Hall.
    + exists [], m. auto.
    + destruct (episode_progress N m reply Hep Hall) as (l & m1 & _ & _ & Hlt). lia.
  - destruct (forallb settledb (callers m)) eqn:Hall.
    + exists [], m. auto.
    + destruct (episode_progress N m reply Hep Hall) as (l & m1 & Hadm & Hstep & Hlt).
      destruct (IH N m1) as (ls & m' & Hexec & Hconc & Hdone).
      { lia. }
      { eapply episode_step; eauto. }
      exists (l :: ls), m'. cbn [exec concurrent]. rewrite Hstep, Hadm.
      cbn [mbind option_bind andb]. auto.
Qed.

(** C1: when N callers call [getAccessToken] concurrently while the cache
    is invalid and no refresh is in flight, then at every point of the run,
    whatever the order of the turns, as soon as one caller has made its call
    exactly one POST to the token endpoint is on the wire and exactly one
    refresh exists; a caller that has settled has settled with the outcome
    of that refresh; and the run can always be carried on, whatever the
    issuer answers, until all N callers have settled with that one outcome,
    with still only the one POST sent. *)
Theorem single_flight N ls m :
  let start := mkMachine (mkHeap c0 None t0 [] []) (replicate N (Fresh (getAccessToken cfg parse))) in
  exec ls start = Some m ->
  concurrent ls start = true ->
  length (callers m) = N /\
  ((exists i s, callers m !! i = Some s /\ is_fresh s = false) ->
     wire (heap m) = [req_token] /\ length (promises (heap m)) = 1%nat) /\
  (forall i r, callers m !! i = Some (Settled r) ->
     promises (heap m) !! 0%nat = Some (Settled r)) /\
  (forall reply : thrown + Response, exists ls' m' r,
     exec ls' m = Some m' /\ concurrent ls' m = true /\
     callers m' = replicate N (Settled r) /\
     (N <> 0%nat -> wire (heap m') = [req_token] /\ promises (heap m') = [Settled r])).
Proof.
  intros start Hexec Hconc.
  assert (Hinv : episode N m).
  { eapply episode_exec; [| exact Hconc | exact Hexec]. apply episode_idle. lia. }
  split; [| split; [| split]].
  - destruct Hinv; cbn [callers]; [apply length_replicate | assumption].
  - destruct Hinv as [t Ht | c r t s0 cs Hlen Ht Harr Hcs Hfresh]; cbn [heap callers wire promises].
    + intros (i & s & Hs & Hnf). apply lookup_replicate in Hs as [-> _]. discriminate.
    + intros _. split; reflexivity.
  - destruct Hinv as [t Ht | c r t s0 cs Hlen Ht Harr Hcs Hfresh]; cbn [heap callers wire promises].
    + intros i r Hs. apply lookup_replicate in Hs as [Hs _]. discriminate.
    + intros i res Hs. pose proof (Forall_lookup_1 _ _ _ _ Hcs Hs) as Hok.
      inversion Hok; subst. reflexivity.
  - intros reply.
    destruct (episode_complete reply (remaining m) N m (Nat.le_refl _) Hinv)
      as (ls' & m' & Hexec' & Hconc' & Hdone).
    assert (Hinv' : episode N m').
    { eapply episode_exec; [exact Hinv | exact Hconc' | exact Hexec']. }
    exists ls', m'.
    destruct Hinv' as [t Ht | c r t s0 cs Hlen Ht Harr Hcs Hfresh]; cbn [heap callers wire promises] in *.
    + destruct N as [| N]; [| discriminate].
      exists (inl (ErrorObj EmptyString)). split; [exact Hexec' |]. split; [exact Hconc' |]. split; [reflexivity |]. intros H0; contradiction.
    + destruct cs as [| s cs].
      * cbn in Hlen. subst N. exists (inl (ErrorObj EmptyString)).
        split; [exact Hexec' |]. split; [exact Hconc' |]. split; [reflexivity |]. intros H0; contradiction.
      * pose proof (Forall_inv Hcs) as Hs.
        assert (Hset : settledb s = true).
        { cbn [forallb] in Hdone. apply andb_true_iff in Hdone as [H _]. exact H. }
        destruct Hs as [| | | r' Hr' | r' Hr']; try discriminate. subst s0.
        exists r'. split; [exact Hexec' |]. split; [exact Hconc' |]. split.
        -- rewrite <- Hlen. eapply all_settled_same; [reflexivity | exact Hcs | exact Hdone].
        -- intros _. split; reflexivity.
Qed.

End Episode.

End Programs.

(** *** The statements on sample runs *)

(** Three callers, resumed in an order of their own: one POST, one refresh. *)
Lemma single_flight_witness :
  wire (heap three_settled) = [TokenPost (token_url cfg_default) (token_form cfg_default)] /\
  length (promises (heap three_settled)) = 1%nat.
Proof.
  apply (single_flight cfg_default parse_sample None 1000 eq_refl 3 run_three three_settled).
  - vm_compute. reflexivity.
  - vm_compute. reflexivity.
  - exists 0%nat. eexists. split; reflexivity.
Defined.

(** A 500 is handed back as it is, after a single request. *)
Lemma other_errors_returned_unmodified_witness :
  let m := drive world_500 8 0 (alone heap_cached (sfFetch cfg_default parse_sample "/x" options_get)) in
  result m = Some (inr response_500) /\
  wire (heap m) =
    [ApiFetch "https://zero.example/x" (init options_get)
       (first_headers cache_zero (headers options_get))].
Proof.
  apply (other_errors_returned_unmodified cfg_default parse_sample world_500 heap_cached
           "/x" options_get 8 cache_zero response_500).
  - repeat split.
  - reflexivity.
  - reflexivity.
  - reflexivity.
  - lia.
Defined.



(** The issuer answers 400: the call raises and the cached credential stays. *)
Lemma failed_refresh_keeps_cache_witness :
  let m := drive world_issuer_down 4 0
             (alone heap_cached (refreshAccessToken cfg_default parse_sample)) in
  exists e, result m = Some (inl e) /\ tokenCache (heap m) = Some cache_zero.
Proof.
  apply (failed_refresh_keeps_cache cfg_default parse_sample world_issuer_down heap_cached 4).
  - repeat split.
  - lia.
  - reflexivity.
Defined.

(** With the default skew the credential computed at clock 1015 expires
    at 541015, in the integers and in binary64. *)
Lemma expiry_below_assumed_ttl_witness :
  let m := drive world_401_then_200 4 0
             (alone heap_empty (refreshAccessToken cfg_default parse_sample)) in
  tokenCache (heap m) = Some (cache_one 541015) /\
  expiresAt (cache_one 541015) = 1015 + (assumedTtlSeconds - 60) * 1000 /\
  expiresAt (cache_one 541015) < 1015 + assumedTtlSeconds * 1000 /\
  1015 <= now (heap m) /\
  Binary64.computeExpiresAtConservative64
    (Binary64.of_Z 1015) (Binary64.of_Z 600) (Binary64.of_Z 60) = Binary64.of_Z 541015 /\
  Binary64.ltb
    (Binary64.computeExpiresAtConservative64
       (Binary64.of_Z 1015) (Binary64.of_Z 600) (Binary64.of_Z 60))
    (Binary64.add (Binary64.of_Z 1015) (Binary64.mul (Binary64.of_Z 600) (Binary64.of_Z 1000)))
  = true.
Proof.
  destruct (expiry_below_assumed_ttl cfg_default parse_sample world_401_then_200 heap_empty 4
              (cache_one 541015)) as (H1 & H2 & H3 & H4 & H5).
  - repeat split.
  - lia.
  - reflexivity.
  - vm_compute. reflexivity.
  - destruct H5 as (H5 & H6).
    + vm_compute. split; discriminate.
    + vm_compute. reflexivity.
    + split; [exact H1 |]. split; [exact H2 |]. split; [exact H3 |].
      split; [exact H4 |]. split; [exact H5 | exact H6].
Defined.

(** C7 as stated fails.  With SF_TOKEN_SKEW_SECONDS set to 0 the stored
    expiry is the current time plus the whole assumed lifetime, not
    strictly less: in the run of the model, and in binary64.  And a skew
    can be positive and still be lost: with SF_TOKEN_SKEW_SECONDS set to
    1e-7, at midnight UTC of 2 November 2026, the sum is rounded to the
    clock plus the whole assumed lifetime. *)
Lemma zero_skew_expiry_not_below :
  (let m := drive world_instant 4 0
              (alone heap_empty (refreshAccessToken cfg_zero_skew parse_sample)) in
   result m = Some (inr (cache_one 601000)) /\
   tokenCache (heap m) = Some (cache_one 601000) /\
   now (heap m) = 1000 /\
   ~ expiresAt (cache_one 601000) < now (heap m) + assumedTtlSeconds * 1000) /\
  (let whole :=
     Binary64.add (Binary64.of_Z 1000)
       (Binary64.mul (Binary64.of_Z 600) (Binary64.of_Z 1000)) in
   let stored :=
     Binary64.computeExpiresAtConservative64
       (Binary64.of_Z 1000) (Binary64.of_Z 600) (Binary64.of_Z 0) in
   stored = Binary64.of_Z 601000 /\ Binary64.ltb stored whole = false) /\
  (let whole :=
     Binary64.add (Binary64.of_Z Binary64.clock_2026)
       (Binary64.mul (Binary64.of_Z 600) (Binary64.of_Z 1000)) in
   let stored :=
     Binary64.computeExpiresAtConservative64
       (Binary64.of_Z Binary64.clock_2026) (Binary64.of_Z 600) Binary64.skew_tiny in
   Binary64.ltb (Binary64.of_Z 0) Binary64.skew_tiny = true /\
   stored = Binary64.of_Z (Binary64.clock_2026 + 600000) /\
   stored = whole /\
   Binary64.ltb stored whole = false).
Proof.
  split; [| split].
  - vm_compute. repeat split; try reflexivity. discriminate.
  - vm_compute. split; reflexivity.
  - vm_compute. repeat split; reflexivity.
Qed.

(** After a failed refresh, the next call with an invalid cache starts another. *)
Lemma refreshing_reset_after_settle_witness :
  let m := drive world_issuer_down 4 0
             (alone heap_empty (refreshAccessToken cfg_default parse_sample)) in
  (exists r, result m = Some r) /\
  refreshing (heap m) = None /\
  forall dt,
    valid_at (tokenCache (heap m)) (now (heap m) + Z.of_N dt) = false ->
    let later := sync (getAccessToken cfg_default parse_sample)
                      (with_now (now (heap m) + Z.of_N dt) (heap m)) in
    wire (snd later) =
      wire (heap m) ++ [TokenPost (token_url cfg_default) (token_form cfg_default)] /\
    refreshing (snd later) = Some 1%nat /\
    exists k, fst later = OnPromise 1 k.
Proof.
  apply (refreshing_reset_after_settle cfg_default parse_sample world_issuer_down heap_empty 4).
  - repeat split.
  - lia.
Defined.

End SalesforceSpec.

(* ================================================================== *)
(** ** Paths of the job processor *)
(* ================================================================== *)

Module WorkerPaths.
Import JS Worker WorkerSpec WorkerCases.

Lemma get_present v k : nullish v = false -> get v k = inr (opt_get v k).
Proof. destruct v; intros H; try discriminate; reflexivity. Qed.

Lemma get_nullish v k : nullish v = true -> get v k = inl TypeError_nullish.
Proof. destruct v; intros H; try discriminate; reflexivity. Qed.

Lemma opt_get_nullish v k : nullish v = true -> opt_get v k = JUndefined.
Proof. destruct v; intros H; try discriminate; reflexivity. Qed.

Lemma js_or_nullish v w : nullish v = true -> js_or v w = w.
Proof. destruct v; intros H; try discriminate; reflexivity. Qed.

(** Only the branch whose literal equals the job's name runs. *)
Lemma handlers_slack_interaction env job t :
  name job = "slack-interaction"%string -> handlers env job t = slack_interaction env job t.
Proof.
  intros H. unfold handlers, bind, when. rewrite H. cbn [String.eqb Ascii.eqb Bool.eqb].
  destruct (slack_interaction env job t) as [[[] | v | e] t']; reflexivity.
Qed.

Lemma handlers_slack_command env job t :
  name job = "slack-command"%string -> handlers env job t = slack_command env job t.
Proof.
  intros H. unfold handlers, bind, when. rewrite H. cbn [String.eqb Ascii.eqb Bool.eqb ret].
  destruct (slack_command env job t) as [[[] | v | e] t']; reflexivity.
Qed.

Lemma handlers_verify_user env job t :
  name job = "verify-user"%string -> handlers env job t = verify_user env job t.
Proof.
  intros H. unfold handlers, bind, when. rewrite H. cbn [String.eqb Ascii.eqb Bool.eqb ret].
  destruct (verify_user env job t) as [[[] | v | e] t']; reflexivity.
Qed.

Lemma handlers_create_contact env job t :
  name job = "create-contact"%string -> handlers env job t = create_contact env job t.
Proof.
  intros H. unfold handlers, bind, when. rewrite H. cbn [String.eqb Ascii.eqb Bool.eqb ret].
  destruct (create_contact env job t) as [[[] | v | e] t']; reflexivity.
Qed.

Lemma handlers_create_case env job t :
  name job = "create-case"%string -> handlers env job t = create_case env job t.
Proof.
  intros H. unfold handlers, bind, when. rewrite H. cbn [String.eqb Ascii.eqb Bool.eqb ret].
  destruct (create_case env job t) as [[[] | v | e] t']; reflexivity.
Qed.

(** The opening write accepted: the rest of the execution in terms of what
    the handler branches did. *)
Lemma processor_after_started env job v0 :
  reply env 0 = inr v0 ->
  let pay := js_or (data job) (JObj []) in
  let started := audit_event env job "started" pay (inr v0) in
  exists evs c,
    handlers env job [started] = (c, started :: evs) /\
    match c with
    | Normal _ =>
        let r2 := reply env (S (length evs)) in
        let completed := audit_event env job "completed" pay r2 in
        match r2 with
        | inr _ =>
            processor env job =
              (ok_result env (S (S (length evs))), started :: evs ++ [completed])
        | inl e2 =>
            let r3 := reply env (S (S (length evs))) in
            processor env job =
              (inl (match r3 with inl e3 => e3 | inr _ => e2 end),
               started :: evs ++
                 [completed; audit_event env job "failed" (failed_payload job e2) r3])
        end
    | Returned rv => processor env job = (inr rv, started :: evs)
    | Threw e =>
        let r3 := reply env (S (length evs)) in
        processor env job =
          (inl (match r3 with inl e3 => e3 | inr _ => e end),
           started :: evs ++ [audit_event env job "failed" (failed_payload job e) r3])
    end.
Proof.
  intros Hr0 pay started.
  destruct (processor_run env job) as [(e & Hr & _) | (v & evs & c & Hr & Hh & _ & Hp)].
  { rewrite Hr0 in Hr. discriminate. }
  rewrite Hr0 in Hh, Hp. exists evs, c. split; [exact Hh |]. exact Hp.
Qed.

(** X1: a verify-user job whose payload has no [response_url] ends at the
    early [return]: the processor resolves with [undefined] after the
    [started] write alone.  No collaborator is called and no [completed] or
    [failed] entry is written. *)
Theorem verify_user_without_response_url env job v0 :
  name job = "verify-user"%string ->
  nullish (data job) = false ->
  truthy (opt_get (data job) "response_url") = false ->
  reply env 0 = inr v0 ->
  let started := audit_event env job "started" (js_or (data job) (JObj [])) (inr v0) in
  processor env job = (inr JUndefined, [started]) /\
  audit_rows (snd (processor env job)) =
    [[JStr "queue"; JStr "verify-user"; JStr "started";
      correlationId_of job (clock env 0); js_or (data job) (JObj [])]].
Proof.
  intros Hname Hdata Hurl Hr0 started.
  destruct (processor_after_started env job v0 Hr0) as (evs & c & Hh & Hp).
  fold started in Hh, Hp.
  rewrite (handlers_verify_user _ _ _ Hname) in Hh.
  unfold verify_user, bind in Hh. rewrite (get_present _ _ Hdata) in Hh. cbn [lift_get ret] in Hh.
  rewrite Hurl in Hh. cbn [negb return_] in Hh.
  injection Hh as <- Hevs.
  assert (evs = []) as -> by (destruct evs; [reflexivity | discriminate]).
  cbn zeta in Hp. rewrite Hp. split; [reflexivity |].
  cbn [snd]. subst started. unfold audit_event, audit_insert, audit_rows. cbn [flat_map app].
  rewrite Hname. reflexivity.
Qed.

(** X2: when Salesforce refuses a create-contact job ([success] falsy), the
    user is told through [response_url], with the reported error or
    [unknown error], and the processor resolves with [undefined]: the
    [started] row is the only audit row of the execution. *)
Theorem create_contact_refused_without_closing_entry env job v0 sfRes v2 :
  name job = "create-contact"%string ->
  nullish (data job) = false ->
  reply env 0 = inr v0 ->
  reply env 1 = inr sfRes ->
  nullish sfRes = false ->
  truthy (opt_get sfRes "success") = false ->
  truthy (opt_get (data job) "response_url") = true ->
  reply env 2 = inr v2 ->
  let started := audit_event env job "started" (js_or (data job) (JObj [])) (inr v0) in
  let text :=
    ("❌ We couldn't create your profile: "
     +:+ js_String (js_nullish (opt_get sfRes "error") (JStr "unknown error"))
     +:+ ". Please contact your account admin.")%string in
  exists request,
    processor env job =
      (inr JUndefined,
       [started;
        (SfCreateContact request, inr sfRes);
        (ReplyToResponseUrl (opt_get (data job) "response_url") (ephemeral text), inr v2)]) /\
    audit_rows (snd (processor env job)) = audit_rows [started].
Proof.
  intros Hname Hdata Hr0 Hr1 Hres Hsucc Hurl Hr2 started text.
  destruct (processor_after_started env job v0 Hr0) as (evs & c & Hh & Hp).
  fold started in Hh, Hp.
  rewrite (handlers_create_contact _ _ _ Hname) in Hh.
  unfold create_contact, bind, await in Hh. rewrite (get_present _ _ Hdata) in Hh.
  cbn [lift_get ret length] in Hh. rewrite Hr1 in Hh.
  rewrite (get_present _ _ Hres) in Hh. cbn [lift_get ret] in Hh.
  rewrite Hsucc in Hh. cbn [negb] in Hh. rewrite Hurl in Hh. unfold when in Hh.
  cbn [length app] in Hh. rewrite Hr2 in Hh. cbn [return_ ret] in Hh.
  injection Hh as <- Hevs. subst evs. cbn zeta in Hp.
  eexists. rewrite Hp. split; reflexivity.
Qed.

(** X3: when a handler raises and the [failed] write is itself rejected by
    the storage, the processor rejects with the storage's error, not the
    handler's, and no [failed] row is stored. *)
Theorem failed_write_error_replaces_original env job v0 evs err e3 :
  let pay := js_or (data job) (JObj []) in
  let started := audit_event env job "started" pay (inr v0) in
  reply env 0 = inr v0 ->
  handlers env job [started] = (Threw err, started :: evs) ->
  reply env (S (length evs)) = inl e3 ->
  processor env job =
    (inl e3,
     started :: evs ++ [audit_event env job "failed" (failed_payload job err) (inl e3)]) /\
  audit_rows (snd (processor env job)) =
    [[JStr "queue"; JStr (name job); JStr "started"; correlationId_of job (clock env 0); pay]].
Proof.
  intros pay started Hr0 Hh Hr3.
  destruct (processor_after_started env job v0 Hr0) as (evs' & c & Hh' & Hp).
  fold pay started in Hh', Hp. rewrite Hh in Hh'. injection Hh' as <- <-.
  cbn zeta in Hp. rewrite Hr3 in Hp. rewrite Hp. split; [reflexivity |].
  destruct (handlers_collab env job [started]) as (evs2 & Hsnd & Hall).
  rewrite Hh in Hsnd. cbn [snd app] in Hsnd. injection Hsnd as ->.
  cbn [snd].
  change (started :: evs2 ++ ?l) with ([started] ++ evs2 ++ l).
  rewrite !audit_rows_app, (audit_rows_collab evs2 Hall). reflexivity.
Qed.

(** X4: when the handlers finish but the [completed] write is rejected, the
    [catch] block records the execution as failed, with the storage's
    error message, and the processor rejects with that error although the
    handlers ran to their end. *)
Theorem completed_write_failure_fails_the_job env job v0 evs e2 v3 :
  let pay := js_or (data job) (JObj []) in
  let cid := correlationId_of job (clock env 0) in
  let started := audit_event env job "started" pay (inr v0) in
  reply env 0 = inr v0 ->
  handlers env job [started] = (Normal tt, started :: evs) ->
  reply env (S (length evs)) = inl e2 ->
  reply env (S (S (length evs))) = inr v3 ->
  processor env job =
    (inl e2,
     started :: evs ++
       [audit_event env job "completed" pay (inl e2);
        audit_event env job "failed" (failed_payload job e2) (inr v3)]) /\
  audit_rows (snd (processor env job)) =
    [[JStr "queue"; JStr (name job); JStr "started"; cid; pay];
     [JStr "queue"; JStr (name job); JStr "failed"; cid;
      JObj [("error", JStr (getErrorMessage e2)); ("originalPayload", pay)]]].
Proof.
  intros pay cid started Hr0 Hh Hr2 Hr3.
  destruct (processor_after_started env job v0 Hr0) as (evs' & c & Hh' & Hp).
  fold pay started in Hh', Hp. rewrite Hh in Hh'. injection Hh' as <- <-.
  cbn zeta in Hp. rewrite Hr2, Hr3 in Hp. rewrite Hp. split; [reflexivity |].
  destruct (handlers_collab env job [started]) as (evs2 & Hsnd & Hall).
  rewrite Hh in Hsnd. cbn [snd app] in Hsnd. injection Hsnd as ->.
  cbn [snd].
  change (started :: evs2 ++ ?l) with ([started] ++ evs2 ++ l).
  rewrite !audit_rows_app, (audit_rows_collab evs2 Hall). reflexivity.
Qed.

(** X5: a slack-interaction job with a bot token, a channel id and a message
    timestamp calls [slackUpdateMessage] exactly once, with that token,
    channel and timestamp and the fixed acknowledgement text, between the
    [started] and the [completed] write, and resolves with
    [{ok: true, processedAt}]. *)
Theorem click_acknowledged_once env job token v0 v1 v2 :
  let pay := js_or (data job) (JObj []) in
  let interaction := opt_get (data job) "payload" in
  let channel := opt_get (opt_get interaction "channel") "id" in
  let ts := opt_get (opt_get interaction "message") "ts" in
  name job = "slack-interaction"%string ->
  SLACK_BOT_TOKEN env = Some token ->
  is_empty token = false ->
  truthy channel = true ->
  truthy ts = true ->
  reply env 0 = inr v0 ->
  reply env 1 = inr v1 ->
  reply env 2 = inr v2 ->
  processor env job =
    (ok_result env 3,
     [audit_event env job "started" pay (inr v0);
      (SlackUpdateMessage token channel ts click_text, inr v1);
      audit_event env job "completed" pay (inr v2)]).
Proof.
  intros pay interaction channel ts Hname Htok Hne Hch Hts Hr0 Hr1 Hr2.
  destruct (processor_after_started env job v0 Hr0) as (evs & c & Hh & Hp).
  fold pay in Hh, Hp.
  rewrite (handlers_slack_interaction _ _ _ Hname) in Hh.
  unfold slack_interaction, bind, requireEnv_SLACK_BOT_TOKEN, await in Hh.
  rewrite Htok, Hne in Hh. cbn [ret] in Hh.
  fold interaction in Hh. fold channel ts in Hh. rewrite Hch, Hts in Hh.
  cbn [negb orb length app] in Hh. rewrite Hr1 in Hh. cbn [ret] in Hh.
  injection Hh as <- Hevs. subst evs. cbn zeta in Hp. cbn [length] in Hp.
  rewrite Hr2 in Hp. exact Hp.
Qed.

(** X6: without a SLACK_BOT_TOKEN (unset or empty) a slack-interaction job
    fails before its payload is looked at and before any Slack call: the
    trace is the [started] write and the [failed] write, and the error is
    the one of [requireEnv]. *)
Theorem missing_token_fails_before_any_call env job v0 v1 :
  let pay := js_or (data job) (JObj []) in
  let err := ErrorObj "Missing SLACK_BOT_TOKEN in environment variables" in
  name job = "slack-interaction"%string ->
  token_missing env = true ->
  reply env 0 = inr v0 ->
  reply env 1 = inr v1 ->
  processor env job =
    (inl err,
     [audit_event env job "started" pay (inr v0);
      audit_event env job "failed" (failed_payload job err) (inr v1)]).
Proof.
  intros pay err Hname Htok Hr0 Hr1.
  destruct (processor_after_started env job v0 Hr0) as (evs & c & Hh & Hp).
  fold pay in Hh, Hp.
  rewrite (handlers_slack_interaction _ _ _ Hname) in Hh.
  unfold slack_interaction, bind, requireEnv_SLACK_BOT_TOKEN in Hh.
  unfold token_missing in Htok.
  assert (Hh' : (Threw err, [audit_event env job "started" pay (inr v0)]) =
                (c, audit_event env job "started" pay (inr v0) :: evs)).
  { destruct (SLACK_BOT_TOKEN env) as [v |]; [rewrite Htok in Hh |]; exact Hh. }
  injection Hh' as <- Hevs.
  assert (evs = []) as -> by (destruct evs; [reflexivity | discriminate]).
  cbn zeta in Hp. cbn [length app] in Hp. rewrite Hr1 in Hp. exact Hp.
Qed.

(** X7: a slack-command job without a payload fails with [Missing payload on
    slack-command job]; with a payload whose command is neither
    [/create-case] nor [/raise-case] it is completed without any
    collaborator call; with one of these two commands
    [handleCreateCaseCommand] is called exactly once, with the job and the
    payload. *)
Theorem slash_command_dispatch env job v0 :
  let pay := js_or (data job) (JObj []) in
  let cmdPayload := opt_get (data job) "payload" in
  let started := audit_event env job "started" pay (inr v0) in
  name job = "slack-command"%string ->
  reply env 0 = inr v0 ->
  (truthy cmdPayload = false ->
     forall v1, reply env 1 = inr v1 ->
     let err := ErrorObj "Missing payload on slack-command job" in
     processor env job =
       (inl err, [started; audit_event env job "failed" (failed_payload job err) (inr v1)])) /\
  (truthy cmdPayload = true -> opens_case cmdPayload = false ->
     forall v1, reply env 1 = inr v1 ->
     processor env job =
       (ok_result env 2, [started; audit_event env job "completed" pay (inr v1)])) /\
  (truthy cmdPayload = true -> opens_case cmdPayload = true ->
     forall v1 v2, reply env 1 = inr v1 -> reply env 2 = inr v2 ->
     processor env job =
       (ok_result env 3,
        [started; (HandleCreateCaseCommand job cmdPayload, inr v1);
         audit_event env job "completed" pay (inr v2)])).
Proof.
  intros pay cmdPayload started Hname Hr0.
  destruct (processor_after_started env job v0 Hr0) as (evs & c & Hh & Hp).
  fold pay started in Hh, Hp.
  rewrite (handlers_slack_command _ _ _ Hname) in Hh.
  unfold slack_command in Hh. fold cmdPayload in Hh.
  split; [| split].
  - intros Hfalsy v1 Hr1. rewrite Hfalsy in Hh. cbn [negb throw] in Hh.
    injection Hh as <- Hevs.
    assert (evs = []) as -> by (destruct evs; [reflexivity | discriminate]).
    cbn zeta in Hp. cbn [length app] in Hp. rewrite Hr1 in Hp. exact Hp.
  - intros Htruthy Hcmd v1 Hr1. rewrite Htruthy in Hh. cbn [negb] in Hh.
    unfold opens_case in Hcmd. rewrite Hcmd in Hh. cbn [when ret] in Hh.
    injection Hh as <- Hevs.
    assert (evs = []) as -> by (destruct evs; [reflexivity | discriminate]).
    cbn zeta in Hp. cbn [length app] in Hp. rewrite Hr1 in Hp. exact Hp.
  - intros Htruthy Hcmd v1 v2 Hr1 Hr2. rewrite Htruthy in Hh. cbn [negb] in Hh.
    unfold opens_case in Hcmd. rewrite Hcmd in Hh. unfold when, bind, await in Hh.
    cbn [length app] in Hh. rewrite Hr1 in Hh. cbn [ret] in Hh.
    injection Hh as <- Hevs. subst evs.
    cbn zeta in Hp. cbn [length app] in Hp. rewrite Hr2 in Hp. exact Hp.
Qed.

Lemma registered_cases n :
  registered n = true ->
  n = "slack-interaction"%string \/ n = "slack-command"%string \/ n = "verify-user"%string \/
  n = "create-contact"%string \/ n = "create-case"%string.
Proof.
  unfold registered, registered_names. cbn [existsb]. intros H.
  repeat (apply orb_true_iff in H; destruct H as [H | H]);
    try (apply String.eqb_eq in H; auto 6).
  discriminate.
Qed.

(** Every handler branch throws on a payload that is [null] or
    [undefined], before it awaits anything. *)
Lemma handlers_nullish env job t :
  nullish (data job) = true -> registered (name job) = true ->
  exists err, handlers env job t = (Threw err, t).
Proof.
  intros Hnull Hreg.
  destruct (registered_cases _ Hreg) as [Hn | [Hn | [Hn | [Hn | Hn]]]].
  - rewrite (handlers_slack_interaction _ _ _ Hn).
    unfold slack_interaction, bind, requireEnv_SLACK_BOT_TOKEN.
    rewrite (opt_get_nullish (data job) _ Hnull). cbn [opt_get truthy negb orb].
    destruct (SLACK_BOT_TOKEN env) as [v |]; [destruct (is_empty v) |]; eexists; reflexivity.
  - rewrite (handlers_slack_command _ _ _ Hn).
    unfold slack_command. rewrite (opt_get_nullish (data job) _ Hnull). eexists; reflexivity.
  - rewrite (handlers_verify_user _ _ _ Hn).
    unfold verify_user, bind. rewrite (get_nullish _ _ Hnull). eexists; reflexivity.
  - rewrite (handlers_create_contact _ _ _ Hn).
    unfold create_contact, bind. rewrite (get_nullish _ _ Hnull). eexists; reflexivity.
  - rewrite (handlers_create_case _ _ _ Hn).
    unfold create_case, bind. rewrite (get_nullish _ _ Hnull). eexists; reflexivity.
Qed.

(** X8: a job of a registered name whose payload is [null] or [undefined]
    fails inside its handler before anything is awaited there: the trace is
    the [started] write, with payload [{}], followed by the [failed] write
    whose [originalPayload] is [{}]. *)
Theorem null_payload_never_reaches_a_collaborator env job v0 v1 :
  let started := audit_event env job "started" (JObj []) (inr v0) in
  nullish (data job) = true ->
  registered (name job) = true ->
  reply env 0 = inr v0 ->
  reply env 1 = inr v1 ->
  exists err,
    processor env job =
      (inl err,
       [started;
        audit_event env job "failed"
          (JObj [("error", JStr (getErrorMessage err)); ("originalPayload", JObj [])])
          (inr v1)]).
Proof.
  intros started Hnull Hreg Hr0 Hr1.
  destruct (processor_after_started env job v0 Hr0) as (evs & c & Hh & Hp).
  rewrite (js_or_nullish _ (JObj []) Hnull) in Hh, Hp. fold started in Hh, Hp.
  destruct (handlers_nullish env job [started] Hnull Hreg) as (err & Herr).
  rewrite Herr in Hh. injection Hh as <- Hevs.
  assert (evs = []) as -> by (destruct evs; [reflexivity | discriminate]).
  cbn zeta in Hp. cbn [length app] in Hp. rewrite Hr1 in Hp.
  exists err. rewrite Hp. unfold failed_payload.
  rewrite (js_or_nullish _ (JObj []) Hnull). reflexivity.
Qed.

(** *** The statements on sample jobs *)

(** A verify-user job without [response_url]: the [started] write and nothing else. *)
Lemma verify_user_without_response_url_witness :
  processor env_ok job_verify_silent =
    (inr JUndefined,
     [audit_event env_ok job_verify_silent "started" (data job_verify_silent) (inr JNull)]).
Proof.
  exact (proj1 (verify_user_without_response_url env_ok job_verify_silent JNull
                  eq_refl eq_refl eq_refl eq_refl)).
Defined.

(** A refused create-contact job leaves the [started] row alone. *)
Lemma create_contact_refused_without_closing_entry_witness :
  audit_rows (snd (processor env_contact_refused job_contact)) =
    [[JStr "queue"; JStr "create-contact"; JStr "started"; JStr "job-12-1000"; data job_contact]].
Proof.
  destruct (create_contact_refused_without_closing_entry env_contact_refused job_contact
              JNull (JObj [("success", JBool false); ("error", JStr "DUPLICATE")]) JNull
              eq_refl eq_refl eq_refl eq_refl eq_refl eq_refl eq_refl eq_refl)
    as (request & _ & Hrows).
  exact Hrows.
Defined.

(** The click handler raises and the storage rejects the [failed] write. *)
Lemma failed_write_error_replaces_original_witness :
  processor env_second_rejected job_click =
    (inl storage_error,
     [audit_event env_second_rejected job_click "started" (data job_click) (inr JNull);
      audit_event env_second_rejected job_click "failed"
        (failed_payload job_click
           (ErrorObj "Missing channel.id or message.ts in interaction payload"))
        (inl storage_error)]).
Proof.
  exact (proj1 (failed_write_error_replaces_original env_second_rejected job_click JNull []
                  (ErrorObj "Missing channel.id or message.ts in interaction payload")
                  storage_error eq_refl eq_refl eq_refl)).
Defined.

(** A no-op job whose [completed] write is rejected ends as failed. *)
Lemma completed_write_failure_fails_the_job_witness :
  processor env_second_rejected job_noop =
    (inl storage_error,
     [audit_event env_second_rejected job_noop "started" (JObj []) (inr JNull);
      audit_event env_second_rejected job_noop "completed" (JObj []) (inl storage_error);
      audit_event env_second_rejected job_noop "failed"
        (failed_payload job_noop storage_error) (inr JNull)]).
Proof.
  exact (proj1 (completed_write_failure_fails_the_job env_second_rejected job_noop JNull []
                  storage_error JNull eq_refl eq_refl eq_refl eq_refl)).
Defined.

(** A click on channel C1 is acknowledged. *)
Lemma click_acknowledged_once_witness :
  processor env_ok job_ack =
    (ok_result env_ok 3,
     [audit_event env_ok job_ack "started" (data job_ack) (inr JNull);
      (SlackUpdateMessage "xoxb-1" (JStr "C1") (JStr "171.5") click_text, inr JNull);
      audit_event env_ok job_ack "completed" (data job_ack) (inr JNull)]).
Proof.
  exact (click_acknowledged_once env_ok job_ack "xoxb-1" JNull JNull JNull
           eq_refl eq_refl eq_refl eq_refl eq_refl eq_refl eq_refl eq_refl).
Defined.

(** The same click without a bot token. *)
Lemma missing_token_fails_before_any_call_witness :
  fst (processor env_no_token job_ack) =
    inl (ErrorObj "Missing SLACK_BOT_TOKEN in environment variables") /\
  length (snd (processor env_no_token job_ack)) = 2%nat.
Proof.
  rewrite (missing_token_fails_before_any_call env_no_token job_ack JNull JNull
             eq_refl eq_refl eq_refl eq_refl).
  split; reflexivity.
Defined.

(** [/status] is completed without any call. *)
Lemma slash_command_dispatch_witness :
  processor env_ok (job_command "/status") =
    (ok_result env_ok 2,
     [audit_event env_ok (job_command "/status") "started" (data (job_command "/status")) (inr JNull);
      audit_event env_ok (job_command "/status") "completed" (data (job_command "/status")) (inr JNull)]).
Proof.
  exact (proj1 (proj2 (slash_command_dispatch env_ok (job_command "/status") JNull
                         eq_refl eq_refl))
           eq_refl eq_refl JNull eq_refl).
Defined.

(** A create-case job with a [null] payload. *)
Lemma null_payload_never_reaches_a_collaborator_witness :
  exists err,
    processor env_ok (job_null "create-case") =
      (inl err,
       [audit_event env_ok (job_null "create-case") "started" (JObj []) (inr JNull);
        audit_event env_ok (job_null "create-case") "failed"
          (JObj [("error", JStr (getErrorMessage err)); ("originalPayload", JObj [])])
          (inr JNull)]).
Proof.
  exact (null_payload_never_reaches_a_collaborator env_ok (job_null "create-case") JNull JNull
           eq_refl eq_refl eq_refl eq_refl).
Defined.

End WorkerPaths.

(* ================================================================== *)
(** ** Refresh outcomes and [sfFetch] without a credential *)
(* ================================================================== *)

Module SalesforceMore.
Import JS Salesforce SalesforceSpec SalesforceApi.

Lemma append_cons a (s t : string) : String a s +:+ t = String a (s +:+ t).
Proof. reflexivity. Qed.

Lemma append_nil (t : string) : EmptyString +:+ t = t.
Proof. reflexivity. Qed.

Lemma prefix_append (p s : string) : String.prefix p s = true <-> exists post, s = p +:+ post.
Proof.
  revert s. induction p as [| a p IH]; intros s.
  - split; [intros _; exists s; reflexivity | intros _; destruct s; reflexivity].
  - destruct s as [| b s]; cbn [String.prefix].
    + split; [discriminate | intros (post & H); discriminate].
    + destruct (Ascii.ascii_dec a b) as [-> | Hne].
      * rewrite IH. split; intros (post & H); exists post.
        -- rewrite append_cons, H. reflexivity.
        -- rewrite append_cons in H. injection H as ->. reflexivity.
      * split; [discriminate | intros (post & H)].
        rewrite append_cons in H. injection H as -> _. contradiction.
Qed.

Lemma includes_occurs hay needle : includes hay needle = true <-> occurs_in needle hay.
Proof.
  induction hay as [| a hay IH].
  - cbn [includes]. rewrite orb_false_r, prefix_append. split.
    + intros (post & H). exists EmptyString, post. exact H.
    + intros (pre & post & H). destruct pre; [exists post; exact H |].
      rewrite append_cons in H. discriminate.
  - cbn [includes]. rewrite orb_true_iff, IH, prefix_append. split.
    + intros [(post & H) | (pre & post & H)].
      * exists EmptyString, post. exact H.
      * exists (String a pre), post. rewrite H. reflexivity.
    + intros (pre & post & H). destruct pre as [| b pre].
      * left. exists post. exact H.
      * right. rewrite append_cons in H. injection H as -> ->. exists pre, post. reflexivity.
Qed.

(** X9: [isAuthFailure] holds exactly for status 401, and for status 403
    with a body text in which INVALID_SESSION_ID occurs; a 403 without a
    body text is not an authentication failure. *)
Theorem isAuthFailure_exactly status bodyText :
  isAuthFailure status bodyText = true <->
  status = 401 \/
  (status = 403 /\ exists body, bodyText = Some body /\ occurs_in "INVALID_SESSION_ID" body).
Proof.
  unfold isAuthFailure.
  destruct (Z.eqb_spec status 401) as [-> | H401].
  { split; auto. }
  destruct (Z.eqb_spec status 403) as [-> | H403]; cbn [andb].
  - destruct bodyText as [body |].
    + destruct (includes body "INVALID_SESSION_ID") eqn:Hinc.
      * split; [| reflexivity]. intros _. right. split; [reflexivity |].
        exists body. split; [reflexivity |]. apply includes_occurs. exact Hinc.
      * split; [discriminate |]. intros [H | (_ & b & [= <-] & Hocc)]; [lia |].
        apply includes_occurs in Hocc. congruence.
    + split; [discriminate |]. intros [H | (_ & b & Hb & _)]; [lia | discriminate].
  - split; [discriminate |]. intros [H | (H & _)]; contradiction.
Qed.

(** X10: [sfRestPath] puts exactly one slash between the versioned prefix and
    the relative path: a relative path written without a leading slash
    gives the same result as the one written with it. *)
Theorem sfRestPath_one_slash cfg relative :
  String.prefix "/" relative = false ->
  sfRestPath cfg relative = ("/services/data/v" +:+ SF_API_VERSION cfg +:+ "/" +:+ relative)%string /\
  sfRestPath cfg ("/" +:+ relative) = sfRestPath cfg relative.
Proof.
  intros H. unfold sfRestPath. rewrite H. split; [reflexivity |].
  assert (Hp : String.prefix "/" ("/" +:+ relative) = true).
  { apply prefix_append. exists relative. reflexivity. }
  rewrite Hp. reflexivity.
Qed.

Section Refresh.
Variable cfg : Config.
Variable parse : string -> thrown + SalesforceTokenResponse.

(** X11: a refresh the issuer grants sends one form-encoded POST to
    [SF_LOGIN_URL/services/oauth2/token] carrying the refresh-token grant
    with the configured client id, client secret and refresh token, and
    returns and caches a credential whose token and instance url are the
    response's [access_token] and [instance_url]. *)
Theorem refresh_stores_granted_credential world h0 fuel tok url :
  idle h0 ->
  (4 <= fuel)%nat ->
  granted parse (token_reply world 0) = Some (tok, url) ->
  let m := drive world fuel 0 (alone h0 (refreshAccessToken cfg parse)) in
  let c := mkTokenCache tok url
             (now h0 + elapsed world 3 + (assumedTtlSeconds - SKEW_SECONDS cfg) * 1000) in
  result m = Some (inr c) /\
  tokenCache (heap m) = Some c /\
  refreshing (heap m) = None /\
  wire (heap m) =
    [TokenPost (SF_LOGIN_URL cfg +:+ "/services/oauth2/token")
       [("grant_type", "refresh_token"); ("client_id", SF_CLIENT_ID cfg);
        ("client_secret", SF_CLIENT_SECRET cfg); ("refresh_token", SF_REFRESH_TOKEN cfg)]].
Proof.
  intros (Hrefr & Hps & Hw) Hfuel Hgr m c.
  destruct h0 as [c0 r0 t0 ps0 w0]. cbn in Hrefr, Hps, Hw. subst r0 ps0 w0.
  subst m. rewrite refresh_alone by exact Hfuel. cbn zeta.
  rewrite (granted_result cfg parse _ _ _ _ Hgr). fold c.
  repeat split; reflexivity.
Qed.

(** X12: a failing refresh raises the error of the first stage that fails: a
    rejection of [fetch] or of [text()] as it is; for a status that is not
    ok the [Salesforce token refresh failed] error carrying status and
    body, whether or not the body is JSON; then the error of
    [JSON.parse]; then the [missing fields] error carrying the body. *)
Theorem refresh_error_by_stage world h0 fuel :
  idle h0 ->
  (4 <= fuel)%nat ->
  let m := drive world fuel 0 (alone h0 (refreshAccessToken cfg parse)) in
  (forall e, token_reply world 0 = inl e -> result m = Some (inl e)) /\
  (forall res e, token_reply world 0 = inr res -> text res = inl e ->
     result m = Some (inl e)) /\
  (forall res txt, token_reply world 0 = inr res -> text res = inr txt -> ok res = false ->
     result m =
       Some (inl (ErrorObj ("Salesforce token refresh failed (" +:+ decimal (status res)
                            +:+ "): " +:+ txt)))) /\
  (forall res txt e, token_reply world 0 = inr res -> text res = inr txt -> ok res = true ->
     parse txt = inl e -> result m = Some (inl e)) /\
  (forall res txt data, token_reply world 0 = inr res -> text res = inr txt -> ok res = true ->
     parse txt = inr data ->
     falsy (access_token data) || falsy (instance_url data) = true ->
     result m =
       Some (inl (ErrorObj ("Salesforce token response missing fields: " +:+ txt)))).
Proof.
  intros (Hrefr & Hps & Hw) Hfuel m.
  destruct h0 as [c0 r0 t0 ps0 w0]. cbn in Hrefr, Hps, Hw. subst r0 ps0 w0.
  subst m. rewrite refresh_alone by exact Hfuel. cbn zeta.
  unfold result. cbn [callers lookup list_lookup].
  unfold refresh_result, accept_outcome.
  repeat split.
  - intros e ->. reflexivity.
  - intros res e -> ->. reflexivity.
  - intros res txt -> -> ->. reflexivity.
  - intros res txt e -> -> -> ->. reflexivity.
  - intros res txt data -> -> -> -> ->. reflexivity.
Qed.

(** X13: after a successful refresh, a call of [getAccessToken] made at
    any later time before [expiresAt] settles at once with the cached
    credential and leaves the module state, the promise table and the
    wire untouched. *)
Theorem refreshed_credential_is_reused world h0 fuel c (dt : N) :
  idle h0 ->
  (4 <= fuel)%nat ->
  let m := drive world fuel 0 (alone h0 (refreshAccessToken cfg parse)) in
  let later := with_now (now (heap m) + Z.of_N dt) (heap m) in
  result m = Some (inr c) ->
  now (heap m) + Z.of_N dt < expiresAt c ->
  sync (getAccessToken cfg parse) later = (Settled (inr c), later).
Proof.
  intros (Hrefr & Hps & Hw) Hfuel m later.
  destruct h0 as [c0 r0 t0 ps0 w0]. cbn in Hrefr, Hps, Hw. subst r0 ps0 w0.
  subst later m. rewrite refresh_alone by exact Hfuel. cbn zeta.
  unfold result. cbn [callers lookup list_lookup heap now].
  destruct (refresh_result cfg parse (token_reply world 0) (t0 + elapsed world 3)) as [e | c'];
    [discriminate |].
  intros [= ->] Hlt. heap_norm.
  apply sync_getAccessToken_valid. apply Z.gtb_lt. lia.
Qed.

End Refresh.

(** What [first_headers] holds: the caller's headers where given, the two
    defaults elsewhere. *)
Lemma first_headers_lookup cache extra k :
  first_headers cache extra !! k =
    match extra ≫= (.!! k) with
    | Some v => Some v
    | None =>
        if String.eqb k "Authorization" then Some ("Bearer " +:+ accessToken cache)
        else if String.eqb k "Content-Type" then Some "application/json"%string
        else None
    end.
Proof.
  unfold first_headers. rewrite lookup_union.
  assert (Hex : default ∅ extra !! k = extra ≫= (.!! k)).
  { destruct extra as [ex |]; cbn [default from_option mbind option_bind]; unfold id.
    - reflexivity.
    - apply lookup_empty. }
  rewrite Hex. clear Hex. destruct (extra ≫= (.!! k)) as [v |].
  - destruct (_ !! k); reflexivity.
  - destruct (String.eqb_spec k "Authorization") as [-> | Hka].
    + rewrite lookup_insert_eq. reflexivity.
    + rewrite lookup_insert_ne by congruence.
      destruct (String.eqb_spec k "Content-Type") as [-> | Hkc].
      * rewrite lookup_insert_eq. reflexivity.
      * rewrite lookup_insert_ne by congruence. rewrite lookup_empty. reflexivity.
Qed.

(** X14: the headers of the two API requests a retried call of [sfFetch]
    puts on the wire.  The first request carries every header the caller
    gave, [Authorization] and [Content-Type] included, and the two
    defaults (the bearer token of the first credential, application/json)
    only where the caller gave none; the retry carries the same headers
    except [Authorization], which is the refreshed bearer token whatever
    the caller gave.  Method and body are those of the caller both times. *)
Theorem retry_overrides_authorization cfg parse world h0 path options fuel cache res tok2 url2 :
  idle h0 ->
  noRetry options = false ->
  first_credential cfg parse world h0 = inr cache ->
  api_reply world 0 = inr res ->
  auth_failure res = true ->
  granted parse (token_reply world (length (first_wire cfg world h0))) = Some (tok2, url2) ->
  valid_at (Some (forced_credential cfg world h0 tok2 url2)) (read_back_clock world h0) = true ->
  (14 <= fuel)%nat ->
  let m := drive world fuel 0 (alone h0 (sfFetch cfg parse path options)) in
  let given := fun k : string => headers options ≫= (.!! k) in
  exists u1 u2 hd1 hd2,
    api_calls (wire (heap m)) =
      [ApiFetch u1 (init options) hd1; ApiFetch u2 (init options) hd2] /\
    hd1 !! "Authorization" =
      Some (default ("Bearer " +:+ accessToken cache) (given "Authorization"%string)) /\
    hd1 !! "Content-Type" =
      Some (default "application/json"%string (given "Content-Type"%string)) /\
    (forall k, k <> "Authorization"%string -> k <> "Content-Type"%string ->
               hd1 !! k = given k) /\
    hd2 !! "Authorization" = Some ("Bearer " +:+ tok2) /\
    (forall k, k <> "Authorization"%string -> hd2 !! k = hd1 !! k).
Proof.
  intros Hidle HnoRetry Hcred Hapi Hauth Hgr Hv2 Hfuel m given.
  destruct (retried_run cfg parse world h0 path options fuel cache res tok2 url2
              Hidle HnoRetry Hcred Hapi Hauth Hgr Hv2 Hfuel) as (_ & _ & Hwire).
  subst m. rewrite Hwire. clear Hwire.
  exists (url_for cache path), (url_for (forced_credential cfg world h0 tok2 url2) path).
  eexists. eexists. split.
  { unfold first_wire. destruct (first_valid world h0); reflexivity. }
  subst given. cbv beta.
  split; [| split; [| split; [| split]]].
  - rewrite first_headers_lookup.
    destruct (headers options ≫= (.!! "Authorization")); reflexivity.
  - rewrite first_headers_lookup.
    destruct (headers options ≫= (.!! "Content-Type")); reflexivity.
  - intros k Hka Hkc. rewrite first_headers_lookup.
    destruct (headers options ≫= (.!! k)); [reflexivity |].
    destruct (String.eqb_spec k "Authorization"); [contradiction |].
    destruct (String.eqb_spec k "Content-Type"); [contradiction |].
    reflexivity.
  - apply lookup_insert_eq.
  - intros k Hk. apply lookup_insert_ne. congruence.
Qed.

Section Failing.
Variable cfg : Config.
Variable parse : string -> thrown + SalesforceTokenResponse.

Local Abbreviation req_token := (TokenPost (token_url cfg) (token_form cfg)).

Lemma refresh_error_result reply e t :
  refresh_error cfg parse reply = Some e -> refresh_result cfg parse reply t = inl e.
Proof.
  unfold refresh_error, refresh_result, accept_outcome.
  destruct reply as [e0 | res]; [congruence |].
  destruct (text res) as [e0 | txt]; [congruence |].
  destruct (negb (ok res)); [congruence |].
  destruct (parse txt) as [e0 | data]; [congruence |].
  destruct (falsy (access_token data) || falsy (instance_url data)); [congruence | discriminate].
Qed.

(** The in-flight refresh fails: the caller that awaits it is resumed with
    the error, and the cache keeps its value. *)
Lemma arrow_fails {A : Type} world f n c r t ps w (kc : thrown + TokenCache -> Async A) e :
  Forall is_settled ps ->
  refresh_error cfg parse (token_reply world (length (token_posts w))) = Some e ->
  exists k t',
    (k <= 3)%nat /\
    drive world (3 + f) n
      (mkMachine (mkHeap c r t (ps ++ [OnFetch req_token (k_fetch cfg parse)]) (w ++ [req_token]))
                 [OnPromise (length ps) kc]) =
    drive world (3 - k + f) (n + k)
      (running (mkHeap c r t' (ps ++ [Settled (inl e)]) (w ++ [req_token])) (kc (inl e))).
Proof.
  intros Hps Herr.
  destruct (token_reply world (length (token_posts w))) as [e0 | res] eqn:Hr.
  - exists 2%nat. eexists. split; [lia |].
    change (3 + f)%nat with (S (S (S f))).
    rewrite (arrow_unreachable cfg parse world (S f) n _ _ _ _ _ _ e0 Hps Hr).
    cbn in Herr. injection Herr as ->.
    replace (n + 2)%nat with (S (S n)) by lia. reflexivity.
  - exists 3%nat. eexists. split; [lia |].
    change (3 + f)%nat with (S (S (S f))).
    rewrite (arrow_round cfg parse world f n _ _ _ _ _ _ res Hps Hr). cbn zeta.
    rewrite (refresh_error_result _ _ _ Herr).
    replace (n + 3)%nat with (S (S (S n))) by lia. reflexivity.
Qed.

(** A rejection travels up through [return refreshAccessToken()] and
    [await getAccessToken()], one turn each; the [finally] block runs on
    the way. *)
Lemma get_rejected_tail {A : Type} world f n c r t ps w (K : TokenCache -> Async A) e :
  Forall is_settled ps ->
  drive world (S (S f)) n
    (running (mkHeap c r t ps w)
       (let* x := await_call (await_call (k_finally (inl e))) in K x)) =
  mkMachine (mkHeap c None (t + Z.of_N (delay world n) + Z.of_N (delay world (S n))) ps w)
            [Settled (inl e)].
Proof.
  intros Hps.
  unfold running at 1. rewrite sync_bind, !sync_await_call, sync_k_finally.
  cbn [extend]. heap_norm.
  rewrite seg_call by exact Hps.
  unfold running at 1. rewrite sync_bind, sync_await_call. cbn [unsettle sync extend].
  rewrite seg_call by exact Hps. cbn [unsettle bind].
  rewrite seg_throw by exact Hps. reflexivity.
Qed.

Lemma force_rejected_tail {A : Type} world f n c r t ps w (K : TokenCache -> Async A) e :
  Forall is_settled ps ->
  drive world (S f) n
    (running (mkHeap c r t ps w) (let* x := await_call (k_finally (inl e)) in K x)) =
  mkMachine (mkHeap c None (t + Z.of_N (delay world n)) ps w) [Settled (inl e)].
Proof.
  intros Hps.
  unfold running at 1. rewrite sync_bind, sync_await_call, sync_k_finally.
  cbn [extend]. heap_norm.
  rewrite seg_call by exact Hps. cbn [unsettle bind].
  rewrite seg_throw by exact Hps. reflexivity.
Qed.

Lemma first_credential_failed world c0 t0 e :
  first_credential cfg parse world (mkHeap c0 None t0 [] []) = inl e ->
  valid_at c0 (t0 + Z.of_N (delay world 0)) = false /\
  refresh_error cfg parse (token_reply world 0) = Some e.
Proof.
  unfold first_credential, first_valid. cbn [tokenCache now].
  assert (G : forall t, refresh_result cfg parse (token_reply world 0) t = inl e ->
                        refresh_error cfg parse (token_reply world 0) = Some e).
  { intros t H. unfold refresh_error.
    destruct (refresh_result cfg parse (token_reply world 0) 0) as [e' | c'] eqn:H0.
    - rewrite (refresh_error_result (token_reply world 0) e' t) in H by (unfold refresh_error; rewrite H0; reflexivity).
      congruence.
    - exfalso. revert H H0. unfold refresh_result, accept_outcome.
      destruct (token_reply world 0) as [? | res]; [discriminate |].
      destruct (text res); [discriminate |].
      destruct (negb (ok res)); [discriminate |].
      destruct (parse _); [discriminate |].
      destruct (falsy _ || falsy _); discriminate. }
  destruct c0 as [c |]; [destruct (valid_at (Some c) _) eqn:Hv; [discriminate |] |];
    intros H; (split; [reflexivity || exact Hv | exact (G _ H)]).
Qed.

(** [await refreshAccessToken()] with no refresh in flight and an issuer
    whose answer is not accepted: the caller is rejected with the error of
    the refresh, and the cache keeps its value. *)
Lemma seg_force_failed {A : Type} world f n c t ps w (K : TokenCache -> Async A) e :
  Forall is_settled ps ->
  refresh_error cfg parse (token_reply world (length (token_posts w))) = Some e ->
  exists t',
    drive world (4 + f) n
      (running (mkHeap c None t ps w)
               (let* x := await_call (refreshAccessToken cfg parse) in K x)) =
    mkMachine (mkHeap c None t' (ps ++ [Settled (inl e)]) (w ++ [req_token])) [Settled (inl e)].
Proof.
  intros Hps Herr. rewrite run_force.
  match goal with |- context [mkMachine _ [OnPromise _ ?kc]] =>
    destruct (arrow_fails world (S f) n c (Some (length ps)) t ps w kc e Hps Herr)
      as (k & t' & Hk & Heq)
  end.
  change (4 + f)%nat with (3 + S f)%nat. rewrite Heq. clear Heq.
  replace (3 - k + S f)%nat with (S (3 - k + f)) by lia.
  rewrite force_rejected_tail by (apply Forall_settled_snoc; exact Hps).
  eexists. reflexivity.
Qed.

Lemma seg_get_failed {A : Type} world f n c t ps w (K : TokenCache -> Async A) e :
  Forall is_settled ps ->
  valid_at c t = false ->
  refresh_error cfg parse (token_reply world (length (token_posts w))) = Some e ->
  exists t',
    drive world (5 + f) n
      (running (mkHeap c None t ps w)
               (let* x := await_call (getAccessToken cfg parse) in K x)) =
    mkMachine (mkHeap c None t' (ps ++ [Settled (inl e)]) (w ++ [req_token])) [Settled (inl e)].
Proof.
  intros Hps Hv Herr. rewrite run_get_invalid by exact Hv.
  match goal with |- context [mkMachine _ [OnPromise _ ?kc]] =>
    destruct (arrow_fails world (S (S f)) n c (Some (length ps)) t ps w kc e Hps Herr)
      as (k & t' & Hk & Heq)
  end.
  change (5 + f)%nat with (3 + S (S f))%nat. rewrite Heq. clear Heq.
  replace (3 - k + S (S f))%nat with (S (S (3 - k + f))) by lia.
  rewrite get_rejected_tail by (apply Forall_settled_snoc; exact Hps).
  eexists. reflexivity.
Qed.

(** X15: when no credential can be obtained (the cache is invalid and the
    refresh fails), [sfFetch] rejects with the error of the refresh and
    sends no API request at all: the token POST is the only request on the
    wire, and the cache keeps its value. *)
Theorem no_request_without_credential world h0 path options fuel e :
  idle h0 ->
  first_credential cfg parse world h0 = inl e ->
  (6 <= fuel)%nat ->
  let m := drive world fuel 0 (alone h0 (sfFetch cfg parse path options)) in
  result m = Some (inl e) /\
  wire (heap m) = [req_token] /\
  tokenCache (heap m) = tokenCache h0 /\
  refreshing (heap m) = None.
Proof.
  intros (Hrefr & Hps & Hw) Hcred Hfuel m.
  destruct h0 as [c0 r0 t0 ps0 w0]. cbn in Hrefr, Hps, Hw. subst r0 ps0 w0.
  subst m. destruct (first_credential_failed _ _ _ _ Hcred) as (Hv & Herr).
  do 6 (destruct fuel as [| fuel]; [lia |]). clear Hfuel.
  unfold sfFetch. rewrite seg_alone by settled.
  match goal with |- context [let* x := await_call _ in @?K x] =>
    destruct (seg_get_failed world fuel 1 c0 (t0 + Z.of_N (delay world 0)) [] [] K e
                ltac:(settled) Hv Herr) as (t' & Heq)
  end.
  cbv beta in Heq. change (S (S (S (S (S fuel))))) with (5 + fuel)%nat.
  rewrite Heq. repeat split; reflexivity.
Qed.

Ltac refused_tail Hapi Hauth Hcond Herr res :=
    cbv beta zeta;
    rewrite seg_fetch_api by settled;
    cbn [app api_calls List.filter length is_token_post negb];
    rewrite Hapi; cbn [unsettle bind];
    rewrite Hcond;
    rewrite seg_text by settled;
    unfold auth_failure in Hauth;
    destruct (text res) as [? | ?]; cbn [catch unsettle settle bind];
    rewrite Hauth;
    match goal with |- context [drive ?world (S (S (S (S ?f)))) ?n (running (mkHeap ?c None ?t ?ps ?w) (let* x := await_call (refreshAccessToken _ _) in @?K x))] =>
      let t' := fresh "t'" in let Heq := fresh "Heq" in
      destruct (seg_force_failed world f n c t ps w K _ ltac:(settled) Herr) as (t' & Heq);
      cbv beta in Heq; change (S (S (S (S f)))) with (4 + f)%nat; rewrite Heq
    end;
    repeat split; reflexivity.

(** X16: when the refresh forced by an authentication failure fails,
    [sfFetch] rejects with the error of that refresh and does not retry:
    the wire ends with the first API request and the token POST, and the
    credential used for the first attempt stays cached. *)
Theorem refused_refresh_is_not_retried world h0 path options fuel cache res e :
  idle h0 ->
  noRetry options = false ->
  first_credential cfg parse world h0 = inr cache ->
  api_reply world 0 = inr res ->
  auth_failure res = true ->
  refresh_error cfg parse (token_reply world (length (first_wire cfg world h0))) = Some e ->
  (12 <= fuel)%nat ->
  let m := drive world fuel 0 (alone h0 (sfFetch cfg parse path options)) in
  result m = Some (inl e) /\
  wire (heap m) =
    first_wire cfg world h0 ++
    [ApiFetch (url_for cache path) (init options) (first_headers cache (headers options));
     req_token] /\
  tokenCache (heap m) = Some cache /\
  refreshing (heap m) = None.
Proof.
  intros (Hrefr & Hps & Hw) HnoRetry Hcred Hapi Hauth Herr Hfuel m.
  destruct h0 as [c0 r0 t0 ps0 w0]. cbn in Hrefr, Hps, Hw. subst r0 ps0 w0.
  subst m.
  do 12 (destruct fuel as [| fuel]; [lia |]). clear Hfuel.
  assert (Hcond : negb (noRetry options) && ((status res =? 401) || (status res =? 403)) = true).
  { rewrite HnoRetry. cbn [negb andb]. eapply isAuthFailure_status. exact Hauth. }
  unfold first_credential, first_wire, first_valid in *. cbn [tokenCache now] in *.
  unfold sfFetch. rewrite seg_alone by settled.
  destruct c0 as [c |]; [destruct (valid_at (Some c) _) eqn:Hv |].
  - injection Hcred as <-. cbn [valid_at] in Hv. cbn [length] in Herr.
    rewrite run_get_valid by exact Hv. rewrite seg_call by settled.
    refused_tail Hapi Hauth Hcond Herr res.
  - rewrite elapsed_3 in Hcred. cbn [length] in Herr.
    destruct (token_reply world 0) as [e0 | res0] eqn:Hr0; [discriminate |].
    erewrite seg_get; [| settled | exact Hv | exact Hr0 | exact Hcred].
    refused_tail Hapi Hauth Hcond Herr res.
  - rewrite elapsed_3 in Hcred. cbn [valid_at length] in Herr |- *.
    destruct (token_reply world 0) as [e0 | res0] eqn:Hr0; [discriminate |].
    erewrite seg_get; [| settled | reflexivity | exact Hr0 | exact Hcred].
    refused_tail Hapi Hauth Hcond Herr res.
Qed.

End Failing.
(** *** The statements on sample runs *)

(** [sobjects/Case] with and without the leading slash. *)
Lemma sfRestPath_one_slash_witness :
  sfRestPath cfg_default "sobjects/Case" = "/services/data/v60.0/sobjects/Case"%string /\
  sfRestPath cfg_default "/sobjects/Case" = sfRestPath cfg_default "sobjects/Case".
Proof. apply (sfRestPath_one_slash cfg_default "sobjects/Case"). reflexivity. Defined.

(** The issuer grants [tok-1] at clock 1000. *)
Lemma refresh_stores_granted_credential_witness :
  let m := drive world_instant 4 0
             (alone heap_empty (refreshAccessToken cfg_default parse_sample)) in
  result m = Some (inr (cache_one 541000)) /\
  tokenCache (heap m) = Some (cache_one 541000) /\
  refreshing (heap m) = None /\
  wire (heap m) =
    [TokenPost "https://login.salesforce.com/services/oauth2/token"
       [("grant_type", "refresh_token"); ("client_id", "client");
        ("client_secret", "secret"); ("refresh_token", "refresh")]].
Proof.
  apply (refresh_stores_granted_credential cfg_default parse_sample world_instant heap_empty 4
           "tok-1" "https://one.example").
  - repeat split.
  - lia.
  - reflexivity.
Defined.

(** The issuer answers 400 with a body that is not JSON. *)
Lemma refresh_error_by_stage_witness :
  result (drive world_issuer_down 4 0
            (alone heap_cached (refreshAccessToken cfg_default parse_sample))) =
  Some (inl refused).
Proof.
  refine (proj1 (proj2 (proj2 (refresh_error_by_stage cfg_default parse_sample
                                 world_issuer_down heap_cached 4 _ _))) _ _ eq_refl eq_refl eq_refl).
  - repeat split.
  - lia.
Defined.

(** One second after the refresh the credential is served from the cache. *)
Lemma refreshed_credential_is_reused_witness :
  let m := drive world_instant 4 0
             (alone heap_empty (refreshAccessToken cfg_default parse_sample)) in
  let later := with_now (now (heap m) + 1000) (heap m) in
  sync (getAccessToken cfg_default parse_sample) later = (Settled (inr (cache_one 541000)), later).
Proof.
  apply (refreshed_credential_is_reused cfg_default parse_sample world_instant heap_empty 4
           (cache_one 541000) 1000%N).
  - repeat split.
  - lia.
  - vm_compute. reflexivity.
  - vm_compute. reflexivity.
Defined.

(** An empty cache and an issuer that answers 400. *)
Lemma no_request_without_credential_witness :
  let m := drive world_issuer_down 6 0
             (alone heap_empty (sfFetch cfg_default parse_sample "/x" options_get)) in
  result m = Some (inl refused) /\
  wire (heap m) = [TokenPost (token_url cfg_default) (token_form cfg_default)] /\
  tokenCache (heap m) = None /\
  refreshing (heap m) = None.
Proof.
  apply (no_request_without_credential cfg_default parse_sample world_issuer_down heap_empty
           "/x" options_get 6 refused).
  - repeat split.
  - reflexivity.
  - lia.
Defined.

(** A caller with an [Authorization] header of its own: the first request
    carries it, the retry carries the refreshed bearer token; the other
    headers are the same on both. *)
Lemma retry_overrides_authorization_witness :
  let m := drive world_401_then_200 14 0
             (alone heap_cached (sfFetch cfg_default parse_sample "/x" options_own_headers)) in
  exists u1 u2 hd1 hd2,
    api_calls (wire (heap m)) =
      [ApiFetch u1 (init options_own_headers) hd1;
       ApiFetch u2 (init options_own_headers) hd2] /\
    hd1 !! "Authorization" = Some "Basic abc"%string /\
    hd1 !! "Content-Type" = Some "application/json"%string /\
    (forall k, k <> "Authorization"%string -> k <> "Content-Type"%string ->
               hd1 !! k = headers options_own_headers ≫= (.!! k)) /\
    hd2 !! "Authorization" = Some "Bearer tok-1"%string /\
    (forall k, k <> "Authorization"%string -> hd2 !! k = hd1 !! k).
Proof.
  apply (retry_overrides_authorization cfg_default parse_sample world_401_then_200 heap_cached
           "/x" options_own_headers 14 cache_zero response_401
           "tok-1" "https://one.example").
  - repeat split.
  - reflexivity.
  - reflexivity.
  - reflexivity.
  - reflexivity.
  - reflexivity.
  - reflexivity.
  - lia.
Defined.

(** A cached credential, a 401 and an issuer that answers 400. *)
Lemma refused_refresh_is_not_retried_witness :
  let m := drive world_locked_out 12 0
             (alone heap_cached (sfFetch cfg_default parse_sample "/x" options_get)) in
  result m = Some (inl refused) /\
  wire (heap m) =
    [ApiFetch "https://zero.example/x" (init options_get)
       (first_headers cache_zero (headers options_get));
     TokenPost (token_url cfg_default) (token_form cfg_default)] /\
  tokenCache (heap m) = Some cache_zero /\
  refreshing (heap m) = None.
Proof.
  apply (refused_refresh_is_not_retried cfg_default parse_sample world_locked_out heap_cached
           "/x" options_get 12 cache_zero (mkResponse 401 (inr "expired"%string)) refused).
  - repeat split.
  - reflexivity.
  - reflexivity.
  - reflexivity.
  - reflexivity.
  - reflexivity.
  - lia.
Defined.

End SalesforceMore.

(* ================================================================== *)
(** ** [sfJson] on top of [sfFetch] *)
(* ================================================================== *)

Module SalesforceApiSpec.
Import JS Salesforce SalesforceSpec SalesforceApi.

Lemma sync_behind {A B : Type} (P : Async A) (K : A -> Async B) h :
  sync (bind (await_call P) K) h = (behind K (fst (sync P h)), snd (sync P h)).
Proof.
  rewrite sync_bind, sync_await_call.
  destruct (sync P h) as [[p | r | p k | req k | res k | k] h']; reflexivity.
Qed.

Lemma next_prog_behind {A B : Type} world h (K : A -> Async B) (s : suspended A) :
  result (mkMachine h [s]) = None ->
  next_prog world h (behind K s) =
  option_map (fun p => bind (await_call p) K) (next_prog world h s).
Proof.
  destruct s as [p | r | p k | req k | res k | k]; cbn; try reflexivity.
  - discriminate.
  - intros _. destruct (promises h !! p) as [[| r | | | |] |]; reflexivity.
Qed.

Lemma turn_behind {A B : Type} world n h (K : A -> Async B) (s : suspended A) :
  result (mkMachine h [s]) = None ->
  match turn world n (mkMachine h [s]) with
  | Some m' =>
      exists h' s', m' = mkMachine h' [s'] /\
        turn world n (mkMachine h [behind K s]) = Some (mkMachine h' [behind K s'])
  | None => turn world n (mkMachine h [behind K s]) = None
  end.
Proof.
  intros Hs. unfold turn. cbn [elapse heap callers].
  destruct (first_ready world _ 0 (promises _)) as [[p prog] |].
  - unfold run_arrow. cbn [heap callers]. destruct (sync prog _) as [sp h1].
    eexists _, s. split; reflexivity.
  - cbn [first_ready]. rewrite (next_prog_behind world _ K s) by exact Hs.
    destruct (next_prog world _ s) as [prog |]; cbn [option_map]; [| reflexivity].
    unfold run_caller. cbn [heap callers]. rewrite sync_behind.
    destruct (sync prog _) as [s1 h1]. cbn [fst snd insert list_insert].
    exists h1, s1. split; reflexivity.
Qed.

(** The caller of [await callee()] moves in step with the callee run on
    its own, and goes on one turn after the callee has settled. *)
Lemma await_behind {A B : Type} world (K : A -> Async B) f :
  forall n h (s : suspended A) j h' r,
    await_result world f n (mkMachine h [s]) = Some (j, h', r) ->
    (n <= j)%nat /\
    forall f', drive world ((j - n) + f') n (mkMachine h [behind K s]) =
               drive world f' j (mkMachine h' [OnCall (bind (unsettle r) K)]).
Proof.
  induction f as [| f IH]; intros n h s j h' r Hres.
  - cbn [await_result] in Hres.
    destruct (result (mkMachine h [s])) as [r0 |] eqn:Hr; [| discriminate].
    injection Hres as <- <- <-. split; [lia |]. intros f'.
    rewrite Nat.sub_diag. cbn [Nat.add].
    unfold result in Hr. cbn in Hr. destruct s; try discriminate. injection Hr as ->.
    reflexivity.
  - cbn [await_result] in Hres.
    destruct (result (mkMachine h [s])) as [r0 |] eqn:Hr.
    + injection Hres as <- <- <-. split; [lia |]. intros f'.
      rewrite Nat.sub_diag. cbn [Nat.add].
      unfold result in Hr. cbn in Hr. destruct s; try discriminate. injection Hr as ->.
      reflexivity.
    + pose proof (turn_behind world n h K s Hr) as Ht.
      destruct (turn world n (mkMachine h [s])) as [m' |]; [| discriminate].
      destruct Ht as (h1 & s1 & -> & Ht).
      destruct (IH _ _ _ _ _ _ Hres) as (Hle & Hdrive).
      split; [lia |]. intros f'.
      replace (j - n + f')%nat with (S (j - S n + f')) by lia.
      rewrite drive_S, Ht. apply Hdrive.
Qed.

Lemma seg_text_plain {A : Type} world f n c r t ps w res (K : string -> Async A) :
  Forall is_settled ps ->
  drive world (S f) n
    (running (mkHeap c r t ps w) (let* x := await_text res in K x)) =
  drive world f (S n)
    (running (mkHeap c r (t + Z.of_N (delay world n)) ps w)
             (let* x := unsettle (text res) in K x)).
Proof.
  intros Hps. unfold running at 1. rewrite sync_bind. cbn [await_text sync extend].
  rewrite drive_S. erewrite turn_caller; [reflexivity | exact Hps | reflexivity].
Qed.

Section Api.
Variable cfg : Config.
Variable parse : string -> thrown + SalesforceTokenResponse.
Variable parse_doc : string -> thrown + json.

Lemma alone_behind h path options :
  alone h (sfJson cfg parse parse_doc path options) =
  mkMachine h [behind (fun res => let* text := await_text res in read_json parse_doc path res text)
                      (Fresh (sfFetch cfg parse path options))].
Proof. reflexivity. Qed.

(** X17: when [sfFetch], run on its own, rejects, [sfJson] run in the same
    surroundings rejects with the same error, and sends nothing that
    [sfFetch] did not send. *)
Theorem sfJson_passes_rejection_on world h0 path options f j h' e fuel :
  await_result world f 0 (alone h0 (sfFetch cfg parse path options)) = Some (j, h', inl e) ->
  Forall is_settled (promises h') ->
  (j + 1 <= fuel)%nat ->
  let m := drive world fuel 0 (alone h0 (sfJson cfg parse parse_doc path options)) in
  result m = Some (inl e) /\
  wire (heap m) = wire h' /\
  tokenCache (heap m) = tokenCache h'.
Proof.
  intros Hres Hps Hfuel m. subst m.
  rewrite alone_behind.
  destruct (await_behind world (fun res => let* text := await_text res in read_json parse_doc path res text) f 0 h0 _ j h' (inl e) Hres) as (_ & Hdrive).
  replace fuel with (j - 0 + (fuel - j))%nat by lia. rewrite Hdrive.
  destruct (fuel - j)%nat as [| f'] eqn:Hf; [lia |].
  destruct h' as [c r t ps w]. cbn [promises] in Hps.
  rewrite seg_call by exact Hps. cbn [unsettle bind].
  rewrite seg_throw by exact Hps. repeat split; reflexivity.
Qed.

(** X18: when [sfFetch], run on its own, resolves with a response, [sfJson]
    run in the same surroundings sends nothing more and settles by that
    response: a rejection of [text()] as it is; for a status that is not ok
    the [Salesforce API error] carrying status, path and body; for an ok
    response with an empty body the empty object, without parsing; and
    otherwise the outcome of [JSON.parse] on the body. *)
Theorem sfJson_reads_the_response world h0 path options f j h' res fuel :
  await_result world f 0 (alone h0 (sfFetch cfg parse path options)) = Some (j, h', inr res) ->
  Forall is_settled (promises h') ->
  (j + 2 <= fuel)%nat ->
  let m := drive world fuel 0 (alone h0 (sfJson cfg parse parse_doc path options)) in
  wire (heap m) = wire h' /\
  tokenCache (heap m) = tokenCache h' /\
  result m =
    Some (match text res with
          | inl e => inl e
          | inr txt =>
              if negb (ok res)
              then inl (ErrorObj ("Salesforce API error (" +:+ decimal (status res) +:+ ") on "
                                  +:+ path +:+ ": " +:+ txt))
              else if is_empty txt then inr (JObj [])
              else parse_doc txt
          end).
Proof.
  intros Hres Hps Hfuel m. subst m.
  rewrite alone_behind.
  destruct (await_behind world (fun res => let* text := await_text res in read_json parse_doc path res text) f 0 h0 _ j h' (inr res) Hres) as (_ & Hdrive).
  replace fuel with (j - 0 + (fuel - j))%nat by lia. rewrite Hdrive.
  destruct (fuel - j)%nat as [| [| f']] eqn:Hf; try lia.
  destruct h' as [c r t ps w]. cbn [promises] in Hps.
  rewrite seg_call by exact Hps. cbn [unsettle bind].
  rewrite (seg_text_plain world f' _ c r _ ps w res) by exact Hps.
  destruct (text res) as [e | txt]; cbn [unsettle bind].
  - rewrite seg_throw by exact Hps. repeat split; reflexivity.
  - unfold read_json. destruct (negb (ok res)).
    + rewrite seg_throw by exact Hps. repeat split; reflexivity.
    + destruct (is_empty txt).
      * rewrite seg_return by exact Hps. repeat split; reflexivity.
      * rewrite seg_done by exact Hps. repeat split; reflexivity.
Qed.

End Api.

(** *** The statements on sample runs *)

(** An empty cache and an issuer that answers 400, through [sfJson]. *)
Lemma sfJson_passes_rejection_on_witness :
  result (drive world_issuer_down 7 0
            (alone heap_empty (sfJson cfg_default parse_sample parse_doc_sample "/x" options_get))) =
  Some (inl refused).
Proof.
  eapply (fun H1 H2 H3 =>
            proj1 (sfJson_passes_rejection_on cfg_default parse_sample parse_doc_sample
                     world_issuer_down heap_empty "/x" options_get 10 _ _ refused 7 H1 H2 H3)).
  - vm_compute. reflexivity.
  - cbn. repeat constructor. eexists. reflexivity.
  - lia.
Defined.

(** A second 401 after the retry reaches the caller of [sfJson] as an error. *)
Lemma sfJson_reads_the_response_witness :
  result (drive world_401 12 0
            (alone heap_cached (sfJson cfg_default parse_sample parse_doc_sample "/x" options_get))) =
  Some (inl (ErrorObj "Salesforce API error (401) on /x: expired")).
Proof.
  eapply (fun H1 H2 H3 =>
            proj2 (proj2 (sfJson_reads_the_response cfg_default parse_sample parse_doc_sample
                     world_401 heap_cached "/x" options_get 20 _ _
                     (mkResponse 401 (inr "expired"%string)) 12 H1 H2 H3))).
  - vm_compute. reflexivity.
  - cbn. repeat constructor. eexists. reflexivity.
  - lia.
Defined.

End SalesforceApiSpec.

(* ================================================================== *)
(** ** Properties of the Slack and Salesforce helpers *)
(* ================================================================== *)

Module FlowsSpec.
Import JS Flows.

Section Helpers.
Variable out : Outside.
Variable stringify : json -> string.

Local Abbreviation reply := (replyToResponseUrl out stringify).

(** One reply: the request made, and the outcome by the status of the
    answer. *)
Lemma reply_run url body t :
  reply url body t =
  (match http out (length t) with
   | inl e => Worker.Threw e
   | inr res =>
       if http_ok res then Worker.Normal tt
       else match http_text res with
            | inl e => Worker.Threw e
            | inr txt =>
                Worker.Threw
                  (ErrorObj ("Failed to respond via response_url: "
                             +:+ decimal (http_status res) +:+ " " +:+ txt))
            end
   end,
   t ++ [Fetch (js_String url) "POST" json_headers (stringify body)]).
Proof.
  unfold replyToResponseUrl, bind, await_fetch.
  destruct (http out (length t)) as [e | res]; [reflexivity |].
  destruct (http_ok res); cbn [negb]; [reflexivity |].
  destruct (http_text res); reflexivity.
Qed.

(** X19: [handleCreateCaseCommand] checks [response_url], [team_id],
    [channel_id] and [user_id] in this order and throws [Missing <field> in
    slack command payload] for the first one that is missing or empty,
    before any request or query is made. *)
Theorem missing_field_rejected_before_any_action job payload field t :
  nullish payload = false ->
  first_missing payload = Some field ->
  handleCreateCaseCommand out stringify job payload t =
    (Worker.Threw (ErrorObj ("Missing " +:+ field +:+ " in slack command payload")), t).
Proof.
  intros Hp Hmiss. unfold handleCreateCaseCommand, async_helper, bind.
  rewrite (WorkerPaths.get_present _ _ Hp). cbn [lift ret].
  unfold first_missing, required_fields in Hmiss. cbn [List.find] in Hmiss.
  destruct (truthy (opt_get payload "response_url")); cbn [negb] in *;
    [| injection Hmiss as <-; reflexivity].
  destruct (truthy (opt_get payload "team_id")); cbn [negb] in *;
    [| injection Hmiss as <-; reflexivity].
  destruct (truthy (opt_get payload "channel_id")); cbn [negb] in *;
    [| injection Hmiss as <-; reflexivity].
  destruct (truthy (opt_get payload "user_id")); cbn [negb] in *;
    [discriminate | injection Hmiss as <-; reflexivity].
Qed.

Lemma first_missing_none payload :
  first_missing payload = None ->
  truthy (opt_get payload "response_url") = true /\
  truthy (opt_get payload "team_id") = true /\
  truthy (opt_get payload "channel_id") = true /\
  truthy (opt_get payload "user_id") = true.
Proof.
  unfold first_missing, required_fields. cbn [List.find].
  destruct (truthy (opt_get payload "response_url")); cbn [negb]; [| discriminate].
  destruct (truthy (opt_get payload "team_id")); cbn [negb]; [| discriminate].
  destruct (truthy (opt_get payload "channel_id")); cbn [negb]; [| discriminate].
  destruct (truthy (opt_get payload "user_id")); cbn [negb]; [| discriminate].
  auto.
Qed.

(** X20: for a complete payload whose user has no row in
    [slack_user_link], [handleCreateCaseCommand] posts the [Verifying] note,
    runs the one query with the team and user ids, posts the
    [isn't verified yet] note and ends: Salesforce is not called. *)
Theorem unverified_user_is_told_and_nothing_else job payload t res0 res2 :
  let url := js_String (opt_get payload "response_url") in
  nullish payload = false ->
  first_missing payload = None ->
  http out (length t) = inr res0 -> http_ok res0 = true ->
  db out (S (length t)) = inr [] ->
  http out (S (S (length t))) = inr res2 -> http_ok res2 = true ->
  handleCreateCaseCommand out stringify job payload t =
    (Worker.Normal tt,
     t ++ [Fetch url "POST" json_headers
             (stringify (Worker.ephemeral "🔍 Verifying your access…"));
           Query SELECT_EMAIL [opt_get payload "team_id"; opt_get payload "user_id"];
           Fetch url "POST" json_headers
             (stringify (Worker.ephemeral
                "⚠️ Your email isn't verified yet. Please run `/create-case` again to complete setup."))]).
Proof.
  intros url Hp Hmiss H0 Hok0 Hdb H2 Hok2.
  destruct (first_missing_none _ Hmiss) as (Hu & Ht & Hc & Hus).
  unfold handleCreateCaseCommand, async_helper.
  unfold bind at 1. rewrite (WorkerPaths.get_present _ _ Hp). cbn [lift ret].
  rewrite Hu, Ht, Hc, Hus. cbn [negb].
  unfold bind at 1. rewrite reply_run, H0, Hok0.
  unfold bind at 1. unfold await_query. rewrite length_app. cbn [length].
  replace (length t + 1)%nat with (S (length t)) by lia. rewrite Hdb.
  unfold bind. rewrite reply_run. rewrite !length_app. cbn [length].
  replace (length t + 1 + 1)%nat with (S (S (length t))) by lia. rewrite H2, Hok2.
  cbn [return_]. rewrite <- !app_assoc. reflexivity.
Qed.

(** [handleValidationResult] has no [return]. *)
Lemma validation_never_returns result ctx t v t' :
  handleValidationResult out stringify result ctx t <> (Worker.Returned v, t').
Proof.
  unfold handleValidationResult, bind.
  destruct (get result "status") as [e | status]; cbn [lift throw ret]; [discriminate |].
  repeat match goal with
         | |- context [if ?c then _ else _] => destruct c
         end;
    rewrite ?reply_run;
    try (destruct (http out (length t)) as [e | res];
         [| destruct (http_ok res); [| destruct (http_text res)]]);
    discriminate.
Qed.

(** X21: for a complete payload whose user has a row in [slack_user_link],
    [handleCreateCaseCommand] posts the [Verifying] note, runs the query,
    calls [sfJson] on the validate-user endpoint with the team, channel and
    user ids of the payload and the email of the first row, and then goes
    on exactly as [handleValidationResult] on the result and that context. *)
Theorem verified_user_goes_to_validation job payload t res0 row rest result :
  let url := js_String (opt_get payload "response_url") in
  let team := opt_get payload "team_id" in
  let channel := opt_get payload "channel_id" in
  let user := opt_get payload "user_id" in
  let mail := opt_get row "email" in
  nullish payload = false ->
  first_missing payload = None ->
  http out (length t) = inr res0 -> http_ok res0 = true ->
  db out (S (length t)) = inr (row :: rest) ->
  nullish row = false ->
  sf out (S (S (length t))) = inr result ->
  handleCreateCaseCommand out stringify job payload t =
    handleValidationResult out stringify result
      (mkContext team user mail channel (opt_get payload "response_url"))
      (t ++ [Fetch url "POST" json_headers
               (stringify (Worker.ephemeral "🔍 Verifying your access…"));
             Query SELECT_EMAIL [team; user];
             SfJson "/services/apexrest/barry/validate-user" "POST"
               (stringify (JObj [("slackTeamId", team); ("slackChannelId", channel);
                                 ("email", mail); ("slackUserId", user)]))
               json_headers]).
Proof.
  intros url team channel user mail Hp Hmiss H0 Hok0 Hdb Hrow Hsf.
  destruct (first_missing_none _ Hmiss) as (Hu & Ht & Hc & Hus).
  unfold handleCreateCaseCommand, async_helper.
  unfold bind at 1. rewrite (WorkerPaths.get_present _ _ Hp). cbn [lift ret].
  rewrite Hu, Ht, Hc, Hus. cbn [negb].
  unfold bind at 1. rewrite reply_run, H0, Hok0.
  unfold bind at 1. unfold await_query. rewrite length_app. cbn [length].
  replace (length t + 1)%nat with (S (length t)) by lia. rewrite Hdb.
  unfold bind at 1. rewrite (WorkerPaths.get_present _ _ Hrow). cbn [lift ret].
  unfold bind at 1. unfold sfValidateUser, await_sfJson. rewrite !length_app. cbn [length].
  replace (length t + 1 + 1)%nat with (S (S (length t))) by lia. rewrite Hsf.
  rewrite <- !app_assoc. cbn [app].
  fold url team channel user mail.
  match goal with |- context [handleValidationResult out stringify ?r ?c ?tr] =>
    pose proof (validation_never_returns r c tr) as Hnr;
    destruct (handleValidationResult out stringify r c tr) as [[[] | v | e] t']
  end; try reflexivity.
  exfalso. eapply Hnr. reflexivity.
Qed.

(** X22: [handleValidationResult] does nothing at all for a status outside
    its five cases, and for each of the five cases does exactly what one
    call of [replyToResponseUrl] to the context's [response_url] with an
    ephemeral body does. *)
Theorem validation_result_replies_at_most_once result ctx t :
  let status := opt_get result "status" in
  nullish result = false ->
  (known_status status = false ->
     handleValidationResult out stringify result ctx t = (Worker.Normal tt, t)) /\
  (known_status status = true ->
     exists body,
       opt_get body "response_type" = JStr "ephemeral" /\
       handleValidationResult out stringify result ctx t =
         replyToResponseUrl out stringify (response_url ctx) body t).
Proof.
  intros status Hres. unfold handleValidationResult, bind.
  rewrite (WorkerPaths.get_present _ _ Hres). cbn [lift ret]. fold status.
  unfold known_status, known_statuses. cbn [existsb].
  destruct (is_str status "channel_not_linked"); cbn [orb];
    [split; [discriminate | intros _; eexists; split; [| reflexivity]; reflexivity] |].
  destruct (is_str status "no_entitlement"); cbn [orb];
    [split; [discriminate | intros _; eexists; split; [| reflexivity]; reflexivity] |].
  destruct (is_str status "contact_not_found"); cbn [orb];
    [split; [discriminate | intros _; eexists; split; [| reflexivity]; reflexivity] |].
  destruct (is_str status "pending_approval"); cbn [orb];
    [split; [discriminate | intros _; eexists; split; [| reflexivity]; reflexivity] |].
  destruct (is_str status "approved"); cbn [orb];
    [split; [discriminate | intros _; eexists; split; [| reflexivity]; reflexivity] |].
  split; [reflexivity | discriminate].
Qed.

(** X23: [slackUpdateMessage] makes one POST to [chat.update] with the bearer
    token and judges the answer by its JSON body alone: it succeeds when
    [ok] is truthy and throws [Slack chat.update failed: <error>]
    otherwise, whatever the HTTP status. *)
Theorem slack_update_judged_by_body_only token channel ts text t res data :
  http out (length t) = inr res ->
  http_json res = inr data ->
  nullish data = false ->
  slackUpdateMessage out stringify token channel ts text t =
    (if truthy (opt_get data "ok") then Worker.Normal tt
     else Worker.Threw
            (ErrorObj ("Slack chat.update failed: " +:+ js_String (opt_get data "error"))),
     t ++ [Fetch "https://slack.com/api/chat.update" "POST"
             [("Authorization", "Bearer " +:+ token);
              ("Content-Type", "application/json; charset=utf-8")]
             (stringify (JObj [("channel", channel); ("ts", ts); ("text", JStr text);
                               ("blocks", JArr [section_block text])]))]).
Proof.
  intros Hres Hjson Hdata.
  unfold slackUpdateMessage, bind, await_fetch. rewrite Hres, Hjson. cbn [lift ret].
  rewrite (WorkerPaths.get_present _ _ Hdata). cbn [lift ret].
  destruct (truthy (opt_get data "ok")); reflexivity.
Qed.

End Helpers.
(** *** The statements on sample flows *)

(** A payload with [response_url] and [user_id] only. *)
Lemma missing_field_rejected_before_any_action_witness :
  handleCreateCaseCommand out_unlinked stringify_sample Worker.job_noop command_without_team [] =
    (Worker.Threw (ErrorObj "Missing team_id in slack command payload"), []).
Proof.
  exact (missing_field_rejected_before_any_action out_unlinked stringify_sample Worker.job_noop
           command_without_team "team_id" [] eq_refl eq_refl).
Defined.

(** A complete payload and an empty query result. *)
Lemma unverified_user_is_told_and_nothing_else_witness :
  handleCreateCaseCommand out_unlinked stringify_sample Worker.job_noop command_payload [] =
    (Worker.Normal tt,
     [Fetch "https://hooks.example/r" "POST" json_headers "{response_type,text}";
      Query SELECT_EMAIL [JStr "T1"; JStr "U1"];
      Fetch "https://hooks.example/r" "POST" json_headers "{response_type,text}"]).
Proof.
  exact (unverified_user_is_told_and_nothing_else out_unlinked stringify_sample Worker.job_noop
           command_payload [] _ _ eq_refl eq_refl eq_refl eq_refl eq_refl eq_refl eq_refl).
Defined.

(** A complete payload and a linked user. *)
Lemma verified_user_goes_to_validation_witness :
  handleCreateCaseCommand out_linked stringify_sample Worker.job_noop command_payload [] =
    handleValidationResult out_linked stringify_sample
      (JObj [("status", JStr "approved"); ("accountId", JStr "001")])
      context_sample
      [Fetch "https://hooks.example/r" "POST" json_headers "{response_type,text}";
       Query SELECT_EMAIL [JStr "T1"; JStr "U1"];
       SfJson "/services/apexrest/barry/validate-user" "POST"
         "{slackTeamId,slackChannelId,email,slackUserId}" json_headers].
Proof.
  exact (verified_user_goes_to_validation out_linked stringify_sample Worker.job_noop
           command_payload [] _ (JObj [("email", JStr "a@b.c")]) [] _
           eq_refl eq_refl eq_refl eq_refl eq_refl eq_refl eq_refl).
Defined.

(** The status [suspended] is none of the five. *)
Lemma validation_result_replies_at_most_once_witness :
  handleValidationResult out_unlinked stringify_sample (JObj [("status", JStr "suspended")])
    context_sample [] = (Worker.Normal tt, []).
Proof.
  exact (proj1 (validation_result_replies_at_most_once out_unlinked stringify_sample
                  (JObj [("status", JStr "suspended")]) context_sample [] eq_refl) eq_refl).
Defined.

(** A 500 whose body says [ok: true] counts as success. *)
Lemma slack_update_judged_by_body_only_witness :
  fst (slackUpdateMessage out_500_ok stringify_sample "xoxb-1" (JStr "C1") (JStr "171.5")
         "hello" []) = Worker.Normal tt.
Proof.
  rewrite (slack_update_judged_by_body_only out_500_ok stringify_sample "xoxb-1" (JStr "C1")
             (JStr "171.5") "hello" [] _ (JObj [("ok", JBool true)]) eq_refl eq_refl eq_refl).
  reflexivity.
Defined.

End FlowsSpec.

(* ================================================================== *)
(** ** A bound on the API requests of concurrent calls *)
(* ================================================================== *)

Module SalesforceBoundsSpec.
Import JS Salesforce SalesforceSpec SalesforceBounds.

Lemma api_bound_mono {A : Type} (p : Async A) : forall n m,
  (n <= m)%nat -> api_bound n p -> api_bound m p.
Proof.
  induction p as [A a | A e | A k IH | A c k IH | A k IH | A q k IH | A k IH | A body IHb k IH
                 | A q k IH | A req k IH | A res k IH | A k IH];
    intros n m Hle; cbn [api_bound]; auto.
  - intros Hn c. eapply IH; eauto.
  - apply IH; auto.
  - intros Hn r. eapply IH; eauto.
  - apply IH; auto.
  - intros Hn t. eapply IH; eauto.
  - intros [Hb Hn]. split; [exact Hb |]. intros p. eapply IH; eauto.
  - intros Hn r. eapply IH; eauto.
  - destruct req as [url form | url i hd].
    + intros Hn r. eapply IH; eauto.
    + destruct n as [| n]; [contradiction |]. destruct m as [| m]; [lia |].
      intros Hn r. eapply IH; [| apply Hn]. lia.
  - intros Hn r. eapply IH; eauto.
  - apply IH; auto.
Qed.

Lemma api_bound_bind {A B : Type} (p : Async A) (K : A -> Async B) : forall a b,
  api_bound a p -> (forall x, api_bound b (K x)) -> api_bound (a + b) (bind p K).
Proof.
  induction p as [A a0 | A e | A k IH | A c k IH | A k IH | A q k IH | A k IH | A body IHb k IH
                 | A q k IH | A req k IH | A res k IH | A k IH];
    intros a b Hp HK; cbn [api_bound bind] in *; auto.
  - eapply api_bound_mono; [| apply HK]. lia.
  - destruct Hp as [Hb Hp]. split; [exact Hb |]. auto.
  - destruct req as [url form | url i hd]; [auto |].
    destruct a as [| a]; [contradiction |]. cbn [Nat.add]. auto.
Qed.

Lemma api_bound_settle {A : Type} (p : Async A) : forall n,
  api_bound n p -> api_bound n (settle p).
Proof.
  induction p as [A a0 | A e | A k IH | A c k IH | A k IH | A q k IH | A k IH | A body IHb k IH
                 | A q k IH | A req k IH | A res k IH | A k IH];
    intros n Hp; cbn [api_bound settle] in *; auto.
  - destruct Hp as [Hb Hp]. split; [exact Hb |]. auto.
  - destruct req as [url form | url i hd]; [auto |].
    destruct n as [| n]; [contradiction |]. auto.
Qed.

Lemma api_bound_unsettle {A : Type} (r : thrown + A) n : api_bound n (unsettle r).
Proof. destruct r; exact I. Qed.

Lemma api_bound_await_call {A : Type} (p : Async A) n :
  api_bound n p -> api_bound n (await_call p).
Proof.
  intros Hp. unfold await_call.
  replace n with (n + 0)%nat by lia. apply api_bound_bind.
  - apply api_bound_settle. exact Hp.
  - intros r. cbn [api_bound]. apply api_bound_unsettle.
Qed.

Section Programs.
Variable cfg : Config.
Variable parse : string -> thrown + SalesforceTokenResponse.

Lemma accept_sends_nothing res txt : api_bound 0 (accept_token_response cfg parse res txt).
Proof.
  unfold accept_token_response. destruct (negb (ok res)); [exact I |].
  destruct (parse txt) as [e | data]; cbn [unsettle bind]; [exact I |].
  destruct (falsy _ || falsy _); [exact I |]. cbn. auto.
Qed.

Lemma arrow_sends_no_api_request : api_bound 0 (refresh_arrow cfg parse).
Proof.
  unfold refresh_arrow, await_fetch, await_text. cbn [bind api_bound].
  intros [e | res]; cbn [unsettle bind api_bound]; [exact I |].
  intros [e | txt]; cbn [unsettle bind api_bound]; [exact I |].
  apply accept_sends_nothing.
Qed.

Lemma refresh_sends_no_api_request : api_bound 0 (refreshAccessToken cfg parse).
Proof.
  unfold refreshAccessToken. cbn [api_bound]. intros [p |].
  - unfold await_promise. cbn. intros r. apply api_bound_unsettle.
  - cbn [api_bound]. split; [apply arrow_sends_no_api_request |].
    intros p. unfold try_finally.
    apply (api_bound_bind _ _ 0 0).
    + apply api_bound_settle. unfold await_promise. cbn. intros r. apply api_bound_unsettle.
    + intros r. cbn. apply api_bound_unsettle.
Qed.

Lemma get_sends_no_api_request : api_bound 0 (getAccessToken cfg parse).
Proof.
  unfold getAccessToken. cbn [api_bound]. intros cache.
  apply (api_bound_bind _ _ 0 0).
  - unfold isValid. destruct cache; cbn; auto.
  - intros valid. destruct valid, cache; try exact I;
      apply api_bound_await_call, refresh_sends_no_api_request.
Qed.

Lemma sfFetch_attempts path options :
  api_bound (attempts options) (sfFetch cfg parse path options).
Proof.
  unfold sfFetch.
  apply (api_bound_bind _ _ 0 (attempts options)).
  { apply api_bound_await_call, get_sends_no_api_request. }
  intros cache. cbn zeta. unfold await_fetch at 1. cbn [bind api_bound].
  unfold attempts. destruct (noRetry options); cbn [negb andb].
  - intros [e | res]; cbn [unsettle bind api_bound]; exact I.
  - intros [e | res]; cbn [unsettle bind]; [exact I |].
    destruct ((status res =? 401) || (status res =? 403)); [| exact I].
    apply (api_bound_bind _ _ 0 1).
    { unfold catch. apply (api_bound_bind _ _ 0 0).
      - apply api_bound_settle. unfold await_text. cbn. intros r. apply api_bound_unsettle.
      - intros [e | a]; exact I. }
    intros bodyText. destruct (isAuthFailure _ _); [| exact I].
    apply (api_bound_bind _ _ 0 1).
    { apply api_bound_await_call, refresh_sends_no_api_request. }
    intros _.
    apply (api_bound_bind _ _ 0 1).
    { apply api_bound_await_call, get_sends_no_api_request. }
    intros cache2. cbn zeta. unfold await_fetch. cbn [bind api_bound].
    intros [e | res2]; exact I.
Qed.

End Programs.

(** One segment: the API requests it sends come off the bound. *)
Lemma sync_bound {A : Type} (p : Async A) : forall n h,
  api_bound n p ->
  Forall (susp_bound 0) (promises h) ->
  exists j,
    (j <= n)%nat /\
    length (api_calls (wire (snd (sync p h)))) = (length (api_calls (wire h)) + j)%nat /\
    susp_bound (n - j) (fst (sync p h)) /\
    Forall (susp_bound 0) (promises (snd (sync p h))).
Proof.
  induction p as [A a0 | A e | A k IH | A c k IH | A k IH | A q k IH | A k IH | A body IHb k IH
                 | A q k IH | A req k IH | A res k IH | A k IH];
    intros n h Hp Hps; cbn [sync api_bound] in *.
  - exists 0%nat. cbn. repeat split; auto; lia.
  - exists 0%nat. cbn. repeat split; auto; lia.
  - apply IH; auto.
  - apply (IH n (with_tokenCache (Some c) h)); auto.
  - apply IH; auto.
  - apply (IH n (with_refreshing q h)); auto.
  - apply IH; auto.
  - destruct Hp as [Hb Hk].
    destruct (IHb 0%nat (with_promises (promises h ++ [Fresh body]) h) Hb) as (j & Hj & Hw & Hs & Hps1).
    { cbn [with_promises promises]. apply Forall_app. split; [exact Hps |].
      constructor; [exact Hb | constructor]. }
    assert (j = 0%nat) as -> by lia.
    destruct (sync body _) as [sb h1]. cbn [fst snd] in *.
    destruct (IH (length (promises h)) n
                (with_promises (<[length (promises h) := sb]> (promises h1)) h1) (Hk _))
      as (j2 & Hj2 & Hw2 & Hs2 & Hps2).
    { cbn [with_promises promises]. apply Forall_insert; assumption. }
    exists j2. split; [exact Hj2 |]. split; [| split; assumption].
    rewrite Hw2. cbn [with_promises wire]. rewrite Hw. cbn [with_promises wire]. lia.
  - exists 0%nat. cbn [fst snd]. rewrite Nat.sub_0_r. repeat split; auto; lia.
  - destruct req as [url form | url i hd].
    + exists 0%nat. cbn [fst snd with_wire wire promises]. rewrite Nat.sub_0_r.
      rewrite token_posts_snoc || idtac.
      unfold api_calls. rewrite List.filter_app. cbn. rewrite app_nil_r.
      repeat split; auto; lia.
    + destruct n as [| n]; [contradiction |].
      exists 1%nat. cbn [fst snd with_wire wire promises].
      rewrite api_calls_snoc, length_app. cbn [length].
      replace (S n - 1)%nat with n by lia.
      repeat split; auto; lia.
  - exists 0%nat. cbn [fst snd]. rewrite Nat.sub_0_r. repeat split; auto; lia.
  - exists 0%nat. cbn [fst snd]. rewrite Nat.sub_0_r. repeat split; auto; lia.
Qed.

Lemma wake_bound {A : Type} h n (s : suspended A) prog :
  susp_bound n s -> wake_prog h s = Some prog -> api_bound n prog.
Proof.
  destruct s as [p | r | p k | req k | res k | k]; cbn; intros Hs Hw; try discriminate.
  - injection Hw as <-. exact Hs.
  - destruct (promises h !! p) as [[| r | | | |] |]; try discriminate.
    injection Hw as <-. apply Hs.
  - injection Hw as <-. apply Hs.
  - injection Hw as <-. exact Hs.
Qed.

Lemma deliver_bound {A : Type} n (s : suspended A) r prog :
  susp_bound n s -> deliver_prog s r = Some prog -> api_bound n prog.
Proof.
  destruct s as [p | r0 | p k | req k | res k | k]; cbn; intros Hs Hw; try discriminate.
  injection Hw as <-. apply Hs.
Qed.

Lemma sum_nat_insert bs i b b' :
  bs !! i = Some b -> (sum_nat (<[i := b']> bs) + b = sum_nat bs + b')%nat.
Proof.
  revert i. induction bs as [| x bs IH]; intros i Hi; [discriminate |].
  destruct i as [| i].
  - injection Hi as ->. change (b' + sum_nat bs + b = b + sum_nat bs + b')%nat. lia.
  - specialize (IH i Hi).
    change (x + sum_nat (<[i := b']> bs) + b = x + sum_nat bs + b')%nat. lia.
Qed.

Lemma caller_turn_within {A : Type} B (m : Machine A) i s b bs prog :
  Forall2 susp_bound bs (callers m) ->
  Forall (susp_bound 0) (promises (heap m)) ->
  (length (api_calls (wire (heap m))) + sum_nat bs <= B)%nat ->
  callers m !! i = Some s -> bs !! i = Some b -> api_bound b prog ->
  within B (run_caller i prog m).
Proof.
  intros Hbs Hps Hle Hs Hb Hprog. unfold run_caller.
  destruct (sync_bound prog b (heap m) Hprog Hps) as (j & Hj & Hw & Hsb & Hps').
  destruct (sync prog (heap m)) as [s' h']. cbn [fst snd] in *.
  exists (<[i := (b - j)%nat]> bs). cbn [heap callers]. split; [| split].
  - apply Forall2_insert; assumption.
  - exact Hps'.
  - pose proof (sum_nat_insert bs i b (b - j) Hb). lia.
Qed.

Lemma arrow_turn_within {A : Type} B (m : Machine A) p prog :
  within B m -> api_bound 0 prog -> within B (run_arrow p prog m).
Proof.
  intros (bs & Hbs & Hps & Hle) Hprog. unfold run_arrow.
  destruct (sync_bound prog 0 (heap m) Hprog Hps) as (j & Hj & Hw & Hsb & Hps').
  assert (j = 0%nat) as -> by lia.
  destruct (sync prog (heap m)) as [s' h']. cbn [fst snd] in *.
  exists bs. cbn [heap callers with_promises promises wire]. split; [exact Hbs |]. split.
  - apply Forall_insert; assumption.
  - lia.
Qed.

(** No step of the machine, whoever takes it, lets the wire outgrow the
    bound. *)
Lemma step_within {A : Type} B l (m m' : Machine A) :
  within B m -> step l m = Some m' -> within B m'.
Proof.
  intros Hin Hstep.
  destruct l as [dt | [i | p] | [i | p] reply]; cbn [step] in Hstep.
  - injection Hstep as <-. destruct Hin as (bs & Hbs & Hps & Hle). exists bs. auto.
  - destruct (callers m !! i) as [s |] eqn:Hs; [| discriminate]. cbn [mbind option_bind] in Hstep.
    destruct (wake_prog (heap m) s) as [prog |] eqn:Hw; [| discriminate].
    injection Hstep as <-. destruct Hin as (bs & Hbs & Hps & Hle).
    destruct (Forall2_lookup_r _ _ _ _ _ Hbs Hs) as (b & Hb & Hsb).
    eapply caller_turn_within; eauto. eapply wake_bound; eauto.
  - destruct (promises (heap m) !! p) as [s |] eqn:Hs; [| discriminate].
    cbn [mbind option_bind] in Hstep.
    destruct (wake_prog (heap m) s) as [prog |] eqn:Hw; [| discriminate].
    injection Hstep as <-. apply arrow_turn_within; [exact Hin |].
    destruct Hin as (bs & Hbs & Hps & Hle).
    eapply wake_bound; [| exact Hw]. eapply Forall_lookup_1; eauto.
  - destruct (callers m !! i) as [s |] eqn:Hs; [| discriminate]. cbn [mbind option_bind] in Hstep.
    destruct (deliver_prog s reply) as [prog |] eqn:Hw; [| discriminate].
    injection Hstep as <-. destruct Hin as (bs & Hbs & Hps & Hle).
    destruct (Forall2_lookup_r _ _ _ _ _ Hbs Hs) as (b & Hb & Hsb).
    eapply caller_turn_within; eauto. eapply deliver_bound; eauto.
  - destruct (promises (heap m) !! p) as [s |] eqn:Hs; [| discriminate].
    cbn [mbind option_bind] in Hstep.
    destruct (deliver_prog s reply) as [prog |] eqn:Hw; [| discriminate].
    injection Hstep as <-. apply arrow_turn_within; [exact Hin |].
    destruct Hin as (bs & Hbs & Hps & Hle).
    eapply deliver_bound; [| exact Hw]. eapply Forall_lookup_1; eauto.
Qed.

Lemma exec_within {A : Type} B ls : forall (m m' : Machine A),
  within B m -> exec ls m = Some m' -> within B m'.
Proof.
  induction ls as [| l ls IH]; intros m m' Hin Hexec; cbn [exec] in Hexec.
  - injection Hexec as <-. exact Hin.
  - destruct (step l m) as [m1 |] eqn:Hstep; [| discriminate].
    eapply IH; [| exact Hexec]. eapply step_within; eauto.
Qed.

Section Fetchers.
Variable cfg : Config.
Variable parse : string -> thrown + SalesforceTokenResponse.

(** X24: however many calls of [sfFetch] run together and however their
    turns, the turns of the refreshes and the answers of the network are
    interleaved, the API requests on the wire never outnumber the attempts
    the calls are entitled to: two per call, and one for a call made with
    [noRetry]. *)
Theorem at_most_two_api_requests_per_call h0 calls ls m :
  idle h0 ->
  exec ls (fetchers cfg parse h0 calls) = Some m ->
  (length (api_calls (wire (heap m))) <= sum_nat (List.map (fun c => attempts (snd c)) calls))%nat /\
  (length (api_calls (wire (heap m))) <= 2 * length calls)%nat.
Proof.
  intros (_ & Hps & Hw) Hexec.
  assert (Hin : within (sum_nat (List.map (fun c => attempts (snd c)) calls))
                       (fetchers cfg parse h0 calls)).
  { exists (List.map (fun c => attempts (snd c)) calls). unfold fetchers. cbn [heap callers].
    rewrite Hps, Hw. split; [| split; [constructor | cbn; lia]].
    clear Hexec. induction calls as [| c calls IH]; cbn [List.map]; constructor; [| exact IH].
    apply sfFetch_attempts. }
  destruct (exec_within _ ls _ _ Hin Hexec) as (bs & _ & _ & Hle).
  split; [lia |].
  assert (Hsum : (sum_nat (List.map (fun c => attempts (snd c)) calls) <= 2 * length calls)%nat).
  { clear. induction calls as [| c calls IH]; cbn [List.map sum_nat fold_right length]; [lia |].
    unfold sum_nat in IH. unfold attempts at 1. destruct (noRetry (snd c)); lia. }
  lia.
Qed.

End Fetchers.

(** *** The statement on a sample run *)

(** Two calls, three API requests: two for the first, one for the second. *)
Lemma at_most_two_api_requests_per_call_witness :
  (length (api_calls (wire (heap after_two))) <= 3)%nat /\
  (length (api_calls (wire (heap after_two))) <= 4)%nat.
Proof.
  apply (at_most_two_api_requests_per_call cfg_default parse_sample heap_empty two_calls
           run_two after_two).
  - repeat split.
  - vm_compute. reflexivity.
Defined.

End SalesforceBoundsSpec.
